(** * cAsync::AsyncCallback (ccBase/design_patterns/include/async_callback.h)

    A small-step model of the class and of the threads that use it.

    - The fields guarded by [mutex_] ([running_], [callbacks_],
      [pending_futures_]) are only touched inside critical sections, so
      one critical section is one step.
    - [cv_.wait(lock, pred)] is a step that is enabled when [pred] holds;
      [notify_one]/[notify_all] therefore change nothing in the state.
    - [worker_thread_] is written under the lock (StartUnlocked) and read
      without it (Stop): [joinable()] and [join()] are steps of their own,
      and each access is taken as atomic.
    - A [std::promise] is a cell of the store [shared_states]; a future is
      the index of the cell it refers to.
    - A callback is opaque to the class: all it can observe is whether the
      call returns (and what) or throws, which is what [outcome] records.
      A callback that itself calls the object it was given to ([Post],
      [Stop], [WaitAll], ... from inside a task), or that never returns,
      is not modelled: the calls are made by the threads [callers], never
      by the worker. Every statement below is about an executor whose
      tasks return or throw without using the executor.
    - One run of a wrapper lambda is one step of the worker; the order of
      its promise operations is kept in [op_log].
    - The fields [enq_log], [deq_log], [ran_log] and [op_log] record what
      has happened; no step reads them. *)

From stdpp Require Import base option list sets strings.

(** ** Values, exceptions and promises *)

(** Futures and threads are named by their index in the store and in the
    thread table. *)
Abbreviation handle := nat (only parsing).
Abbreviation tid := nat (only parsing).

Inductive value :=
| VVoid
| VInt (z : Z)
| VString (s : string).

Inductive exception :=
| runtime_error (what : string)
| promise_already_satisfied      (* std::future_error *)
| no_state                       (* std::future_error *)
| invalid_argument.              (* std::system_error from join() *)

(** What calling a [std::function<T()>] does, for a callback that does not
    use the executor itself: it returns a value or it throws. *)
Inductive outcome :=
| Returns (v : value)
| Throws (e : exception).

(** The shared state behind a promise/future pair. *)
Inductive shared_state :=
| Pending
| Ready (v : value)
| Failed (e : exception).

Inductive promise_op := SetValue | SetException.

#[global] Instance value_eq_dec : EqDecision value.
Proof. solve_decision. Defined.
#[global] Instance exception_eq_dec : EqDecision exception.
Proof. solve_decision. Defined.
#[global] Instance outcome_eq_dec : EqDecision outcome.
Proof. solve_decision. Defined.
#[global] Instance shared_state_eq_dec : EqDecision shared_state.
Proof. solve_decision. Defined.
#[global] Instance promise_op_eq_dec : EqDecision promise_op.
Proof. solve_decision. Defined.

Definition settled (c : shared_state) : bool :=
  match c with Pending => false | _ => true end.

(** ** A state-and-exception monad for the body of a wrapper lambda *)

Definition promise_state : Type := list shared_state * list (handle * promise_op).

Definition Exc (A : Type) : Type := promise_state → promise_state * (A + exception).

Definition throw {A} (e : exception) : Exc A := λ σ, (σ, inr e).

Definition try_catch {A} (m : Exc A) (handler : exception → Exc A) : Exc A :=
  λ σ, match m σ with
       | (σ', inl a) => (σ', inl a)
       | (σ', inr e) => handler e σ'
       end.

#[global] Instance Exc_ret : MRet Exc := λ A a σ, (σ, inl a).
#[global] Instance Exc_bind : MBind Exc := λ A B k m σ,
  match m σ with
  | (σ', inl a) => k a σ'
  | (σ', inr e) => (σ', inr e)
  end.

(** [promise::set_value]: stores the value if the shared state is still
    pending, throws [future_error] otherwise. *)
Definition set_value (p : handle) (v : value) : Exc () := λ '(st, log),
  let log' := log ++ [(p, SetValue)] in
  match st !! p with
  | Some Pending => ((<[p := Ready v]> st, log'), inl ())
  | Some _ => ((st, log'), inr promise_already_satisfied)
  | None => ((st, log'), inr no_state)
  end.

(** [promise::set_exception]. *)
Definition set_exception (p : handle) (e : exception) : Exc () := λ '(st, log),
  let log' := log ++ [(p, SetException)] in
  match st !! p with
  | Some Pending => ((<[p := Failed e]> st, log'), inl ())
  | Some _ => ((st, log'), inr promise_already_satisfied)
  | None => ((st, log'), inr no_state)
  end.

Definition invoke (callback : outcome) : Exc value :=
  match callback with
  | Returns v => mret v
  | Throws e => throw e
  end.

(** [future::get] on a valid future: [None] while it would block. *)
Definition future_get (st : list shared_state) (f : handle) : option (value + exception) :=
  match st !! f with
  | Some (Ready v) => Some (inl v)
  | Some (Failed e) => Some (inr e)
  | _ => None
  end.

(** [shared_future::wait] returns once the state is no longer pending. *)
Definition future_ready (st : list shared_state) (f : handle) : bool :=
  match st !! f with
  | Some c => settled c
  | None => false
  end.

(** ** Tasks: the two lambdas pushed on [callbacks_] *)

Inductive task :=
| Untyped (callback : outcome) (promise : handle)
| Typed (callback : outcome) (promise void_promise : handle).

#[global] Instance task_eq_dec : EqDecision task.
Proof. solve_decision. Defined.

(** The lambda bodies of [Post] (lines 67-74) and [Post<T>] (lines 100-109). *)
Definition run_task (t : task) : Exc () :=
  match t with
  | Untyped callback promise =>
      try_catch
        (invoke callback ;; set_value promise VVoid)
        (λ e, set_exception promise e)
  | Typed callback promise void_promise =>
      try_catch
        (v ← invoke callback; set_value promise v ;; set_value void_promise VVoid)
        (λ e, set_exception promise e ;; set_exception void_promise e)
  end.

(** The future that was pushed on [pending_futures_] for a task. *)
Definition registered (t : task) : handle :=
  match t with
  | Untyped _ p => p
  | Typed _ _ vp => vp
  end.

Definition task_handles (t : task) : list handle :=
  match t with
  | Untyped _ p => [p]
  | Typed _ p vp => [p; vp]
  end.

Definition task_callback (t : task) : outcome :=
  match t with
  | Untyped cb _ => cb
  | Typed cb _ _ => cb
  end.

(** ** Threads *)

(** Where a thread running [WorkerLoop] is. *)
Inductive worker :=
| WWait                (* line 153-154: at the top of the loop, in cv_.wait *)
| WExec (t : task)     (* line 164: unlocked, about to run callback() *)
| WRelock              (* line 165: callback() returned, before lock.lock() *)
| WDone.               (* WorkerLoop returned *)

Inductive call :=
| Start
| Stop
| Post (callback : outcome)
| PostT (callback : outcome)
| WaitAll
| GetPendingCount
| Destroy.             (* ~AsyncCallback *)

(** Where a thread that uses the object is. [dtor] tells a [Stop] that
    runs inside the destructor from a direct call. *)
Inductive caller :=
| Idle
| PostNotify (fut : option handle)    (* line 76 / 111 *)
| StopNotify (dtor : bool)            (* line 45-46 *)
| StopJoin (dtor : bool)              (* line 47 *)
| WaitAllLoop (futures : list handle) (* line 126-128 *)
| DtorMembers                         (* members destroyed after the body of the destructor *)
| Raised (e : exception).             (* the call left by an exception *)

Inductive lifecycle :=
| Alive
| Terminated           (* std::terminate was called *)
| Destroyed.           (* the destructor has returned *)

#[global] Instance worker_eq_dec : EqDecision worker.
Proof. solve_decision. Defined.
#[global] Instance caller_eq_dec : EqDecision caller.
Proof. solve_decision. Defined.
#[global] Instance lifecycle_eq_dec : EqDecision lifecycle.
Proof. solve_decision. Defined.

(** ** The state *)

Record state := State {
  running_ : bool;
  callbacks_ : list task;                (* std::queue: push at the back, pop at the front *)
  pending_futures_ : list handle;
  worker_thread_ : option tid;           (* [Some w]: joinable *)
  shared_states : list shared_state;
  threads : list worker;
  callers : list caller;
  life : lifecycle;
  (* history *)
  enq_log : list task;
  deq_log : list task;
  ran_log : list task;
  op_log : list (handle * promise_op);
}.

Definition set_running (b : bool) (s : state) : state :=
  State b (callbacks_ s) (pending_futures_ s) (worker_thread_ s) (shared_states s)
        (threads s) (callers s) (life s) (enq_log s) (deq_log s) (ran_log s) (op_log s).
Definition set_callbacks (q : list task) (s : state) : state :=
  State (running_ s) q (pending_futures_ s) (worker_thread_ s) (shared_states s)
        (threads s) (callers s) (life s) (enq_log s) (deq_log s) (ran_log s) (op_log s).
Definition set_pending_futures (r : list handle) (s : state) : state :=
  State (running_ s) (callbacks_ s) r (worker_thread_ s) (shared_states s)
        (threads s) (callers s) (life s) (enq_log s) (deq_log s) (ran_log s) (op_log s).
Definition set_worker_thread (t : option tid) (s : state) : state :=
  State (running_ s) (callbacks_ s) (pending_futures_ s) t (shared_states s)
        (threads s) (callers s) (life s) (enq_log s) (deq_log s) (ran_log s) (op_log s).
Definition set_shared_states (st : list shared_state) (s : state) : state :=
  State (running_ s) (callbacks_ s) (pending_futures_ s) (worker_thread_ s) st
        (threads s) (callers s) (life s) (enq_log s) (deq_log s) (ran_log s) (op_log s).
Definition set_threads (ws : list worker) (s : state) : state :=
  State (running_ s) (callbacks_ s) (pending_futures_ s) (worker_thread_ s) (shared_states s)
        ws (callers s) (life s) (enq_log s) (deq_log s) (ran_log s) (op_log s).
Definition set_callers (cs : list caller) (s : state) : state :=
  State (running_ s) (callbacks_ s) (pending_futures_ s) (worker_thread_ s) (shared_states s)
        (threads s) cs (life s) (enq_log s) (deq_log s) (ran_log s) (op_log s).
Definition set_life (l : lifecycle) (s : state) : state :=
  State (running_ s) (callbacks_ s) (pending_futures_ s) (worker_thread_ s) (shared_states s)
        (threads s) (callers s) l (enq_log s) (deq_log s) (ran_log s) (op_log s).
Definition set_enq_log (l : list task) (s : state) : state :=
  State (running_ s) (callbacks_ s) (pending_futures_ s) (worker_thread_ s) (shared_states s)
        (threads s) (callers s) (life s) l (deq_log s) (ran_log s) (op_log s).
Definition set_deq_log (l : list task) (s : state) : state :=
  State (running_ s) (callbacks_ s) (pending_futures_ s) (worker_thread_ s) (shared_states s)
        (threads s) (callers s) (life s) (enq_log s) l (ran_log s) (op_log s).
Definition set_ran_log (l : list task) (s : state) : state :=
  State (running_ s) (callbacks_ s) (pending_futures_ s) (worker_thread_ s) (shared_states s)
        (threads s) (callers s) (life s) (enq_log s) (deq_log s) l (op_log s).
Definition set_op_log (l : list (handle * promise_op)) (s : state) : state :=
  State (running_ s) (callbacks_ s) (pending_futures_ s) (worker_thread_ s) (shared_states s)
        (threads s) (callers s) (life s) (enq_log s) (deq_log s) (ran_log s) l.

Definition set_thread (w : tid) (st : worker) (s : state) : state :=
  set_threads (<[w := st]> (threads s)) s.
Definition set_caller (c : nat) (pc : caller) (s : state) : state :=
  set_callers (<[c := pc]> (callers s)) s.

(** [AsyncCallback() : running_(false) {}] with [n] threads that may call it. *)
Definition init (n : nat) : state :=
  State false [] [] None [] [] (replicate n Idle) Alive [] [] [] [].

(** ** The member functions *)

(** Lines 144-149. The new [std::thread] starts running [WorkerLoop]; it is
    then move-assigned to [worker_thread_], and move assignment to a
    joinable [std::thread] calls [std::terminate]. *)
Definition StartUnlocked (s : state) : state :=
  if running_ s then s
  else
    let s1 := set_running true s in
    let s2 := set_threads (threads s1 ++ [WWait]) s1 in
    match worker_thread_ s2 with
    | Some _ => set_life Terminated s2
    | None => set_worker_thread (Some (length (threads s1))) s2
    end.

(** [std::make_shared<std::promise<..>>()]: a new pending shared state. *)
Definition make_promise (s : state) : state :=
  set_shared_states (shared_states s ++ [Pending]) s.

(** Lines 62-64 and 93-95: [if (!running_) StartUnlocked();] *)
Definition start_if_stopped (s : state) : state :=
  if running_ s then s else StartUnlocked s.

(** Lines 56-75: the promise, and the critical section. The promise is
    made before the lock is taken; nobody else knows it until the wrapper
    is pushed, so it is made in the same step. [future.share()] moves the
    shared state out of [future], so the future that is returned
    afterwards has no state. *)
Definition Post_locked (c : nat) (callback : outcome) (s : state) : state :=
  let promise := length (shared_states s) in
  let s1 := start_if_stopped (make_promise s) in
  match life s1 with
  | Alive =>
      let s2 := set_pending_futures (pending_futures_ s1 ++ [promise]) s1 in
      let t := Untyped callback promise in
      let s3 := set_enq_log (enq_log s2 ++ [t]) (set_callbacks (callbacks_ s2 ++ [t]) s2) in
      set_caller c (PostNotify None) s3
  | _ => s1
  end.

(** Lines 87-110: here [share()] is called on [void_future], the typed
    future stays valid. *)
Definition PostT_locked (c : nat) (callback : outcome) (s : state) : state :=
  let promise := length (shared_states s) in
  let s1 := start_if_stopped (make_promise s) in
  match life s1 with
  | Alive =>
      let void_promise := length (shared_states s1) in
      let s2 := make_promise s1 in
      let s3 := set_pending_futures (pending_futures_ s2 ++ [void_promise]) s2 in
      let t := Typed callback promise void_promise in
      let s4 := set_enq_log (enq_log s3 ++ [t]) (set_callbacks (callbacks_ s3 ++ [t]) s3) in
      set_caller c (PostNotify (Some promise)) s4
  | _ => s1
  end.

(** Lines 38-44. *)
Definition Stop_locked (c : nat) (dtor : bool) (s : state) : state :=
  if negb (running_ s) then
    set_caller c (if dtor then DtorMembers else Idle) s
  else
    set_caller c (StopNotify dtor) (set_running false s).

(** Lines 119-124. *)
Definition WaitAll_locked (c : nat) (s : state) : state :=
  let futures := pending_futures_ s in
  set_caller c (WaitAllLoop futures) (set_pending_futures [] s).

(** Line 135-138. *)
Definition GetPendingCount_locked (s : state) : nat := length (callbacks_ s).

(** The first step of a call by caller [c]. *)
Definition call_step (c : nat) (f : call) (s : state) : state :=
  match f with
  | Start => StartUnlocked s
  | Stop => Stop_locked c false s
  | Destroy => Stop_locked c true s
  | Post callback => Post_locked c callback s
  | PostT callback => PostT_locked c callback s
  | WaitAll => WaitAll_locked c s
  | GetPendingCount => s
  end.

(** The following steps of a call. *)
Definition resume_step (c : nat) (pc : caller) (s : state) : option state :=
  match pc with
  | Idle => None
  | Raised _ => None
  | PostNotify _ =>
      (* cv_.notify_one(); return future; *)
      Some (set_caller c Idle s)
  | StopNotify dtor =>
      (* cv_.notify_all(); if (worker_thread_.joinable()) *)
      match worker_thread_ s with
      | Some _ => Some (set_caller c (StopJoin dtor) s)
      | None => Some (set_caller c (if dtor then DtorMembers else Idle) s)
      end
  | StopJoin dtor =>
      (* worker_thread_.join(): blocks until the thread has finished *)
      match worker_thread_ s with
      | Some w =>
          match threads s !! w with
          | Some WDone =>
              Some (set_caller c (if dtor then DtorMembers else Idle)
                      (set_worker_thread None s))
          | _ => None
          end
      | None =>
          (* std::system_error; a destructor is noexcept *)
          if dtor then Some (set_life Terminated s)
          else Some (set_caller c (Raised invalid_argument) s)
      end
  | WaitAllLoop futures =>
      (* for (auto& future : futures) future.wait(); *)
      match futures with
      | [] => Some (set_caller c Idle s)
      | f :: rest =>
          if future_ready (shared_states s) f
          then Some (set_caller c (WaitAllLoop rest) s)
          else None
      end
  | DtorMembers =>
      (* ~thread terminates on a joinable thread; the containers are
         destroyed with whatever they still hold *)
      match worker_thread_ s with
      | Some _ => Some (set_life Terminated s)
      | None =>
          Some (set_life Destroyed
                  (set_caller c Idle
                     (set_callbacks [] (set_pending_futures [] s))))
      end
  end.

Definition empty {A} (q : list A) : bool :=
  match q with [] => true | _ => false end.

(** Lines 160-166, from the test of the inner [while]: pop the front and
    unlock, or leave the inner loop and go back to the top. *)
Definition inner_loop (w : tid) (s : state) : state :=
  match callbacks_ s with
  | callback :: rest =>
      set_thread w (WExec callback)
        (set_deq_log (deq_log s ++ [callback]) (set_callbacks rest s))
  | [] => set_thread w WWait s
  end.

(** One step of the thread [w] running [WorkerLoop] (lines 151-168). *)
Definition WorkerLoop_step (w : tid) (pc : worker) (s : state) : option state :=
  match pc with
  | WWait =>
      if negb (empty (callbacks_ s)) || negb (running_ s) then
        if negb (running_ s) && empty (callbacks_ s)
        then Some (set_thread w WDone s)
        else Some (inner_loop w s)
      else None
  | WExec callback =>
      match run_task callback (shared_states s, op_log s) with
      | ((st, log), inl _) =>
          Some (set_thread w WRelock
                  (set_ran_log (ran_log s ++ [callback])
                     (set_op_log log (set_shared_states st s))))
      | ((st, log), inr _) =>
          (* an exception leaves the thread function *)
          Some (set_life Terminated (set_op_log log (set_shared_states st s)))
      end
  | WRelock => Some (inner_loop w s)
  | WDone => None
  end.

(** ** Interleavings *)

Inductive label :=
| Worker (w : tid)            (* the thread [w] takes a step *)
| Call (c : nat) (f : call)   (* the idle caller [c] enters [f] *)
| Resume (c : nat).           (* the caller [c] goes on with its call *)

Definition step (l : label) (s : state) : option state :=
  match life s with
  | Alive =>
      match l with
      | Worker w => pc ← threads s !! w; WorkerLoop_step w pc s
      | Call c f =>
          match callers s !! c with
          | Some Idle => Some (call_step c f s)
          | _ => None
          end
      | Resume c => pc ← callers s !! c; resume_step c pc s
      end
  | _ => None
  end.

Fixpoint run (sched : list label) (s : state) : option state :=
  match sched with
  | [] => Some s
  | l :: sched' => s' ← step l s; run sched' s'
  end.

Definition reachable (n : nat) (s : state) : Prop :=
  ∃ sched, run sched (init n) = Some s.

(** ** Invariants of the reachable states *)

(** The task that the thread behind [worker_thread_] is running. *)
Definition executing (s : state) : list task :=
  match worker_thread_ s with
  | Some w => match threads s !! w with Some (WExec t) => [t] | _ => [] end
  | None => []
  end.

Record inv_threads (s : state) : Prop := {
  it_unique : ∀ w pc, threads s !! w = Some pc → pc ≠ WDone → worker_thread_ s = Some w;
  it_running : running_ s = true →
    ∃ w pc, worker_thread_ s = Some w ∧ threads s !! w = Some pc ∧ pc ≠ WDone;
  it_bound : ∀ w, worker_thread_ s = Some w → w < length (threads s);
  it_done : ∀ w, worker_thread_ s = Some w → threads s !! w = Some WDone →
    callbacks_ s = [] ∧ running_ s = false;
  it_none : worker_thread_ s = None → callbacks_ s = [];
}.

Record inv_logs (s : state) : Prop := {
  il_enq : enq_log s = deq_log s ++ callbacks_ s;
  il_deq : deq_log s = ran_log s ++ executing s;
}.

Definition outcome_state (cb : outcome) : shared_state :=
  match cb with Returns v => Ready v | Throws e => Failed e end.

Definition void_state (cb : outcome) : shared_state :=
  match cb with Returns _ => Ready VVoid | Throws e => Failed e end.

Definition task_settled (st : list shared_state) (t : task) : Prop :=
  match t with
  | Untyped cb p => st !! p = Some (void_state cb)
  | Typed cb p vp => st !! p = Some (outcome_state cb) ∧ st !! vp = Some (void_state cb)
  end.

Definition task_pending (st : list shared_state) (t : task) : Prop :=
  ∀ h, h ∈ task_handles t → st !! h = Some Pending.

Definition outcome_op (cb : outcome) : promise_op :=
  match cb with Returns _ => SetValue | Throws _ => SetException end.

(** The promise operations of one run of a wrapper that finds its promises pending. *)
Definition task_ops (t : task) : list (handle * promise_op) :=
  (λ h, (h, outcome_op (task_callback t))) <$> task_handles t.

(** The store after one run of a wrapper that finds its promises pending. *)
Definition store_after (t : task) (st : list shared_state) : list shared_state :=
  match t with
  | Untyped cb p => <[p := void_state cb]> st
  | Typed cb p vp => <[vp := void_state cb]> (<[p := outcome_state cb]> st)
  end.

Record inv_promises (s : state) : Prop := {
  ip_nodup : NoDup (enq_log s ≫= task_handles);
  ip_bound : ∀ t h, t ∈ enq_log s → h ∈ task_handles t → h < length (shared_states s);
  ip_ran : ∀ t, t ∈ ran_log s → task_settled (shared_states s) t;
  ip_pending : ∀ t, t ∈ executing s ++ callbacks_ s → task_pending (shared_states s) t;
  ip_ops : op_log s = ran_log s ≫= task_ops;
  ip_registry : ∀ h, h ∈ pending_futures_ s → ∃ t, t ∈ enq_log s ∧ registered t = h;
}.

Record inv (s : state) : Prop := {
  inv_l : inv_logs s;
  inv_p : inv_promises s;
  inv_t : life s ≠ Terminated → inv_threads s;
  inv_d : life s = Destroyed → worker_thread_ s = None;
}.

(** ** Notions used in the statements *)

(** The caller is inside [Stop()] (called directly or by the destructor),
    after its critical section. *)
Definition in_stop (pc : caller) : bool :=
  match pc with StopNotify _ | StopJoin _ => true | _ => false end.

(** The caller whose step a label is, if any. *)
Definition label_caller (l : label) : option nat :=
  match l with Worker _ => None | Call c _ | Resume c => Some c end.

(** The run of the wrapper of [t] is complete. *)
Definition executed (s : state) (t : task) : Prop :=
  t ∈ ran_log s ∧ task_settled (shared_states s) t.

(** [x] comes before [y] in the log [l]. *)
Definition before {A} (l : list A) (x y : A) : Prop :=
  ∃ i j, i < j ∧ l !! i = Some x ∧ l !! j = Some y.

(** The operations that were invoked on the promise [h]. *)
Definition ops_on (h : handle) (log : list (handle * promise_op)) :
    list (handle * promise_op) :=
  filter (λ o, o.1 = h) log.

(** What [future::get] gives on the typed future of a task that has run. *)
Definition result_of (cb : outcome) : value + exception :=
  match cb with Returns v => inl v | Throws e => inr e end.

(** "[WaitAll()] returns only after every handle that was pending before
    the call is fulfilled or failed", for the handles of all tasks that
    were submitted before the call. *)
Definition waits_for_all_pending : Prop :=
  ∀ n sched0 s c s1 sched s2 t,
    run sched0 (init n) = Some s →
    step (Call c WaitAll) s = Some s1 →
    run sched s1 = Some s2 →
    callers s2 !! c = Some Idle →
    t ∈ enq_log s → shared_states s !! registered t = Some Pending →
    future_ready (shared_states s2) (registered t) = true.

(** "For every executor with a running worker, [Stop()] does not return
    until every task that was queued at the time of the call has been
    dequeued and executed", where a running worker is a thread that is
    inside [WorkerLoop]. *)
Definition Stop_waits_for_queued : Prop :=
  ∀ n sched0 s c s1 sched s2 w pcw t,
    run sched0 (init n) = Some s →
    threads s !! w = Some pcw → pcw ≠ WDone →
    step (Call c Stop) s = Some s1 →
    run sched s1 = Some s2 →
    callers s2 !! c = Some Idle →
    t ∈ callbacks_ s → t ∈ deq_log s2 ∧ executed s2 t.

(** How far a worker that has been told to stop is from leaving its loop. *)
Definition worker_measure (pc : worker) (q : list task) : nat :=
  3 * length q +
  match pc with WDone => 0 | WWait => 1 | WRelock => 2 | WExec _ => 3 end.

(** The executor is stopped: [running_] is clear and no [Stop()] is still
    waiting for the worker ([worker_thread_] is not joinable). *)
Definition Stopped (s : state) : Prop :=
  running_ s = false ∧ worker_thread_ s = None.

(** The number of threads that are inside [WorkerLoop]. *)
Definition live_workers (s : state) : nat :=
  length (filter (λ pc, pc ≠ WDone) (threads s)).

(** ** Concrete runs *)

Definition ok_task : outcome := Returns VVoid.
Definition bad_task : outcome := Throws (runtime_error "boom").

(** One caller posts two tasks before the worker gets to run. *)
Definition two_posts : list label :=
  [Call 0 (Post ok_task); Resume 0; Call 0 (Post bad_task); Resume 0].

Definition st_two_posts : state :=
  Eval vm_compute in default (init 0) (run two_posts (init 1)).

Definition st_stop_called : state :=
  Eval vm_compute in default (init 0) (step (Call 0 Stop) st_two_posts).

(** The rest of that [Stop()]: the worker pops and runs both tasks, finds
    the queue empty and leaves; the caller joins it. *)
Definition stop_schedule : list label :=
  [Resume 0; Worker 0; Worker 0; Worker 0; Worker 0; Worker 0; Worker 0; Resume 0].

Definition st_stopped : state :=
  Eval vm_compute in default (init 0) (run stop_schedule st_stop_called).

(** The same run, up to the moment before the caller joins the worker. *)
Definition st_joining : state :=
  Eval vm_compute in
    default (init 0) (run (take 7 stop_schedule) st_stop_called).

(** Caller 0 posts two tasks and calls [Stop()], which clears [running_]
    and releases the lock; the worker pops the first task. Caller 1 then
    calls [Stop()], finds [running_] clear and returns at once. *)
Definition second_stop : list label :=
  [Call 0 (Post ok_task); Resume 0; Call 0 (Post bad_task); Resume 0;
   Call 0 Stop; Worker 0].

Definition st_second_stop : state :=
  Eval vm_compute in default (init 0) (run second_stop (init 2)).

(** Caller 0 posts a task and calls [Stop()], which clears [running_] and
    releases the lock; caller 1 posts before caller 0 has joined the worker. *)
Definition racing_post : list label :=
  [Call 0 (Post ok_task); Resume 0; Call 0 Stop; Call 1 (Post ok_task)].

Definition st_race : state :=
  Eval vm_compute in default (init 0) (run racing_post (init 2)).

(** The destructor runs on the state that the two posts left. *)
Definition st_dtor_called : state :=
  Eval vm_compute in default (init 0) (step (Call 0 Destroy) st_two_posts).

Definition dtor_schedule : list label := stop_schedule ++ [Resume 0].

Definition st_destroyed : state :=
  Eval vm_compute in default (init 0) (run dtor_schedule st_dtor_called).





(** A task that throws is followed in the queue by one that does not;
    the worker has popped the first. *)
Definition failing_run : list label :=
  [Call 0 (Post bad_task); Resume 0; Call 0 (Post ok_task); Resume 0; Worker 0].

Definition st_failing : state :=
  Eval vm_compute in default (init 0) (run failing_run (init 1)).

Definition st_failed : state :=
  Eval vm_compute in default (init 0) (step (Worker 0) st_failing).

(** Caller 0 posts a task and calls [WaitAll()], which takes the handle
    out of the registry and blocks on it (the worker has not run yet);
    caller 1 then calls [WaitAll()], finds the registry empty and returns. *)
Definition first_waits : list label :=
  [Call 0 (Post ok_task); Resume 0; Call 0 WaitAll].

Definition second_returns : list label := [Resume 1].

Definition st_first_waits : state :=
  Eval vm_compute in default (init 0) (run first_waits (init 2)).

Definition st_second_called : state :=
  Eval vm_compute in default (init 0) (step (Call 1 WaitAll) st_first_waits).

Definition st_second_returned : state :=
  Eval vm_compute in default (init 0) (run second_returns st_second_called).

(** One caller: a task, [WaitAll()] takes its handle; a second task is
    posted by caller 1 while caller 0 waits; the worker runs the first
    task only and caller 0 returns. *)
Definition post_then_wait : list label :=
  [Call 0 (Post ok_task); Resume 0].

Definition st_posted_one : state :=
  Eval vm_compute in default (init 0) (run post_then_wait (init 2)).

Definition st_wait_called : state :=
  Eval vm_compute in default (init 0) (step (Call 0 WaitAll) st_posted_one).

Definition late_post : list label :=
  [Call 1 (Post bad_task); Resume 1; Worker 0; Worker 0; Resume 0; Resume 0].

Definition st_wait_returned : state :=
  Eval vm_compute in default (init 0) (run late_post st_wait_called).

(** ** The window of Stop(), between its critical section and its join *)

Record inv_stop (s : state) : Prop := {
  is_window : ∀ c pc, callers s !! c = Some pc → in_stop pc = true →
    running_ s = false ∧ is_Some (worker_thread_ s);
  is_unique : ∀ c c' pc pc',
    callers s !! c = Some pc → callers s !! c' = Some pc' →
    in_stop pc = true → in_stop pc' = true → c = c';
  is_owner : running_ s = false → is_Some (worker_thread_ s) →
    ∃ c pc, callers s !! c = Some pc ∧ in_stop pc = true;
  is_noraise : ∀ c e, callers s !! c ≠ Some (Raised e);
}.

(** The calls that may start the worker. *)
Definition starts_worker (f : call) : bool :=
  match f with Start | Post _ | PostT _ => true | _ => false end.

(** [racing_post] up to the moment at which caller 0 has left the critical
    section of [Stop()]. *)
Definition st_race_window : state :=
  Eval vm_compute in default (init 0) (run (take 3 racing_post) (init 2)).

(** ** The completion signals of the submitted tasks *)

(** Somebody can still wait for the future [h], or it is ready: it is in
    the registry, or in the copy of a thread that is inside [WaitAll()]. *)
Definition awaited (s : state) (h : handle) : Prop :=
  h ∈ pending_futures_ s ∨
  (∃ c fs, callers s !! c = Some (WaitAllLoop fs) ∧ h ∈ fs) ∨
  future_ready (shared_states s) h = true.

Definition inv_registry (s : state) : Prop :=
  ∀ t, t ∈ enq_log s → awaited s (registered t).

(** The registry holds the completion futures of the tasks that were
    submitted last, in the order of submission. *)
Definition inv_recent (s : state) : Prop :=
  ∃ k, k ≤ length (enq_log s) ∧
    pending_futures_ s = registered <$> drop k (enq_log s).

(** No thread is inside [WaitAll()]. *)
Definition no_WaitAll (s : state) : Prop :=
  ∀ c fs, callers s !! c ≠ Some (WaitAllLoop fs).

(** ** The test programs (test/async_callback_test.cc)

    Each test function is one thread that makes an [AsyncCallback],
    calls it, calls [get()] on some of the futures it was given and
    leaves the scope, which runs the destructor. The thread is caller 0
    of [init 1]; the worker threads run beside it. The tasks of the
    tests, as all tasks here, do not call the executor. *)

Inductive stmt :=
| SCall (f : call)     (* async.f(..); a future that is returned is kept *)
| SGet (i : nat)       (* get() on the i-th future that was returned *)
| STryGet (i : nat).   (* the same inside try { } catch (const std::exception&) { } *)

(** What a [get()] gives. On a future without shared state the standard
    leaves it undefined; libstdc++ throws [future_error(no_state)]. *)
Inductive got :=
| GotValue (v : value)
| GotException (e : exception)
| GotNoState.

Record test := Test {
  sys : state;
  todo : list stmt;                  (* the statements still to run *)
  held : list (option handle);    (* the futures returned so far; [None]: no state *)
  gots : list got;                (* what the calls of get() gave, in order *)
}.

Definition start (prog : list stmt) : test := Test (init 1) prog [] [].

(** [std::future::get]: blocks while the state is pending. *)
Definition get (st : list shared_state) (f : option handle) : option got :=
  match f with
  | None => Some GotNoState
  | Some h =>
      match future_get st h with
      | Some (inl v) => Some (GotValue v)
      | Some (inr e) => Some (GotException e)
      | None => None
      end
  end.

Definition is_value (g : got) : bool :=
  match g with GotValue _ => true | _ => false end.

(** An exception that is not caught leaves the function: of what is left
    only the destructor runs. *)
Fixpoint unwind (r : list stmt) : list stmt :=
  match r with
  | [] => []
  | SCall Destroy :: r' => SCall Destroy :: unwind r'
  | _ :: r' => unwind r'
  end.

(** One step of the thread of the test. [get()] moves the shared state
    out of the future. *)
Definition main_step (t : test) : option test :=
  match callers (sys t) !! 0 with
  | Some Idle =>
      match todo t with
      | [] => None
      | SCall f :: r =>
          s' ← step (Call 0 f) (sys t);
          Some (Test s' r (held t) (gots t))
      | SGet i :: r =>
          f ← held t !! i;
          g ← get (shared_states (sys t)) f;
          Some (Test (sys t) (if is_value g then r else unwind r)
                  (<[i := None]> (held t)) (gots t ++ [g]))
      | STryGet i :: r =>
          f ← held t !! i;
          g ← get (shared_states (sys t)) f;
          Some (Test (sys t) r (<[i := None]> (held t)) (gots t ++ [g]))
      end
  | Some (PostNotify fut) =>
      s' ← step (Resume 0) (sys t);
      Some (Test s' (todo t) (held t ++ [fut]) (gots t))
  | Some _ =>
      s' ← step (Resume 0) (sys t);
      Some (Test s' (todo t) (held t) (gots t))
  | None => None
  end.

Inductive tlabel :=
| TWorker (w : tid)
| TMain.

Definition tstep (l : tlabel) (t : test) : option test :=
  match l with
  | TWorker w =>
      s' ← step (Worker w) (sys t);
      Some (Test s' (todo t) (held t) (gots t))
  | TMain => main_step t
  end.

Fixpoint trun (sched : list tlabel) (t : test) : option test :=
  match sched with
  | [] => Some t
  | l :: sched' => t' ← tstep l t; trun sched' t'
  end.

(** What the calls of [get()] give when every task is run to its end as
    soon as it is submitted. [fs] are the futures returned so far:
    [Some cb] is the valid future of a [Post<T>(cb)]. After an exception
    that is not caught there is no further [get()]. *)
Fixpoint expect (prog : list stmt) (fs : list (option outcome)) : list got :=
  match prog with
  | [] => []
  | SCall (Post _) :: r => expect r (fs ++ [None])
  | SCall (PostT cb) :: r => expect r (fs ++ [Some cb])
  | SCall _ :: r => expect r fs
  | SGet i :: r =>
      match fs !! i with
      | Some (Some (Returns v)) => GotValue v :: expect r (<[i := None]> fs)
      | Some (Some (Throws e)) => [GotException e]
      | Some None => [GotNoState]
      | None => []
      end
  | STryGet i :: r =>
      match fs !! i with
      | Some (Some (Returns v)) => GotValue v :: expect r (<[i := None]> fs)
      | Some (Some (Throws e)) => GotException e :: expect r (<[i := None]> fs)
      | Some None => GotNoState :: expect r fs
      | None => []
      end
  end.

(** Lines 11-30: ten tasks, [WaitAll()], end of scope. Each task adds one
    to [counter], which is then the number of tasks that have run; the
    futures that [Post] returns are dropped. *)
Definition TestBasicAsyncCallback : list stmt :=
  replicate 10 (SCall (Post (Returns VVoid))) ++ [SCall WaitAll; SCall Destroy].

(** Lines 32-51: two [Post<T>], [get()] on both futures, end of scope. *)
Definition TestAsyncCallbackWithReturn : list stmt :=
  [SCall (PostT (Returns (VInt 42)));
   SCall (PostT (Returns (VString "Hello, Async!")));
   SGet 0; SGet 1; SCall Destroy].

(** Lines 53-67: a task that throws, [get()] on the future of [Post]
    inside [try], end of scope. *)
Definition TestAsyncCallbackException : list stmt :=
  [SCall (Post (Throws (runtime_error "测试异常"))); STryGet 0; SCall Destroy].

(** The futures of the test against those of [expect]: a valid future
    refers to the typed promise of a submitted [Post<T>] task. *)
Definition future_matches (s : state) (f : option handle) (a : option outcome) : Prop :=
  match f, a with
  | None, None => True
  | Some p, Some cb => ∃ vp, Typed cb p vp ∈ enq_log s
  | _, _ => False
  end.

(** The futures that the thread holds or is about to be given. *)
Definition futures_given (t : test) : list (option handle) :=
  match callers (sys t) !! 0 with
  | Some (PostNotify fut) => held t ++ [fut]
  | _ => held t
  end.

Record inv_test (prog : list stmt) (t : test) : Prop := {
  ti_reach : reachable 1 (sys t);
  ti_expect : ∃ fs,
    expect prog [] = gots t ++ expect (todo t) fs ∧
    Forall2 (future_matches (sys t)) (futures_given t) fs;
}.

(** Where a result of [get()] can come from: a valid future that is held,
    or a [Post<T>] that the program still makes. *)
Definition submitted (prog : list stmt) (fs : list (option outcome)) (g : got) : Prop :=
  match g with
  | GotValue v => Some (Returns v) ∈ fs ∨ SCall (PostT (Returns v)) ∈ prog
  | GotException e => Some (Throws e) ∈ fs ∨ SCall (PostT (Throws e)) ∈ prog
  | GotNoState => True
  end.

(** The shape of [TestBasicAsyncCallback]: tasks are submitted with
    [Post], then [WaitAll()], then the end of the scope. *)
Definition posts_then_wait (cbs : list outcome) : list stmt :=
  ((λ cb, SCall (Post cb)) <$> cbs) ++ [SCall WaitAll; SCall Destroy].

(** How far a test of this shape is: submitting, inside or after
    [WaitAll()], or in the destructor. *)
Record inv_posts (cbs : list outcome) (t : test) : Prop := {
  tp_phase :
    (∃ rem, todo t = posts_then_wait rem ∧
       (task_callback <$> enq_log (sys t)) ++ rem = cbs ∧
       (callers (sys t) !! 0 = Some Idle ∨
        ∃ fut, callers (sys t) !! 0 = Some (PostNotify fut))) ∨
    (todo t = [SCall Destroy] ∧ task_callback <$> enq_log (sys t) = cbs ∧
       pending_futures_ (sys t) = [] ∧
       (callers (sys t) !! 0 = Some Idle ∨
        ∃ fs, callers (sys t) !! 0 = Some (WaitAllLoop fs))) ∨
    (todo t = [] ∧ task_callback <$> enq_log (sys t) = cbs ∧
       ran_log (sys t) = enq_log (sys t));
}.

(** Schedules of the executor on which the thread of the test only goes
    on with the call that it is in, and their labels for the test. *)
Definition own (l : label) : Prop :=
  match l with Worker _ | Resume 0 => True | _ => False end.

Definition lift (l : label) : tlabel :=
  match l with Worker w => TWorker w | _ => TMain end.

(** Runs of the tests. *)
Definition with_return_schedule : list tlabel :=
  replicate 4 TMain ++ replicate 5 (TWorker 0) ++ replicate 4 TMain ++
  [TWorker 0; TMain; TMain].

Definition tst_with_return_posted : test :=
  Eval vm_compute in
    default (start []) (trun (replicate 4 TMain) (start TestAsyncCallbackWithReturn)).

Definition tst_with_return_done : test :=
  Eval vm_compute in
    default (start []) (trun with_return_schedule (start TestAsyncCallbackWithReturn)).

Definition basic_schedule : list tlabel :=
  replicate 20 TMain ++ replicate 21 (TWorker 0) ++ replicate 12 TMain.

Definition tst_basic_waited : test :=
  Eval vm_compute in
    default (start []) (trun basic_schedule (start TestBasicAsyncCallback)).

(** * Proofs *)

(** ** The thread invariant, transition by transition *)

Lemma executing_set_caller c pc s : executing (set_caller c pc s) = executing s.
Proof. done. Qed.

Lemma inv_threads_frame s s' :
  running_ s' = running_ s → callbacks_ s' = callbacks_ s →
  worker_thread_ s' = worker_thread_ s → threads s' = threads s →
  inv_threads s → inv_threads s'.
Proof.
  intros E1 E2 E3 E4 [].
  split; rewrite ?E1, ?E2, ?E3, ?E4; done.
Qed.

Lemma StartUnlocked_threads s :
  inv_threads s → life (StartUnlocked s) ≠ Terminated → inv_threads (StartUnlocked s).
Proof.
  intros I. unfold StartUnlocked.
  destruct (running_ s) eqn:Hr; [done|].
  cbn. destruct (worker_thread_ s) as [w0|] eqn:Hw; cbn; [done|].
  intros _. split; cbn.
  - intros w pc Hl Hpc. apply lookup_app_Some in Hl as [Hl|[Hge Hl]].
    + pose proof (it_unique _ I _ _ Hl Hpc). congruence.
    + apply list_lookup_singleton_Some in Hl as [Hz _]. f_equal. lia.
  - intros _. exists (length (threads s)), WWait. split_and!; [done| |done].
    by rewrite lookup_app_r, Nat.sub_diag.
  - intros w [= <-]. rewrite length_app. cbn. lia.
  - intros w [= <-]. rewrite lookup_app_r, Nat.sub_diag by done. done.
  - done.
Qed.

Lemma StartUnlocked_running s :
  life s = Alive → life (StartUnlocked s) = Alive → running_ (StartUnlocked s) = true.
Proof.
  unfold StartUnlocked. destruct (running_ s) eqn:Hr; [done|].
  cbn. by destruct (worker_thread_ s).
Qed.

Lemma inv_threads_push s s' :
  running_ s = true → running_ s' = true →
  worker_thread_ s' = worker_thread_ s → threads s' = threads s →
  inv_threads s → inv_threads s'.
Proof.
  intros Hr E1 E3 E4 I.
  destruct (it_running _ I Hr) as (w & pc & Hw & Hpc & Hlive).
  split; rewrite ?E1, ?E3, ?E4.
  - apply I.
  - by exists w, pc.
  - apply I.
  - intros w' Hw' Hd. congruence.
  - congruence.
Qed.

Lemma start_if_stopped_threads s :
  life s = Alive → inv_threads s →
  (life (start_if_stopped (make_promise s)) ≠ Terminated →
     inv_threads (start_if_stopped (make_promise s))) ∧
  (life (start_if_stopped (make_promise s)) = Alive →
     running_ (start_if_stopped (make_promise s)) = true).
Proof.
  intros Ha I. unfold start_if_stopped.
  assert (I0 : inv_threads (make_promise s)) by (by eapply inv_threads_frame, I).
  destruct (running_ (make_promise s)) eqn:Hr; [done|]. split.
  - by apply StartUnlocked_threads.
  - by apply StartUnlocked_running.
Qed.

Lemma Post_locked_threads c cb s :
  life s = Alive → inv_threads s →
  life (Post_locked c cb s) ≠ Terminated → inv_threads (Post_locked c cb s).
Proof.
  intros Ha I. unfold Post_locked.
  destruct (start_if_stopped_threads _ Ha I) as [I1 R1].
  destruct (life (start_if_stopped (make_promise s))) eqn:Hl; [|done|].
  - intros _. eapply (inv_threads_push (start_if_stopped (make_promise s)));
      [by apply R1|by apply R1|done..|by apply I1].
  - intros _. by apply I1.
Qed.

Lemma PostT_locked_threads c cb s :
  life s = Alive → inv_threads s →
  life (PostT_locked c cb s) ≠ Terminated → inv_threads (PostT_locked c cb s).
Proof.
  intros Ha I. unfold PostT_locked.
  destruct (start_if_stopped_threads _ Ha I) as [I1 R1].
  destruct (life (start_if_stopped (make_promise s))) eqn:Hl; [|done|].
  - intros _. eapply (inv_threads_push (start_if_stopped (make_promise s)));
      [by apply R1|by apply R1|done..|by apply I1].
  - intros _. by apply I1.
Qed.

Lemma Stop_locked_threads c d s :
  inv_threads s → inv_threads (Stop_locked c d s).
Proof.
  intros I. unfold Stop_locked. destruct (running_ s) eqn:Hr; cbn.
  - destruct (it_running _ I Hr) as (w & pc & Hw & Hpc & Hlive).
    split; cbn; try apply I; [done|].
    intros w' Hw' Hd. congruence.
  - by eapply inv_threads_frame, I.
Qed.

Lemma call_step_threads c f s :
  life s = Alive → inv_threads s →
  life (call_step c f s) ≠ Terminated → inv_threads (call_step c f s).
Proof.
  intros Ha I. destruct f; cbn.
  - by apply StartUnlocked_threads.
  - intros _. by apply Stop_locked_threads.
  - by apply Post_locked_threads.
  - by apply PostT_locked_threads.
  - intros _. by eapply inv_threads_frame, I.
  - done.
  - intros _. by apply Stop_locked_threads.
Qed.

Lemma resume_step_threads c pc s s' :
  resume_step c pc s = Some s' → inv_threads s →
  life s' ≠ Terminated → inv_threads s'.
Proof.
  intros H I. destruct pc; cbn in H; simplify_eq.
  - intros _. by eapply inv_threads_frame, I.
  - destruct (worker_thread_ s); simplify_eq; intros _; by eapply inv_threads_frame, I.
  - destruct (worker_thread_ s) as [w|] eqn:Hw.
    + destruct (threads s !! w) as [[]|] eqn:Hpc; simplify_eq. intros _.
      assert (Hno : ∀ w' pc', threads s !! w' = Some pc' → pc' = WDone).
      { intros w' pc' Hl. destruct (decide (pc' = WDone)) as [|Hne]; [done|].
        pose proof (it_unique _ I _ _ Hl Hne). congruence. }
      destruct (it_done _ I _ Hw Hpc) as [Hq Hr].
      split; cbn; try done.
      * intros w' pc' Hl Hne. by apply Hno in Hl.
      * congruence.
    + destruct dtor; simplify_eq; [done|]. intros _. by eapply inv_threads_frame, I.
  - destruct futures; [|destruct (future_ready _ _)]; simplify_eq;
      intros _; by eapply inv_threads_frame, I.
  - destruct (worker_thread_ s) as [w|] eqn:Hw; simplify_eq; [done|]. intros _.
    split; cbn; try apply I; try done.
    congruence.
Qed.

Lemma inv_threads_live_step s s' w pc pc' :
  threads s !! w = Some pc → pc ≠ WDone → pc' ≠ WDone →
  threads s' = <[w := pc']> (threads s) →
  running_ s' = running_ s → worker_thread_ s' = worker_thread_ s →
  inv_threads s → inv_threads s'.
Proof.
  intros Hpc Hl Hl' E4 E1 E3 I.
  pose proof (it_unique _ I _ _ Hpc Hl) as Hw.
  assert (Hlt : w < length (threads s)) by (by eapply lookup_lt_Some).
  split; rewrite ?E1, ?E3, ?E4.
  - intros w1 pc1 H1 Hl1. destruct (decide (w1 = w)) as [->|Hne]; [done|].
    rewrite list_lookup_insert_ne in H1 by done. by eapply it_unique.
  - intros _. exists w, pc'. by rewrite list_lookup_insert_eq.
  - intros w1 Hw1. rewrite length_insert. by apply I.
  - intros w1 Hw1. assert (w1 = w) as -> by congruence.
    rewrite list_lookup_insert_eq by done. congruence.
  - congruence.
Qed.

Lemma inv_threads_exit s s' w :
  threads s !! w = Some WWait →
  running_ s = false → callbacks_ s = [] →
  threads s' = <[w := WDone]> (threads s) → callbacks_ s' = callbacks_ s →
  running_ s' = running_ s → worker_thread_ s' = worker_thread_ s →
  inv_threads s → inv_threads s'.
Proof.
  intros Hpc Hr Hq E4 E2 E1 E3 I.
  assert (Hw : worker_thread_ s = Some w) by (by eapply it_unique).
  split; rewrite ?E1, ?E2, ?E3, ?E4.
  - intros w1 pc1 H1 Hl1. destruct (decide (w1 = w)) as [->|Hne]; [done|].
    rewrite list_lookup_insert_ne in H1 by done. by eapply it_unique.
  - congruence.
  - intros w1 Hw1. rewrite length_insert. by apply I.
  - done.
  - congruence.
Qed.

Lemma inner_loop_threads w pc s :
  threads s !! w = Some pc → pc ≠ WDone →
  inv_threads s → inv_threads (inner_loop w s).
Proof.
  intros Hpc Hl I. unfold inner_loop.
  destruct (callbacks_ s) as [|t q].
  - by eapply (inv_threads_live_step s _ w pc WWait).
  - by eapply (inv_threads_live_step s _ w pc (WExec t)).
Qed.

Lemma WorkerLoop_step_threads w pc s s' :
  threads s !! w = Some pc → WorkerLoop_step w pc s = Some s' →
  inv_threads s → life s' ≠ Terminated → inv_threads s'.
Proof.
  intros Hpc H I. destruct pc; cbn in H.
  - destruct (negb (empty (callbacks_ s)) || negb (running_ s)) eqn:Hg; [|done].
    destruct (negb (running_ s) && empty (callbacks_ s)) eqn:Hb; simplify_eq; intros _.
    + apply andb_prop in Hb as [Hr Hq]. apply negb_true_iff in Hr.
      destruct (callbacks_ s) eqn:Hc; [|done].
      by eapply inv_threads_exit, I.
    + by eapply inner_loop_threads.
  - destruct (run_task t _) as [[st log] [?|?]]; simplify_eq; [|done].
    intros _. by eapply (inv_threads_live_step s _ w (WExec t) WRelock).
  - simplify_eq. intros _. by eapply inner_loop_threads.
  - done.
Qed.

Lemma step_threads l s s' :
  step l s = Some s' → inv_threads s → life s' ≠ Terminated → inv_threads s'.
Proof.
  unfold step. intros H I. destruct (life s) eqn:Ha; [|done..].
  destruct l as [w|c f|c]; simplify_option_eq.
  - by eapply WorkerLoop_step_threads.
  - destruct (callers s !! c) as [[]|]; simplify_eq. by apply call_step_threads.
  - by eapply resume_step_threads.
Qed.

(** ** The queue and the logs *)

Lemma executing_eq s w pc :
  worker_thread_ s = Some w → threads s !! w = Some pc →
  executing s = match pc with WExec t => [t] | _ => [] end.
Proof. unfold executing. by intros -> ->. Qed.

Lemma executing_frame s s' :
  worker_thread_ s' = worker_thread_ s → threads s' = threads s →
  executing s' = executing s.
Proof. unfold executing. by intros -> ->. Qed.

Lemma inv_logs_frame s s' :
  enq_log s' = enq_log s → deq_log s' = deq_log s → ran_log s' = ran_log s →
  callbacks_ s' = callbacks_ s → executing s' = executing s →
  inv_logs s → inv_logs s'.
Proof. intros E1 E2 E3 E4 E5 []. split; congruence. Qed.

Lemma StartUnlocked_executing s :
  inv_threads s → executing (StartUnlocked s) = executing s.
Proof.
  intros I. unfold StartUnlocked, executing.
  destruct (running_ s); [done|]. cbn.
  destruct (worker_thread_ s) as [w|] eqn:Hw; cbn.
  - rewrite Hw. by rewrite lookup_app_l by (by apply I).
  - by rewrite lookup_app_r, Nat.sub_diag.
Qed.

Lemma StartUnlocked_logs s :
  inv_threads s → inv_logs s → inv_logs (StartUnlocked s).
Proof.
  intros I L. eapply inv_logs_frame, L; try by apply StartUnlocked_executing.
  all: unfold StartUnlocked; destruct (running_ s); [done|];
    cbn; by destruct (worker_thread_ s).
Qed.

Lemma inv_logs_push t s s' :
  enq_log s' = enq_log s ++ [t] → callbacks_ s' = callbacks_ s ++ [t] →
  deq_log s' = deq_log s → ran_log s' = ran_log s → executing s' = executing s →
  inv_logs s → inv_logs s'.
Proof.
  intros E1 E2 E3 E4 E5 []. split; rewrite ?E1, ?E2, ?E3, ?E4, ?E5; [|done].
  rewrite il_enq0. by rewrite (assoc (++)).
Qed.

Lemma start_if_stopped_logs s :
  inv_threads s → inv_logs s → inv_logs (start_if_stopped (make_promise s)).
Proof.
  intros I L. unfold start_if_stopped.
  assert (I0 : inv_threads (make_promise s)) by (by eapply inv_threads_frame, I).
  assert (L0 : inv_logs (make_promise s)) by (by eapply inv_logs_frame, L).
  destruct (running_ (make_promise s)); [done|]. by apply StartUnlocked_logs.
Qed.

Lemma Post_locked_logs c cb s :
  inv_threads s → inv_logs s → inv_logs (Post_locked c cb s).
Proof.
  intros I L. unfold Post_locked.
  pose proof (start_if_stopped_logs _ I L) as L1.
  destruct (life _); [|done..].
  by eapply inv_logs_push, L1.
Qed.

Lemma PostT_locked_logs c cb s :
  inv_threads s → inv_logs s → inv_logs (PostT_locked c cb s).
Proof.
  intros I L. unfold PostT_locked.
  pose proof (start_if_stopped_logs _ I L) as L1.
  destruct (life _); [|done..].
  by eapply inv_logs_push, L1.
Qed.

Lemma Stop_locked_logs c d s : inv_logs s → inv_logs (Stop_locked c d s).
Proof.
  intros L. unfold Stop_locked. destruct (running_ s); by eapply inv_logs_frame, L.
Qed.

Lemma call_step_logs c f s :
  inv_threads s → inv_logs s → inv_logs (call_step c f s).
Proof.
  intros I L. destruct f; cbn.
  - by apply StartUnlocked_logs.
  - by apply Stop_locked_logs.
  - by apply Post_locked_logs.
  - by apply PostT_locked_logs.
  - by eapply inv_logs_frame, L.
  - done.
  - by apply Stop_locked_logs.
Qed.

Lemma resume_step_logs c pc s s' :
  resume_step c pc s = Some s' → inv_threads s → inv_logs s → inv_logs s'.
Proof.
  intros H I L. destruct pc; cbn in H; simplify_eq.
  - by eapply inv_logs_frame, L.
  - destruct (worker_thread_ s); simplify_eq; by eapply inv_logs_frame, L.
  - destruct (worker_thread_ s) as [w|] eqn:Hw.
    + destruct (threads s !! w) as [[]|] eqn:Hpc; simplify_eq.
      eapply inv_logs_frame, L; try done.
      by rewrite (executing_eq s w WDone).
    + destruct dtor; simplify_eq; by eapply inv_logs_frame, L.
  - destruct futures; [|destruct (future_ready _ _)]; simplify_eq;
      by eapply inv_logs_frame, L.
  - destruct (worker_thread_ s) as [w|] eqn:Hw; simplify_eq.
    + by eapply inv_logs_frame, L.
    + eapply inv_logs_frame, L; try done. cbn. symmetry. by apply I.
Qed.

Lemma inner_loop_logs w pc s :
  threads s !! w = Some pc → pc = WWait ∨ pc = WRelock →
  inv_threads s → inv_logs s → inv_logs (inner_loop w s).
Proof.
  intros Hpc Hor I L.
  assert (Hw : worker_thread_ s = Some w).
  { eapply it_unique; [done..|]. by destruct Hor as [-> | ->]. }
  assert (Hlt : w < length (threads s)) by (by eapply lookup_lt_Some).
  assert (He : executing s = []).
  { rewrite (executing_eq s w pc) by done. by destruct Hor as [-> | ->]. }
  destruct L as [L1 L2]. rewrite He, (right_id_L [] (++)) in L2.
  unfold inner_loop. destruct (callbacks_ s) as [|t q] eqn:Hq.
  - split; cbn; rewrite ?Hq; [done|].
    rewrite (executing_eq _ w WWait); cbn; [by rewrite (right_id_L [] (++))|done|].
    by rewrite list_lookup_insert_eq.
  - split; cbn.
    + rewrite L1. by rewrite <-(assoc (++)).
    + rewrite (executing_eq _ w (WExec t)); cbn; [by rewrite L2|done|].
      by rewrite list_lookup_insert_eq.
Qed.

Lemma WorkerLoop_step_logs w pc s s' :
  threads s !! w = Some pc → WorkerLoop_step w pc s = Some s' →
  inv_threads s → inv_logs s → inv_logs s'.
Proof.
  intros Hpc H I L.
  assert (Hlt : w < length (threads s)) by (by eapply lookup_lt_Some).
  destruct pc; cbn in H.
  - destruct (negb (empty (callbacks_ s)) || negb (running_ s)) eqn:Hg; [|done].
    destruct (negb (running_ s) && empty (callbacks_ s)) eqn:Hb; simplify_eq.
    + assert (Hw : worker_thread_ s = Some w) by (by eapply it_unique).
      eapply inv_logs_frame, L; try done.
      rewrite (executing_eq s w WWait), (executing_eq _ w WDone); try done.
      cbn. by rewrite list_lookup_insert_eq.
    + eapply inner_loop_logs; eauto.
  - assert (Hw : worker_thread_ s = Some w) by (by eapply it_unique).
    destruct L as [L1 L2]. rewrite (executing_eq s w (WExec t)) in L2 by done.
    destruct (run_task t _) as [[st log] [?|?]]; simplify_eq.
    + split; cbn; [done|].
      rewrite (executing_eq _ w WRelock); cbn; [by rewrite (right_id_L [] (++))|done|].
      by rewrite list_lookup_insert_eq.
    + split; cbn; [done|]. by rewrite (executing_eq _ w (WExec t)).
  - simplify_eq. eapply inner_loop_logs; eauto.
  - done.
Qed.

Lemma step_logs l s s' :
  step l s = Some s' → inv_threads s → inv_logs s → inv_logs s'.
Proof.
  unfold step. intros H I L. destruct (life s) eqn:Ha; [|done..].
  destruct l as [w|c f|c]; simplify_option_eq.
  - by eapply WorkerLoop_step_logs.
  - destruct (callers s !! c) as [[]|]; simplify_eq. by apply call_step_logs.
  - by eapply resume_step_logs.
Qed.

(** ** The wrappers and the promises *)

Lemma set_value_pending p v st log :
  st !! p = Some Pending →
  set_value p v (st, log) = ((<[p := Ready v]> st, log ++ [(p, SetValue)]), inl ()).
Proof. unfold set_value. by intros ->. Qed.

Lemma set_exception_pending p e st log :
  st !! p = Some Pending →
  set_exception p e (st, log) = ((<[p := Failed e]> st, log ++ [(p, SetException)]), inl ()).
Proof. unfold set_exception. by intros ->. Qed.

Lemma run_task_pending t st log :
  task_pending st t → NoDup (task_handles t) →
  run_task t (st, log) = ((store_after t st, log ++ task_ops t), inl ()).
Proof.
  intros Hp Hnd. destruct t as [cb p|cb p vp].
  - assert (Hpp : st !! p = Some Pending) by (apply Hp; set_solver).
    destruct cb as [v|e];
      unfold run_task, try_catch, mbind, Exc_bind, invoke, mret, Exc_ret, throw.
    + by rewrite set_value_pending.
    + by rewrite set_exception_pending.
  - assert (Hpp : st !! p = Some Pending) by (apply Hp; set_solver).
    assert (Hvp : st !! vp = Some Pending) by (apply Hp; set_solver).
    assert (Hne : p ≠ vp).
    { cbn in Hnd. apply NoDup_cons in Hnd as [Hn _]. set_solver. }
    destruct cb as [v|e];
      unfold run_task, try_catch, mbind, Exc_bind, invoke, mret, Exc_ret, throw.
    + rewrite set_value_pending by done.
      rewrite set_value_pending by (by rewrite list_lookup_insert_ne).
      cbn. by rewrite <-(assoc (++)).
    + rewrite set_exception_pending by done.
      rewrite set_exception_pending by (by rewrite list_lookup_insert_ne).
      cbn. by rewrite <-(assoc (++)).
Qed.

Lemma store_after_length t st : length (store_after t st) = length st.
Proof. destruct t; cbn; by rewrite ?length_insert. Qed.

Lemma store_after_other t st h :
  h ∉ task_handles t → store_after t st !! h = st !! h.
Proof.
  destruct t; cbn; intros Hn.
  - rewrite list_lookup_insert_ne; [done|set_solver].
  - rewrite !list_lookup_insert_ne; [done|set_solver..].
Qed.

Lemma store_after_settled t st :
  task_pending st t → NoDup (task_handles t) → task_settled (store_after t st) t.
Proof.
  intros Hp Hnd. destruct t as [cb p|cb p vp]; cbn.
  - assert (Hpp : st !! p = Some Pending) by (apply Hp; set_solver).
    apply list_lookup_insert_eq. by eapply lookup_lt_Some.
  - assert (Hpp : st !! p = Some Pending) by (apply Hp; set_solver).
    assert (Hvp : st !! vp = Some Pending) by (apply Hp; set_solver).
    assert (Hne : p ≠ vp).
    { cbn in Hnd. apply NoDup_cons in Hnd as [Hn _]. set_solver. }
    split.
    + rewrite list_lookup_insert_ne by done.
      apply list_lookup_insert_eq. by eapply lookup_lt_Some.
    + apply list_lookup_insert_eq. rewrite length_insert. by eapply lookup_lt_Some.
Qed.

Lemma task_settled_agree t st st' :
  (∀ h, h ∈ task_handles t → st' !! h = st !! h) →
  task_settled st t → task_settled st' t.
Proof.
  intros Hag. destruct t; cbn; rewrite !Hag; set_solver.
Qed.

Lemma task_pending_agree t st st' :
  (∀ h, h ∈ task_handles t → st' !! h = st !! h) →
  task_pending st t → task_pending st' t.
Proof. intros Hag Hp h Hh. rewrite Hag by done. by apply Hp. Qed.

Lemma inv_promises_frame s s' :
  enq_log s' = enq_log s → ran_log s' = ran_log s → op_log s' = op_log s →
  shared_states s' = shared_states s →
  executing s' ++ callbacks_ s' ⊆ executing s ++ callbacks_ s →
  pending_futures_ s' ⊆ pending_futures_ s →
  inv_promises s → inv_promises s'.
Proof.
  intros E1 E2 E3 E4 E5 E6 []. split; rewrite ?E1, ?E2, ?E3, ?E4; try done.
  - intros t Ht. apply ip_pending0. by apply E5.
  - intros h Hh. apply ip_registry0. by apply E6.
Qed.

Lemma inv_promises_alloc s s' c :
  enq_log s' = enq_log s → ran_log s' = ran_log s → op_log s' = op_log s →
  shared_states s' = shared_states s ++ [c] →
  executing s' ++ callbacks_ s' ⊆ executing s ++ callbacks_ s →
  pending_futures_ s' ⊆ pending_futures_ s →
  inv_promises s → inv_logs s → inv_promises s'.
Proof.
  intros E1 E2 E3 E4 E5 E6 [] [L1 L2].
  assert (Hag : ∀ t, t ∈ enq_log s → ∀ h, h ∈ task_handles t →
    (shared_states s ++ [c]) !! h = shared_states s !! h).
  { intros t Ht h Hh. apply lookup_app_l. by eapply ip_bound0. }
  split; rewrite ?E1, ?E2, ?E3, ?E4; try done.
  - intros t h Ht Hh. rewrite length_app. cbn.
    pose proof (ip_bound0 t h Ht Hh). lia.
  - intros t Ht. eapply task_settled_agree, ip_ran0; [|done].
    apply Hag. rewrite L1, L2, !elem_of_app. auto.
  - intros t Ht. apply E5 in Ht.
    eapply task_pending_agree, ip_pending0; [|done].
    apply Hag. rewrite L1, L2.
    apply elem_of_app in Ht as [?|?]; rewrite !elem_of_app; auto.
  - intros h Hh. apply ip_registry0. by apply E6.
Qed.

Lemma StartUnlocked_promises s :
  inv_threads s → inv_promises s → inv_promises (StartUnlocked s).
Proof.
  intros I P.
  eapply inv_promises_frame, P; try (rewrite StartUnlocked_executing by done).
  all: unfold StartUnlocked; destruct (running_ s); [done|];
    cbn; by destruct (worker_thread_ s).
Qed.

Lemma inv_promises_push t s s' :
  enq_log s' = enq_log s ++ [t] → callbacks_ s' = callbacks_ s ++ [t] →
  ran_log s' = ran_log s → op_log s' = op_log s →
  shared_states s' = shared_states s → executing s' = executing s →
  pending_futures_ s' = pending_futures_ s ++ [registered t] →
  NoDup (task_handles t) →
  (∀ h, h ∈ task_handles t → h < length (shared_states s)) →
  (∀ t' h, t' ∈ enq_log s → h ∈ task_handles t' → h ∉ task_handles t) →
  task_pending (shared_states s) t →
  inv_promises s → inv_promises s'.
Proof.
  intros E1 E2 E3 E4 E5 E6 Hreg Hnd Hb Hfresh Hp [].
  split; rewrite ?E1, ?E2, ?E3, ?E4, ?E5, ?E6; try done.
  - rewrite bind_app. cbn. rewrite (right_id_L [] (++)).
    apply NoDup_app. split_and!; [done| |done].
    intros h Hh. apply list_elem_of_bind in Hh as (t' & Hh & Ht'). by eapply Hfresh.
  - intros t' h Ht' Hh. apply elem_of_app in Ht' as [Ht'|Ht'].
    + by eapply ip_bound0.
    + apply list_elem_of_singleton in Ht' as ->. by apply Hb.
  - intros t' Ht'. rewrite (assoc (++)) in Ht'.
    apply elem_of_app in Ht' as [Ht'|Ht'].
    + by apply ip_pending0.
    + by apply list_elem_of_singleton in Ht' as ->.
  - rewrite Hreg. intros h [Hh| ->%list_elem_of_singleton]%elem_of_app.
    + destruct (ip_registry0 h Hh) as (t' & Ht' & <-).
      exists t'. split; [|done]. apply elem_of_app. by left.
    + exists t. split; [|done]. apply elem_of_app. right. by apply list_elem_of_singleton.
Qed.

Lemma elem_of_two {A} (x a b : A) : x ∈ [a; b] → x = a ∨ x = b.
Proof.
  intros [->|H]%elem_of_cons; [by left|].
  apply list_elem_of_singleton in H. by right.
Qed.

Lemma StartUnlocked_fields s :
  shared_states (StartUnlocked s) = shared_states s ∧
  enq_log (StartUnlocked s) = enq_log s ∧
  pending_futures_ (StartUnlocked s) = pending_futures_ s ∧
  callbacks_ (StartUnlocked s) = callbacks_ s ∧
  callers (StartUnlocked s) = callers s.
Proof.
  unfold StartUnlocked. destruct (running_ s); [done|].
  cbn. by destruct (worker_thread_ s).
Qed.

Lemma start_if_stopped_fields s :
  shared_states (start_if_stopped s) = shared_states s ∧
  enq_log (start_if_stopped s) = enq_log s ∧
  pending_futures_ (start_if_stopped s) = pending_futures_ s ∧
  callbacks_ (start_if_stopped s) = callbacks_ s ∧
  callers (start_if_stopped s) = callers s.
Proof.
  unfold start_if_stopped. destruct (running_ s); [done|]. apply StartUnlocked_fields.
Qed.

Lemma start_if_stopped_promises s :
  inv_threads s → inv_logs s → inv_promises s →
  inv_promises (start_if_stopped (make_promise s)).
Proof.
  intros I L P. unfold start_if_stopped.
  assert (I0 : inv_threads (make_promise s)) by (by eapply inv_threads_frame, I).
  assert (P0 : inv_promises (make_promise s)) by (by eapply inv_promises_alloc, L).
  destruct (running_ (make_promise s)); [done|]. by apply StartUnlocked_promises.
Qed.

Lemma Post_locked_promises c cb s :
  inv_threads s → inv_logs s → inv_promises s → inv_promises (Post_locked c cb s).
Proof.
  intros I L P. unfold Post_locked.
  pose proof (start_if_stopped_promises _ I L P) as P1.
  destruct (start_if_stopped_fields (make_promise s)) as (F1 & F2 & F3 & F4 & F5).
  set (s1 := start_if_stopped (make_promise s)) in *. cbn in F1, F2, F3, F4.
  destruct (life s1); [|done..].
  eapply (inv_promises_push (Untyped cb (length (shared_states s)))), P1; try done; cbn.
  - apply NoDup_singleton.
  - intros h ->%list_elem_of_singleton. rewrite F1, length_app. cbn. lia.
  - intros t' h Ht' Hh ->%list_elem_of_singleton. rewrite F2 in Ht'.
    pose proof (ip_bound _ P _ _ Ht' Hh). lia.
  - intros h ->%list_elem_of_singleton. rewrite F1.
    by rewrite lookup_app_r, Nat.sub_diag.
Qed.

Lemma PostT_locked_promises c cb s :
  inv_threads s → inv_logs s → inv_promises s → inv_promises (PostT_locked c cb s).
Proof.
  intros I L P. unfold PostT_locked.
  pose proof (start_if_stopped_promises _ I L P) as P1.
  pose proof (start_if_stopped_logs _ I L) as L1.
  destruct (start_if_stopped_fields (make_promise s)) as (F1 & F2 & F3 & F4 & F5).
  set (s1 := start_if_stopped (make_promise s)) in *. cbn in F1, F2, F3, F4.
  destruct (life s1); [|done..].
  assert (P2 : inv_promises (make_promise s1)) by (by eapply inv_promises_alloc, L1).
  eapply (inv_promises_push
            (Typed cb (length (shared_states s)) (length (shared_states s1)))), P2;
    try done; cbn; rewrite F1, !length_app; cbn.
  - apply NoDup_cons. split; [|apply NoDup_singleton].
    intros ?%list_elem_of_singleton. lia.
  - intros h [->| ->]%elem_of_two; lia.
  - intros t' h Ht' Hh Hin. rewrite F2 in Ht'.
    pose proof (ip_bound _ P _ _ Ht' Hh).
    apply elem_of_two in Hin as [->| ->]; lia.
  - intros h [->| ->]%elem_of_two.
    + rewrite lookup_app_l by (rewrite length_app; cbn; lia).
      by rewrite lookup_app_r, Nat.sub_diag.
    + rewrite lookup_app_r by (rewrite length_app; cbn; lia).
      rewrite length_app. cbn.
      by replace (_ - _) with 0 by lia.
Qed.

Lemma Stop_locked_promises c d s : inv_promises s → inv_promises (Stop_locked c d s).
Proof.
  intros P. unfold Stop_locked. destruct (running_ s); by eapply inv_promises_frame, P.
Qed.

Lemma call_step_promises c f s :
  inv_threads s → inv_logs s → inv_promises s → inv_promises (call_step c f s).
Proof.
  intros I L P. destruct f; cbn.
  - by apply StartUnlocked_promises.
  - by apply Stop_locked_promises.
  - by apply Post_locked_promises.
  - by apply PostT_locked_promises.
  - eapply inv_promises_frame, P; try done. cbn. apply list_subseteq_nil.
  - done.
  - by apply Stop_locked_promises.
Qed.

Lemma resume_step_promises c pc s s' :
  resume_step c pc s = Some s' → inv_threads s → inv_promises s → inv_promises s'.
Proof.
  intros H I P. destruct pc; cbn in H; simplify_eq.
  - by eapply inv_promises_frame, P.
  - destruct (worker_thread_ s); simplify_eq; by eapply inv_promises_frame, P.
  - destruct (worker_thread_ s) as [w|] eqn:Hw.
    + destruct (threads s !! w) as [[]|] eqn:Hpc; simplify_eq.
      eapply inv_promises_frame, P; try done.
      by rewrite (executing_eq s w WDone).
    + destruct dtor; simplify_eq; by eapply inv_promises_frame, P.
  - destruct futures; [|destruct (future_ready _ _)]; simplify_eq;
      by eapply inv_promises_frame, P.
  - destruct (worker_thread_ s) as [w|] eqn:Hw; simplify_eq.
    + by eapply inv_promises_frame, P.
    + eapply inv_promises_frame, P; try done; cbn.
      * unfold executing. cbn. rewrite Hw. apply list_subseteq_nil.
      * apply list_subseteq_nil.
Qed.

Lemma inner_loop_promises w pc s :
  threads s !! w = Some pc → pc = WWait ∨ pc = WRelock →
  inv_threads s → inv_promises s → inv_promises (inner_loop w s).
Proof.
  intros Hpc Hor I P.
  assert (Hw : worker_thread_ s = Some w).
  { eapply it_unique; [done..|]. by destruct Hor as [-> | ->]. }
  assert (Hlt : w < length (threads s)) by (by eapply lookup_lt_Some).
  assert (He : executing s = []).
  { rewrite (executing_eq s w pc) by done. by destruct Hor as [-> | ->]. }
  unfold inner_loop. destruct (callbacks_ s) as [|t q] eqn:Hq.
  - eapply inv_promises_frame, P; try done.
    rewrite (executing_eq _ w WWait); [|done|by apply list_lookup_insert_eq].
    cbn. rewrite Hq. apply list_subseteq_nil.
  - eapply inv_promises_frame, P; try done.
    rewrite (executing_eq _ w (WExec t)); [|done|by apply list_lookup_insert_eq].
    by rewrite He, Hq.
Qed.

Lemma exec_promises w t s :
  threads s !! w = Some (WExec t) →
  inv_threads s → inv_logs s → inv_promises s →
  task_pending (shared_states s) t ∧ NoDup (task_handles t) ∧
  inv_promises
    (set_thread w WRelock
       (set_ran_log (ran_log s ++ [t])
          (set_op_log (op_log s ++ task_ops t)
             (set_shared_states (store_after t (shared_states s)) s)))).
Proof.
  intros Hpc I [L1 L2] P.
  assert (Hw : worker_thread_ s = Some w) by (by eapply it_unique).
  assert (Hlt : w < length (threads s)) by (by eapply lookup_lt_Some).
  assert (He : executing s = [t]) by (by rewrite (executing_eq s w (WExec t))).
  rewrite He in L2. rewrite L2 in L1.
  pose proof (ip_nodup _ P) as Hnd. rewrite L1, !bind_app, bind_singleton in Hnd.
  apply NoDup_app in Hnd as (Hnd1 & Hd1 & Hnd2).
  apply NoDup_app in Hnd1 as (Hnd0 & Hd0 & Hndt).
  assert (Hp : task_pending (shared_states s) t).
  { apply (ip_pending _ P). rewrite He. set_solver. }
  split_and!; [done..|].
  destruct P. split; cbn.
  - done.
  - intros t' h Ht' Hh. rewrite store_after_length. by eapply ip_bound0.
  - intros t' [Ht'| ->%list_elem_of_singleton]%elem_of_app.
    + eapply task_settled_agree, ip_ran0; [|done].
      intros h Hh. apply store_after_other. apply Hd0.
      apply list_elem_of_bind. eauto.
    + by apply store_after_settled.
  - rewrite (executing_eq _ w WRelock); [|done|by apply list_lookup_insert_eq].
    cbn. intros t' Ht'. eapply task_pending_agree.
    + intros h Hh. apply store_after_other. intros Hin.
      eapply Hd1; [|apply list_elem_of_bind; eauto].
      apply elem_of_app. by right.
    + apply ip_pending0. rewrite elem_of_app. by right.
  - rewrite ip_ops0. by rewrite bind_app, bind_singleton.
  - done.
Qed.

Lemma WorkerLoop_step_promises w pc s s' :
  threads s !! w = Some pc → WorkerLoop_step w pc s = Some s' →
  inv_threads s → inv_logs s → inv_promises s → inv_promises s'.
Proof.
  intros Hpc H I L P.
  assert (Hlt : w < length (threads s)) by (by eapply lookup_lt_Some).
  destruct pc; cbn in H.
  - destruct (negb (empty (callbacks_ s)) || negb (running_ s)) eqn:Hg; [|done].
    destruct (negb (running_ s) && empty (callbacks_ s)) eqn:Hb; simplify_eq.
    + assert (Hw : worker_thread_ s = Some w) by (by eapply it_unique).
      eapply inv_promises_frame, P; try done.
      rewrite (executing_eq s w WWait), (executing_eq _ w WDone); try done.
      cbn. by rewrite list_lookup_insert_eq.
    + eapply inner_loop_promises; eauto.
  - destruct (exec_promises w t s) as (Hp & Hnd & P'); [done..|].
    rewrite run_task_pending in H by done. by simplify_eq.
  - simplify_eq. eapply inner_loop_promises; eauto.
  - done.
Qed.

Lemma step_promises l s s' :
  step l s = Some s' → inv_threads s → inv_logs s → inv_promises s → inv_promises s'.
Proof.
  unfold step. intros H I L P. destruct (life s) eqn:Ha; [|done..].
  destruct l as [w|c f|c]; simplify_option_eq.
  - by eapply WorkerLoop_step_promises.
  - destruct (callers s !! c) as [[]|]; simplify_eq. by apply call_step_promises.
  - by eapply resume_step_promises.
Qed.

(** ** All reachable states satisfy the invariant *)

Lemma inv_init n : inv (init n).
Proof.
  split; [split|split|intros _; split|]; cbn; try done.
  all: try (by intros ? []%elem_of_nil).
  all: try (by intros ?? []%elem_of_nil).
  constructor.
Qed.

Lemma step_alive l s s' : step l s = Some s' → life s = Alive.
Proof. unfold step. by destruct (life s). Qed.

Lemma WorkerLoop_step_not_destroyed w pc s s' :
  WorkerLoop_step w pc s = Some s' → life s = Alive → life s' ≠ Destroyed.
Proof.
  intros Hw Ha. destruct pc; cbn in Hw; repeat case_match; simplify_eq; cbn;
    try congruence.
  all: unfold inner_loop; destruct (callbacks_ s); cbn; congruence.
Qed.

Lemma resume_step_destroyed c pc s s' :
  resume_step c pc s = Some s' → life s = Alive →
  life s' = Destroyed → worker_thread_ s' = None.
Proof.
  intros Hr Ha. destruct pc; cbn in Hr; repeat case_match; simplify_eq; cbn;
    congruence.
Qed.

Lemma step_destroyed l s s' :
  step l s = Some s' → life s' = Destroyed → worker_thread_ s' = None.
Proof.
  unfold step. intros H. destruct (life s) eqn:Ha; [|done..].
  destruct l as [w|c f|c]; simplify_option_eq.
  - intros Hd. by destruct (WorkerLoop_step_not_destroyed _ _ _ _ H Ha).
  - destruct (callers s !! c) as [[]|]; simplify_eq.
    assert (Hs : life (StartUnlocked s) ≠ Destroyed).
    { unfold StartUnlocked. destruct (running_ s); [congruence|].
      cbn. destruct (worker_thread_ s); cbn; congruence. }
    assert (Hp : life (start_if_stopped (make_promise s)) ≠ Destroyed).
    { unfold start_if_stopped. destruct (running_ _); cbn; [congruence|].
      unfold StartUnlocked. destruct (running_ _); cbn; [congruence|].
      destruct (worker_thread_ s); cbn; congruence. }
    destruct f; cbn; unfold Stop_locked, Post_locked, PostT_locked; try congruence.
    + destruct (running_ s); cbn; congruence.
    + destruct (life (start_if_stopped _)) eqn:Hl; cbn; congruence.
    + destruct (life (start_if_stopped _)) eqn:Hl; cbn; congruence.
    + destruct (running_ s); cbn; congruence.
  - by eapply resume_step_destroyed.
Qed.

Lemma step_inv l s s' : step l s = Some s' → inv s → inv s'.
Proof.
  intros H [L P T D].
  assert (I : inv_threads s).
  { apply T. by rewrite (step_alive _ _ _ H). }
  split.
  - by eapply step_logs.
  - by eapply step_promises.
  - by eapply step_threads.
  - by eapply step_destroyed.
Qed.

Lemma run_inv sched s s' : run sched s = Some s' → inv s → inv s'.
Proof.
  revert s. induction sched as [|l sched IH]; intros s H I; simplify_option_eq; [done|].
  eapply IH; [done|]. by eapply step_inv.
Qed.

Lemma reachable_inv n s : reachable n s → inv s.
Proof. intros [sched H]. eapply run_inv; [done|]. apply inv_init. Qed.

(** ** What a step leaves alone *)

Lemma WorkerLoop_step_callers w pc s s' :
  WorkerLoop_step w pc s = Some s' → callers s' = callers s.
Proof.
  destruct pc; cbn; intros H; simplify_eq.
  - repeat case_match; simplify_eq; try done.
    all: unfold inner_loop; by destruct (callbacks_ s).
  - by repeat case_match; simplify_eq.
  - unfold inner_loop; by destruct (callbacks_ s).
Qed.

Lemma call_step_callers c f s c' :
  c' ≠ c → callers (call_step c f s) !! c' = callers s !! c'.
Proof.
  intros Hne.
  assert (Hs : ∀ d, callers (Stop_locked c d s) !! c' = callers s !! c').
  { intros d. unfold Stop_locked.
    destruct (running_ s); cbn; by rewrite list_lookup_insert_ne. }
  destruct f; cbn; try done.
  - by destruct (StartUnlocked_fields s) as (_ & _ & _ & _ & ->).
  - unfold Post_locked.
    destruct (start_if_stopped_fields (make_promise s)) as (_ & _ & _ & _ & F).
    destruct (life _); cbn; rewrite ?F; try done.
    by rewrite list_lookup_insert_ne.
  - unfold PostT_locked.
    destruct (start_if_stopped_fields (make_promise s)) as (_ & _ & _ & _ & F).
    destruct (life _); cbn; rewrite ?F; try done.
    by rewrite list_lookup_insert_ne.
  - by rewrite list_lookup_insert_ne.
Qed.

Lemma resume_step_callers c pc s s' c' :
  resume_step c pc s = Some s' → c' ≠ c → callers s' !! c' = callers s !! c'.
Proof.
  intros H Hne. destruct pc; cbn in H; repeat case_match; simplify_eq; cbn;
    by rewrite ?list_lookup_insert_ne.
Qed.

Lemma step_callers l s s' c :
  step l s = Some s' → label_caller l ≠ Some c → callers s' !! c = callers s !! c.
Proof.
  unfold step. intros H Hl. destruct (life s); [|done..].
  destruct l as [w|c' f|c']; simplify_option_eq.
  - by erewrite WorkerLoop_step_callers.
  - destruct (callers s !! c') as [[]|]; simplify_eq.
    apply call_step_callers. congruence.
  - eapply resume_step_callers; [done|congruence].
Qed.

Lemma resume_step_callers_length c pc s s' :
  resume_step c pc s = Some s' → length (callers s') = length (callers s).
Proof.
  intros H. destruct pc; cbn in H; repeat case_match; simplify_eq; cbn;
    by rewrite ?length_insert.
Qed.

Lemma step_callers_length l s s' :
  step l s = Some s' → length (callers s') = length (callers s).
Proof.
  unfold step. intros H. destruct (life s); [|done..].
  destruct l as [w|c f|c]; simplify_option_eq.
  - by erewrite WorkerLoop_step_callers.
  - destruct (callers s !! c) as [[]|]; simplify_eq.
    destruct f; cbn; unfold Stop_locked, Post_locked, PostT_locked; try done.
    + by destruct (StartUnlocked_fields s) as (_ & _ & _ & _ & ->).
    + destruct (running_ s); cbn; by rewrite length_insert.
    + destruct (start_if_stopped_fields (make_promise s)) as (_ & _ & _ & _ & F).
      destruct (life _); cbn; rewrite ?length_insert, ?F; done.
    + destruct (start_if_stopped_fields (make_promise s)) as (_ & _ & _ & _ & F).
      destruct (life _); cbn; rewrite ?length_insert, ?F; done.
    + by rewrite length_insert.
    + destruct (running_ s); cbn; by rewrite length_insert.
  - by eapply resume_step_callers_length.
Qed.

(** ** The logs only grow, and a settled promise stays as it is *)

Lemma inner_loop_grow w s :
  enq_log (inner_loop w s) = enq_log s ∧ ran_log (inner_loop w s) = ran_log s ∧
  shared_states (inner_loop w s) = shared_states s.
Proof. unfold inner_loop. by destruct (callbacks_ s). Qed.

Lemma set_value_settled p v st log st' log' r h c :
  set_value p v (st, log) = ((st', log'), r) →
  st !! h = Some c → settled c = true → st' !! h = Some c.
Proof.
  unfold set_value. intros H Hh Hc.
  destruct (st !! p) as [[]|] eqn:Hp; simplify_eq; try done.
  destruct (decide (p = h)) as [->|Hne]; [by simplify_eq|].
  by rewrite list_lookup_insert_ne.
Qed.

Lemma set_exception_settled p e st log st' log' r h c :
  set_exception p e (st, log) = ((st', log'), r) →
  st !! h = Some c → settled c = true → st' !! h = Some c.
Proof.
  unfold set_exception. intros H Hh Hc.
  destruct (st !! p) as [[]|] eqn:Hp; simplify_eq; try done.
  destruct (decide (p = h)) as [->|Hne]; [by simplify_eq|].
  by rewrite list_lookup_insert_ne.
Qed.

Lemma run_task_settled t st log st' log' r h c :
  run_task t (st, log) = ((st', log'), r) →
  st !! h = Some c → settled c = true → st' !! h = Some c.
Proof.
  intros H Hh Hc. destruct t as [cb p|cb p vp]; destruct cb as [v|e];
    unfold run_task, try_catch, mbind, Exc_bind, invoke, mret, Exc_ret, throw in H.
  - destruct (set_value p VVoid (st, log)) as [[st1 log1] [[]|e1]] eqn:H1.
    + simplify_eq. by eapply set_value_settled.
    + eapply set_exception_settled; [done| |done]. by eapply set_value_settled.
  - by eapply set_exception_settled.
  - destruct (set_value p v (st, log)) as [[st1 log1] [[]|e1]] eqn:H1.
    + destruct (set_value vp VVoid (st1, log1)) as [[st2 log2] [[]|e2]] eqn:H2.
      * simplify_eq. eapply set_value_settled; [done| |done].
        by eapply set_value_settled.
      * destruct (set_exception p e2 (st2, log2)) as [[st3 log3] [[]|e3]] eqn:H3.
        -- eapply set_exception_settled; [done| |done].
           eapply set_exception_settled; [done| |done].
           eapply set_value_settled; [done| |done].
           by eapply set_value_settled.
        -- simplify_eq. eapply set_exception_settled; [done| |done].
           eapply set_value_settled; [done| |done].
           by eapply set_value_settled.
    + destruct (set_exception p e1 (st1, log1)) as [[st3 log3] [[]|e3]] eqn:H3.
      * eapply set_exception_settled; [done| |done].
        eapply set_exception_settled; [done| |done].
        by eapply set_value_settled.
      * simplify_eq. eapply set_exception_settled; [done| |done].
        by eapply set_value_settled.
  - destruct (set_exception p e (st, log)) as [[st3 log3] [[]|e3]] eqn:H3.
    + eapply set_exception_settled; [done| |done].
      by eapply set_exception_settled.
    + simplify_eq. by eapply set_exception_settled.
Qed.

Lemma start_if_stopped_logs_eq s :
  ran_log (start_if_stopped s) = ran_log s ∧ deq_log (start_if_stopped s) = deq_log s.
Proof.
  unfold start_if_stopped, StartUnlocked. destruct (running_ s); [done|].
  cbn. by destruct (worker_thread_ s).
Qed.

Lemma call_step_grow c f s :
  enq_log s `prefix_of` enq_log (call_step c f s) ∧
  ran_log (call_step c f s) = ran_log s ∧
  shared_states s `prefix_of` shared_states (call_step c f s).
Proof.
  assert (Hs : ∀ d, enq_log s `prefix_of` enq_log (Stop_locked c d s) ∧
    ran_log (Stop_locked c d s) = ran_log s ∧
    shared_states s `prefix_of` shared_states (Stop_locked c d s)).
  { intros d. unfold Stop_locked. by destruct (running_ s). }
  destruct f; cbn; try done.
  - destruct (StartUnlocked_fields s) as (-> & -> & _).
    split_and!; [done| |done].
    unfold StartUnlocked. destruct (running_ s); [done|].
    cbn. by destruct (worker_thread_ s).
  - unfold Post_locked.
    destruct (start_if_stopped_fields (make_promise s)) as (F1 & F2 & _).
    destruct (start_if_stopped_logs_eq (make_promise s)) as [F3 _].
    destruct (life _); cbn; rewrite ?F1, ?F2, ?F3; cbn;
      split_and!; try done; try (by apply prefix_app_r).
  - unfold PostT_locked.
    destruct (start_if_stopped_fields (make_promise s)) as (F1 & F2 & _).
    destruct (start_if_stopped_logs_eq (make_promise s)) as [F3 _].
    destruct (life _); cbn; rewrite ?F1, ?F2, ?F3; cbn;
      split_and!; try done; try (by apply prefix_app_r).
    rewrite <-(assoc (++)). by apply prefix_app_r.
Qed.

Lemma resume_step_grow c pc s s' :
  resume_step c pc s = Some s' →
  enq_log s' = enq_log s ∧ ran_log s' = ran_log s ∧ shared_states s' = shared_states s.
Proof.
  intros H. destruct pc; cbn in H; repeat case_match; by simplify_eq.
Qed.

Lemma WorkerLoop_step_grow w pc s s' :
  WorkerLoop_step w pc s = Some s' →
  enq_log s' = enq_log s ∧ ran_log s `prefix_of` ran_log s' ∧
  length (shared_states s') = length (shared_states s) ∧
  ∀ h c, shared_states s !! h = Some c → settled c = true →
         shared_states s' !! h = Some c.
Proof.
  intros H. destruct pc; cbn in H.
  - repeat case_match; simplify_eq; cbn; try done.
    destruct (inner_loop_grow w s) as (-> & -> & ->). done.
  - destruct (run_task t _) as [[st log] r] eqn:Hr.
    assert (Hlen : length st = length (shared_states s)).
    { destruct t as [cb p|cb p vp]; destruct cb as [v|e];
        unfold run_task, try_catch, mbind, Exc_bind, invoke, mret, Exc_ret, throw,
          set_value, set_exception in Hr;
        repeat (case_match; simplify_eq; rewrite ?length_insert in * ); done. }
    assert (Hst : ∀ h c, shared_states s !! h = Some c → settled c = true →
      st !! h = Some c) by (intros h c; by eapply run_task_settled).
    destruct r; simplify_eq; cbn; split_and!; try done.
    by apply prefix_app_r.
  - simplify_eq. destruct (inner_loop_grow w s) as (-> & -> & ->). done.
  - done.
Qed.

Lemma step_grow l s s' :
  step l s = Some s' →
  enq_log s `prefix_of` enq_log s' ∧ ran_log s `prefix_of` ran_log s' ∧
  length (shared_states s) ≤ length (shared_states s') ∧
  ∀ h c, shared_states s !! h = Some c → settled c = true →
         shared_states s' !! h = Some c.
Proof.
  unfold step. intros H. destruct (life s); [|done..].
  destruct l as [w|c f|c]; simplify_option_eq.
  - destruct (WorkerLoop_step_grow _ _ _ _ H) as (-> & ? & -> & ?). done.
  - destruct (callers s !! c) as [[]|]; simplify_eq.
    destruct (call_step_grow c f s) as (? & -> & Hp). split_and!; try done.
    + by apply prefix_length.
    + intros h k Hh _. by eapply prefix_lookup_Some.
  - destruct (resume_step_grow _ _ _ _ H) as (-> & -> & ->). done.
Qed.

Lemma run_grow sched s s' :
  run sched s = Some s' →
  enq_log s `prefix_of` enq_log s' ∧ ran_log s `prefix_of` ran_log s' ∧
  length (shared_states s) ≤ length (shared_states s') ∧
  ∀ h c, shared_states s !! h = Some c → settled c = true →
         shared_states s' !! h = Some c.
Proof.
  revert s. induction sched as [|l sched IH]; intros s H; simplify_option_eq; [done|].
  destruct (step_grow _ _ _ Heqo) as (E1 & R1 & N1 & S1).
  destruct (IH _ H) as (E2 & R2 & N2 & S2).
  split_and!; [by etrans|by etrans|lia|eauto].
Qed.

Lemma prefix_subseteq {A} (l1 l2 : list A) : l1 `prefix_of` l2 → l1 ⊆ l2.
Proof. intros H x Hx. by eapply elem_of_prefix. Qed.

(** ** Stop() and the queue *)

Lemma drained_joined s w :
  inv_threads s → inv_logs s →
  worker_thread_ s = Some w → threads s !! w = Some WDone →
  enq_log s = ran_log s.
Proof.
  intros I [L1 L2] Hw Hpc. destruct (it_done _ I _ Hw Hpc) as [Hq _].
  rewrite (executing_eq s w WDone) in L2 by done.
  rewrite L1, L2, Hq. by rewrite !(right_id_L [] (++)).
Qed.

Lemma drained_not_joinable s :
  inv_threads s → inv_logs s → worker_thread_ s = None → enq_log s = ran_log s.
Proof.
  intros I [L1 L2] Hw. pose proof (it_none _ I Hw) as Hq.
  unfold executing in L2. rewrite Hw in L2.
  rewrite L1, L2, Hq. by rewrite !(right_id_L [] (++)).
Qed.

Lemma stopped_joined s w :
  inv_threads s → worker_thread_ s = Some w → threads s !! w = Some WDone →
  Stopped (set_worker_thread None s).
Proof. intros I Hw Hpc. destruct (it_done _ I _ Hw Hpc) as [_ Hr]. by split. Qed.

Lemma stopped_not_joinable s :
  inv_threads s → worker_thread_ s = None → Stopped s.
Proof.
  intros I Hw. split; [|done]. destruct (running_ s) eqn:Hr; [|done].
  destruct (it_running _ I Hr) as (w & pc & Hw' & _). congruence.
Qed.

(** Whenever a caller leaves [Stop()] after it cleared [running_], every
    task that was ever pushed has run, and the executor is stopped. *)
Lemma stop_step_drained l s s' c pc pc' :
  inv s → step l s = Some s' →
  callers s !! c = Some pc → in_stop pc = true →
  callers s' !! c = Some pc' → in_stop pc' = false →
  enq_log s' = ran_log s' ∧ Stopped s' ∧ life s' = Alive.
Proof.
  intros [L P T _] H Hc Hin Hc' Hout.
  assert (Ha : life s = Alive) by (by eapply step_alive).
  assert (I : inv_threads s) by (apply T; by rewrite Ha).
  destruct (decide (label_caller l = Some c)) as [Hl|Hl].
  - unfold step in H. rewrite Ha in H.
    destruct l as [w|c0 f|c0]; cbn in Hl; simplify_eq.
    + rewrite Hc in H. by destruct pc.
    + rewrite Hc in H. cbn in H.
      assert (Hlt : c < length (callers s)) by (by eapply lookup_lt_Some).
      destruct pc; try done; cbn in H.
      * destruct (worker_thread_ s) eqn:Hw; simplify_eq; cbn in Hc'.
        -- rewrite list_lookup_insert_eq in Hc' by done. by simplify_eq.
        -- cbn. split_and!; [by apply drained_not_joinable| |done].
           by apply (stopped_not_joinable s).
      * destruct (worker_thread_ s) as [w|] eqn:Hw.
        -- destruct (threads s !! w) as [[]|] eqn:Hpc; simplify_eq. cbn.
           split_and!; [by eapply drained_joined| |done].
           by apply (stopped_joined s w).
        -- destruct dtor; simplify_eq; cbn.
           ++ cbn in Hc'. rewrite Hc in Hc'. by simplify_eq.
           ++ split_and!; [by apply drained_not_joinable| |done].
              by apply (stopped_not_joinable s).
  - rewrite (step_callers _ _ _ _ H Hl) in Hc'. simplify_eq. congruence.
Qed.

Lemma stop_run_drained sched s s' c (L : list task) pc pc' :
  inv s → run sched s = Some s' →
  L ⊆ enq_log s →
  callers s !! c = Some pc →
  (in_stop pc = true ∨ L ⊆ ran_log s) →
  callers s' !! c = Some pc' → in_stop pc' = false →
  L ⊆ ran_log s'.
Proof.
  revert s pc. induction sched as [|l sched IH]; intros s pc I H HL Hc Hor Hc' Hout.
  - simplify_eq/=. destruct Hor as [Hin|]; [congruence|done].
  - cbn in H. destruct (step l s) as [s1|] eqn:Hs; [|done]. cbn in H.
    destruct (step_grow _ _ _ Hs) as (E1 & R1 & _).
    assert (∃ pc1, callers s1 !! c = Some pc1) as [pc1 Hc1].
    { apply lookup_lt_is_Some. rewrite (step_callers_length _ _ _ Hs).
      by eapply lookup_lt_Some. }
    eapply (IH s1 pc1); try done.
    + by eapply step_inv.
    + etrans; [done|]. by apply prefix_subseteq.
    + destruct Hor as [Hin|Hran].
      * destruct (in_stop pc1) eqn:Hin1; [by left|]. right.
        destruct (stop_step_drained _ _ _ _ _ _ I Hs Hc Hin Hc1 Hin1) as [<- _].
        etrans; [done|]. by apply prefix_subseteq.
      * right. etrans; [done|]. by apply prefix_subseteq.
Qed.

(** ** Stop() comes back *)

Lemma run_app a b s : run (a ++ b) s = run a s ≫= run b.
Proof.
  revert s. induction a as [|l a IH]; intros s; [done|].
  cbn. destruct (step l s) as [s1|]; [|done]. cbn. apply IH.
Qed.

Lemma inner_loop_measure w pc s :
  w < length (threads s) → running_ s = false →
  (pc = WWait ∧ callbacks_ s ≠ [] ∨ pc = WRelock) →
  ∃ pc1, threads (inner_loop w s) !! w = Some pc1 ∧
    worker_measure pc1 (callbacks_ (inner_loop w s)) < worker_measure pc (callbacks_ s) ∧
    life (inner_loop w s) = life s ∧ callers (inner_loop w s) = callers s ∧
    worker_thread_ (inner_loop w s) = worker_thread_ s ∧
    running_ (inner_loop w s) = false.
Proof.
  intros Hlt Hr Hpc. unfold inner_loop.
  destruct (callbacks_ s) as [|t q] eqn:Hq; cbn; rewrite ?Hq.
  - exists WWait. rewrite list_lookup_insert_eq by done.
    destruct Hpc as [[_ ?]| ->]; [done|]. cbn. split_and!; try done. lia.
  - exists (WExec t). rewrite list_lookup_insert_eq by done.
    split_and!; try done. destruct Hpc as [[-> _]| ->]; cbn; lia.
Qed.

Lemma worker_progress s w pc :
  inv s → life s = Alive → threads s !! w = Some pc → pc ≠ WDone →
  running_ s = false →
  ∃ s1 pc1, step (Worker w) s = Some s1 ∧ life s1 = Alive ∧
    threads s1 !! w = Some pc1 ∧
    worker_measure pc1 (callbacks_ s1) < worker_measure pc (callbacks_ s) ∧
    callers s1 = callers s ∧ worker_thread_ s1 = worker_thread_ s ∧
    running_ s1 = false.
Proof.
  intros I Ha Hw Hl Hr.
  assert (Hlt : w < length (threads s)) by (by eapply lookup_lt_Some).
  assert (It : inv_threads s) by (apply I; congruence).
  unfold step. rewrite Ha, Hw. cbn. destruct pc; [| | |done]; cbn.
  - rewrite Hr. cbn. rewrite orb_true_r.
    destruct (callbacks_ s) as [|t q] eqn:Hq; cbn.
    + eexists _, WDone. split; [done|]. cbn. rewrite Hq.
      rewrite list_lookup_insert_eq by done. split_and!; try done. cbn. lia.
    + destruct (inner_loop_measure w WWait s Hlt Hr) as (pc1 & H1 & H2 & H3 & H4 & H5 & H6).
      { left. by rewrite Hq. }
      rewrite Hq in H2. eexists _, pc1. split; [done|].
      split_and!; try done. congruence.
  - destruct (exec_promises w t s Hw It (inv_l _ I) (inv_p _ I)) as (Hp & Hnd & _).
    rewrite run_task_pending by done.
    eexists _, WRelock. split; [done|]. cbn.
    rewrite list_lookup_insert_eq by done. split_and!; try done. lia.
  - destruct (inner_loop_measure w WRelock s Hlt Hr) as (pc1 & H1 & H2 & H3 & H4 & H5 & H6);
      [by right|].
    eexists _, pc1. split; [done|]. split_and!; try done. congruence.
Qed.

Lemma worker_drains m s w pc :
  inv s → life s = Alive → threads s !! w = Some pc →
  running_ s = false → worker_measure pc (callbacks_ s) ≤ m →
  ∃ k s', run (replicate k (Worker w)) s = Some s' ∧
    threads s' !! w = Some WDone ∧ life s' = Alive ∧ inv s' ∧
    callers s' = callers s ∧ worker_thread_ s' = worker_thread_ s.
Proof.
  revert s pc. induction m as [|m IH]; intros s pc I Ha Hw Hr Hm.
  - destruct pc; cbn in Hm; try lia. by exists 0, s.
  - destruct (decide (pc = WDone)) as [->|Hl]; [by exists 0, s|].
    destruct (worker_progress s w pc I Ha Hw Hl Hr)
      as (s1 & pc1 & Hs & Ha1 & Hw1 & Hlt & Hc1 & Ht1 & Hr1).
    destruct (IH s1 pc1) as (k & s' & Hrun & ? & ? & ? & Hc' & Ht'); try done.
    { by eapply step_inv. }
    { lia. }
    exists (S k), s'. cbn. rewrite Hs. cbn. split_and!; try done; congruence.
Qed.

(** A [Stop()] that has cleared [running_] can complete: the caller tests
    [joinable()], the worker drains the queue and leaves, the caller joins. *)
Lemma Stop_returns s c d :
  inv s → life s = Alive → running_ s = true → callers s !! c = Some Idle →
  ∃ sched s',
    run sched (Stop_locked c d s) = Some s' ∧
    callers s' !! c = Some (if d then DtorMembers else Idle) ∧
    Stopped s' ∧ life s' = Alive ∧ inv s'.
Proof.
  intros I Ha Hr Hc.
  assert (It : inv_threads s) by (apply I; congruence).
  assert (Hlt : c < length (callers s)) by (by eapply lookup_lt_Some).
  destruct (it_running _ It Hr) as (w & pc & Hw & Hpc & Hl).
  set (s1 := Stop_locked c d s).
  assert (Hs1 : step (Call c (if d then Destroy else Stop)) s = Some s1).
  { unfold step. rewrite Ha, Hc. by destruct d. }
  assert (I1 : inv s1) by (by eapply step_inv).
  assert (E1 : s1 = set_caller c (StopNotify d) (set_running false s)).
  { unfold s1, Stop_locked. by rewrite Hr. }
  set (s2 := set_caller c (StopJoin d) s1).
  assert (Hs2 : step (Resume c) s1 = Some s2).
  { unfold step, s2. rewrite E1. cbn. rewrite Ha, list_lookup_insert_eq by done.
    cbn. by rewrite Hw. }
  assert (I2 : inv s2) by (by eapply step_inv).
  destruct (worker_drains (worker_measure pc (callbacks_ s2)) s2 w pc)
    as (k & s3 & Hrun & Hd & Ha3 & I3 & Hc3 & Hw3); try done.
  { unfold s2. by rewrite E1. }
  { unfold s2. by rewrite E1. }
  { unfold s2. by rewrite E1. }
  assert (Hw3' : worker_thread_ s3 = Some w) by (rewrite Hw3; unfold s2; by rewrite E1).
  assert (Hc3' : callers s3 !! c = Some (StopJoin d)).
  { rewrite Hc3. unfold s2. cbn. apply list_lookup_insert_eq.
    rewrite E1. cbn. by rewrite length_insert. }
  set (s4 := set_caller c (if d then DtorMembers else Idle) (set_worker_thread None s3)).
  assert (Hs4 : step (Resume c) s3 = Some s4).
  { unfold step. rewrite Ha3, Hc3'. cbn. by rewrite Hw3', Hd. }
  exists (Resume c :: replicate k (Worker w) ++ [Resume c]), s4.
  split_and!.
  - cbn. rewrite Hs2. cbn. rewrite run_app, Hrun. cbn. by rewrite Hs4.
  - cbn. apply list_lookup_insert_eq. by eapply lookup_lt_Some.
  - apply (stopped_joined s3 w); [|done..]. apply I3. congruence.
  - done.
  - by eapply step_inv.
Qed.

Lemma destructor_returns s c :
  inv s → life s = Alive → callers s !! c = Some Idle →
  running_ s = true ∨ Stopped s →
  ∃ sched s', run sched (Stop_locked c true s) = Some s' ∧ life s' = Destroyed.
Proof.
  intros I Ha Hc Hor.
  assert (Hd : ∀ s0, life s0 = Alive → callers s0 !! c = Some DtorMembers →
    worker_thread_ s0 = None →
    ∃ s', step (Resume c) s0 = Some s' ∧ life s' = Destroyed).
  { intros s0 Ha0 Hc0 Hw0. eexists. split.
    - unfold step. rewrite Ha0, Hc0. cbn. by rewrite Hw0.
    - done. }
  destruct Hor as [Hr|[Hr Hw]].
  - destruct (Stop_returns s c true I Ha Hr Hc)
      as (sched & s1 & Hrun & Hc1 & [_ Hw1] & Ha1 & _).
    destruct (Hd s1 Ha1 Hc1 Hw1) as (s' & Hs & Hl).
    exists (sched ++ [Resume c]), s'. split; [|done].
    rewrite run_app, Hrun. cbn. by rewrite Hs.
  - destruct (Hd (Stop_locked c true s)) as (s' & Hs & Hl).
    + unfold Stop_locked. by rewrite Hr.
    + unfold Stop_locked. rewrite Hr. cbn. apply list_lookup_insert_eq.
      by eapply lookup_lt_Some.
    + unfold Stop_locked. by rewrite Hr.
    + exists [Resume c], s'. split; [|done]. cbn. by rewrite Hs.
Qed.

(** ** What a Stop() that returned has waited for *)

Lemma worker_exit w pc s s' :
  threads s !! w = Some pc → pc ≠ WDone →
  step (Worker w) s = Some s' → threads s' !! w = Some WDone →
  pc = WWait ∧ running_ s = false ∧ callbacks_ s = [].
Proof.
  intros Hpc Hl H Hd. unfold step in H. destruct (life s); [|done..].
  rewrite Hpc in H. cbn in H.
  assert (Hlt : w < length (threads s)) by (by eapply lookup_lt_Some).
  assert (Hil : threads (inner_loop w s) !! w ≠ Some WDone).
  { unfold inner_loop. destruct (callbacks_ s); cbn;
      by rewrite list_lookup_insert_eq. }
  destruct pc; cbn in H; try done.
  - destruct (negb (empty (callbacks_ s)) || negb (running_ s)); [|done].
    destruct (negb (running_ s) && empty (callbacks_ s)) eqn:Hb; simplify_eq.
    apply andb_prop in Hb as [Hr Hq]. apply negb_true_iff in Hr.
    by destruct (callbacks_ s).
  - destruct (run_task t _) as [[st log] [?|?]]; simplify_eq; cbn in Hd.
    + by rewrite list_lookup_insert_eq in Hd.
    + congruence.
  - by simplify_eq.
Qed.

Lemma executed_of_ran s t : inv s → t ∈ ran_log s → t ∈ deq_log s ∧ executed s t.
Proof.
  intros [[L1 L2] P _ _] Ht. unfold executed. split_and!; [|done|by apply P].
  rewrite L2. apply elem_of_app. by left.
Qed.

Lemma call_Stop_running c s s1 :
  running_ s = true → step (Call c Stop) s = Some s1 →
  callers s1 !! c = Some (StopNotify false) ∧ enq_log s1 = enq_log s ∧
  running_ s1 = false.
Proof.
  intros Hr H. unfold step in H. destruct (life s); [|done..].
  destruct (callers s !! c) as [[]|] eqn:Hc; simplify_eq.
  cbn. unfold Stop_locked. rewrite Hr. cbn. split_and!; [|done..].
  apply list_lookup_insert_eq. by eapply lookup_lt_Some.
Qed.

(** C1, as stated: a [Stop()] that is called while another [Stop()] has
    cleared [running_] and has not joined yet returns at once, with the
    worker in the middle of a task and another task in the queue. *)
Lemma Stop_returns_while_draining : ¬ Stop_waits_for_queued.
Proof.
  intros H.
  destruct (H 2 second_stop st_second_stop 1 st_second_stop [] st_second_stop
              0 (WExec (Untyped ok_task 0)) (Untyped bad_task 1))
    as [Hd _]; try reflexivity; try done.
  - apply list_elem_of_here.
  - vm_compute in Hd. apply elem_of_cons in Hd as [Hd|Hd]; [discriminate|].
    by apply elem_of_nil in Hd.
Qed.

(** C1, amended. The worker loop is left only at the top of the loop, with
    [running_] cleared and [callbacks_] empty; when a call of [Stop()]
    that found [running_] set has returned, every task that was in the
    queue when the call took the lock has been popped and run; and such a
    call can always return: the worker comes to the end of the queue. *)
Theorem Stop_drains_queue :
  (∀ w pcw sa sb,
     threads sa !! w = Some pcw → pcw ≠ WDone →
     step (Worker w) sa = Some sb → threads sb !! w = Some WDone →
     running_ sa = false ∧ callbacks_ sa = []) ∧
  (∀ n sched0 s c s1 sched s2 pc,
     run sched0 (init n) = Some s →
     running_ s = true →
     step (Call c Stop) s = Some s1 →
     run sched s1 = Some s2 →
     callers s2 !! c = Some pc → in_stop pc = false →
     ∀ t, t ∈ callbacks_ s → t ∈ deq_log s2 ∧ executed s2 t) ∧
  (∀ n sched0 s c s1,
     run sched0 (init n) = Some s →
     running_ s = true →
     step (Call c Stop) s = Some s1 →
     ∃ sched' s', run sched' s1 = Some s' ∧ callers s' !! c = Some Idle ∧
       ∀ t, t ∈ callbacks_ s → t ∈ deq_log s' ∧ executed s' t).
Proof.
  assert (Hsafe : ∀ n sched0 s c s1 sched s2 pc,
     run sched0 (init n) = Some s →
     running_ s = true →
     step (Call c Stop) s = Some s1 →
     run sched s1 = Some s2 →
     callers s2 !! c = Some pc → in_stop pc = false →
     ∀ t, t ∈ callbacks_ s → t ∈ deq_log s2 ∧ executed s2 t).
  { intros n sched0 s c s1 sched s2 pc Hreach Hr Hcall Hrun Hc Hout t Ht.
    assert (I : inv s) by (apply (reachable_inv n); by exists sched0).
    assert (I1 : inv s1) by (by eapply step_inv).
    assert (I2 : inv s2) by (by eapply run_inv).
    destruct (call_Stop_running _ _ _ Hr Hcall) as (Hc1 & He1 & _).
    apply executed_of_ran; [done|].
    eapply (stop_run_drained sched s1 s2 c (callbacks_ s)); try done.
    + rewrite He1, (il_enq _ (inv_l _ I)). intros x Hx. apply elem_of_app. by right.
    + by left. }
  split_and!; [|exact Hsafe|].
  - intros w pcw sa sb H1 H2 H3 H4.
    by destruct (worker_exit _ _ _ _ H1 H2 H3 H4) as (_ & ? & ?).
  - intros n sched0 s c s1 Hreach Hr Hcall.
    assert (I : inv s) by (apply (reachable_inv n); by exists sched0).
    pose proof Hcall as Hcall'. unfold step in Hcall'.
    destruct (life s) eqn:Ha; [|done..].
    destruct (callers s !! c) as [[]|] eqn:Hcs; simplify_eq.
    destruct (Stop_returns s c false I Ha Hr Hcs) as (sched' & s' & Hrun & Hc' & _).
    exists sched', s'. split_and!; [done..|].
    by apply (Hsafe n sched0 s c (call_step c Stop s) sched' s' Idle).
Qed.

Lemma Stop_drains_queue_witness :
  (Untyped bad_task 1 ∈ deq_log st_stopped ∧ executed st_stopped (Untyped bad_task 1)) ∧
  ∃ sched' s', run sched' st_stop_called = Some s' ∧ callers s' !! 0 = Some Idle ∧
    ∀ t, t ∈ callbacks_ st_two_posts → t ∈ deq_log s' ∧ executed s' t.
Proof.
  destruct Stop_drains_queue as (_ & Hsafe & Hlive). split.
  - apply (Hsafe 1 two_posts st_two_posts 0 st_stop_called stop_schedule st_stopped Idle);
      try reflexivity.
    apply list_elem_of_further, list_elem_of_here.
  - apply (Hlive 1 two_posts st_two_posts 0 st_stop_called); reflexivity.
Defined.

(** ** One worker at a time *)

Lemma filter_none {A} (P : A → Prop) `{!∀ x, Decision (P x)} (l : list A) :
  (∀ x, x ∈ l → ¬ P x) → filter P l = [].
Proof.
  induction l as [|x l IH]; intros Hn; [done|].
  rewrite filter_cons. destruct (decide (P x)) as [Hx|Hx].
  - destruct (Hn x); [apply list_elem_of_here|done].
  - apply IH. intros y Hy. apply Hn. by apply list_elem_of_further.
Qed.

Lemma filter_length_le_1 {A} (P : A → Prop) `{!∀ x, Decision (P x)} (l : list A) i :
  (∀ j x, l !! j = Some x → P x → j = i) → length (filter P l) ≤ 1.
Proof.
  revert i. induction l as [|x l IH]; intros i Hu; [cbn; lia|].
  rewrite filter_cons. destruct (decide (P x)) as [Hx|Hx]; cbn.
  - assert (Hi : 0 = i) by (by eapply (Hu 0 x)).
    assert (Hl : filter P l = []).
    { apply filter_none. intros y Hy Py.
      apply list_elem_of_lookup in Hy as [j Hj].
      pose proof (Hu (S j) y Hj Py). lia. }
    rewrite Hl. cbn. lia.
  - apply (IH (pred i)). intros j y Hj Py.
    pose proof (Hu (S j) y Hj Py). lia.
Qed.

Lemma single_worker n s :
  reachable n s → life s ≠ Terminated → live_workers s ≤ 1.
Proof.
  intros Hr Hl. destruct (reachable_inv _ _ Hr) as [_ _ T _].
  specialize (T Hl). unfold live_workers.
  destruct (worker_thread_ s) as [w|] eqn:Hw.
  - apply (filter_length_le_1 _ _ w). intros j pc Hj Hpc.
    pose proof (it_unique _ T _ _ Hj Hpc). congruence.
  - apply (filter_length_le_1 _ _ 0). intros j pc Hj Hpc.
    pose proof (it_unique _ T _ _ Hj Hpc). congruence.
Qed.

(** C8. A [Post()] that takes the lock after [Stop()] has cleared
    [running_] and before [Stop()] has joined the worker starts a second
    [WorkerLoop] thread while the first one is still alive, and the
    assignment to the joinable [worker_thread_] calls [std::terminate]. *)
Theorem Post_racing_with_Stop :
  run racing_post (init 2) = Some st_race ∧
  callers st_race !! 0 = Some (StopNotify false) ∧
  threads st_race = [WWait; WWait] ∧
  live_workers st_race = 2 ∧
  life st_race = Terminated.
Proof. by vm_compute. Qed.

(** ** Stop() on a stopped executor, and the life cycle *)

Lemma set_caller_same c pc s : callers s !! c = Some pc → set_caller c pc s = s.
Proof.
  intros H. destruct s. unfold set_caller, set_callers. cbn in *.
  by rewrite list_insert_id.
Qed.

Lemma call_Stop_stopped c s :
  life s = Alive → callers s !! c = Some Idle → running_ s = false →
  step (Call c Stop) s = Some s.
Proof.
  intros Ha Hc Hr. unfold step. rewrite Ha, Hc. cbn.
  unfold Stop_locked. rewrite Hr. cbn. by rewrite set_caller_same.
Qed.

(** C10. [Stop()] on an executor whose [running_] is clear returns from its
    critical section and changes nothing at all; in particular a second
    [Stop()] right after a [Stop()] that joined the worker is a no-op. *)
Theorem Stop_when_stopped :
  (∀ c s,
     life s = Alive → callers s !! c = Some Idle → running_ s = false →
     step (Call c Stop) s = Some s) ∧
  (∀ n s l s' c pc,
     reachable n s → step l s = Some s' →
     callers s !! c = Some pc → in_stop pc = true →
     callers s' !! c = Some Idle →
     running_ s' = false ∧ step (Call c Stop) s' = Some s').
Proof.
  split.
  - apply call_Stop_stopped.
  - intros n s l s' c pc Hr Hs Hc Hin Hc'.
    destruct (stop_step_drained _ _ _ _ _ _ (reachable_inv _ _ Hr) Hs Hc Hin Hc')
      as (_ & [Hrun _] & Ha); [done|].
    split; [done|]. by apply call_Stop_stopped.
Qed.

Lemma Stop_when_stopped_witness :
  step (Call 0 Stop) st_stopped = Some st_stopped ∧
  (running_ st_stopped = false ∧ step (Call 0 Stop) st_stopped = Some st_stopped).
Proof.
  split.
  - apply (proj1 Stop_when_stopped 0 st_stopped); reflexivity.
  - apply (proj2 Stop_when_stopped 1 st_joining (Resume 0) st_stopped 0 (StopJoin false)).
    + exists (two_posts ++ Call 0 Stop :: take 7 stop_schedule). reflexivity.
    + reflexivity.
    + reflexivity.
    + reflexivity.
    + reflexivity.
Defined.





(** ** The destructor *)

Lemma destroyed_drained s :
  inv s → life s = Destroyed →
  enq_log s = ran_log s ∧ callbacks_ s = [] ∧ worker_thread_ s = None ∧
  ∀ w pc, threads s !! w = Some pc → pc = WDone.
Proof.
  intros [L P T D] Hl.
  assert (I : inv_threads s) by (apply T; congruence).
  pose proof (D Hl) as Hw.
  split_and!; [by apply drained_not_joinable|by apply I|done|].
  intros w pc Hpc. destruct (decide (pc = WDone)) as [|Hne]; [done|].
  pose proof (it_unique _ I _ _ Hpc Hne). congruence.
Qed.

(** C9. The destructor is [Stop()] followed by the destruction of the
    members. When it has returned, every task that was in the queue when
    it was called (and every task that was ever pushed) has been popped
    and run, every worker thread has finished and been joined, and the
    queue that was destroyed was empty. While no [Stop()] of another
    thread is under way, the destructor can always return. *)
Theorem destructor_drains n sched0 s c s1 sched s2 :
  run sched0 (init n) = Some s →
  step (Call c Destroy) s = Some s1 →
  run sched s1 = Some s2 →
  life s2 = Destroyed →
  s1 = Stop_locked c true s ∧
  (∀ t, t ∈ callbacks_ s → t ∈ deq_log s2 ∧ executed s2 t) ∧
  enq_log s2 = ran_log s2 ∧
  (∀ w pc, threads s2 !! w = Some pc → pc = WDone) ∧
  worker_thread_ s2 = None ∧
  (∀ sa sb ca,
     reachable n sa → callers sa !! ca = Some DtorMembers →
     step (Resume ca) sa = Some sb → life sb = Destroyed →
     callbacks_ sa = []) ∧
  (running_ s = true ∨ Stopped s →
   ∃ sched' s', run sched' s1 = Some s' ∧ life s' = Destroyed).
Proof.
  intros Hreach Hcall Hrun Hl.
  assert (I : inv s) by (apply (reachable_inv n); by exists sched0).
  assert (I1 : inv s1) by (by eapply step_inv).
  assert (I2 : inv s2) by (by eapply run_inv).
  destruct (destroyed_drained _ I2 Hl) as (He & Hq & Hw & Hth).
  destruct (step_grow _ _ _ Hcall) as (E1 & _).
  destruct (run_grow _ _ _ Hrun) as (E2 & _).
  assert (Hs1 : s1 = Stop_locked c true s ∧ life s = Alive ∧ callers s !! c = Some Idle).
  { unfold step in Hcall. destruct (life s); [|done..].
    destruct (callers s !! c) as [[]|]; by simplify_eq. }
  destruct Hs1 as (Hs1 & Ha & Hcs).
  split_and!; try done.
  - intros t Ht. apply executed_of_ran; [done|]. rewrite <-He.
    eapply elem_of_prefix; [|done]. eapply elem_of_prefix; [|done].
    rewrite (il_enq _ (inv_l _ I)). apply elem_of_app. by right.
  - intros sa sb ca Hra Hca Hs Hlb.
    destruct (reachable_inv _ _ Hra) as [_ _ T _].
    assert (Haa : life sa = Alive) by (by eapply step_alive).
    unfold step in Hs. rewrite Haa, Hca in Hs. cbn in Hs.
    destruct (worker_thread_ sa) eqn:Hwa; simplify_eq.
    apply T; [congruence|done].
  - intros Hor. rewrite Hs1. by apply destructor_returns.
Qed.

Lemma destructor_drains_witness :
  st_dtor_called = Stop_locked 0 true st_two_posts ∧
  (Untyped ok_task 0 ∈ deq_log st_destroyed ∧ executed st_destroyed (Untyped ok_task 0)) ∧
  enq_log st_destroyed = ran_log st_destroyed ∧
  worker_thread_ st_destroyed = None.
Proof.
  destruct (destructor_drains 1 two_posts st_two_posts 0 st_dtor_called
              dtor_schedule st_destroyed) as (H1 & H2 & H3 & _ & H5 & _ & _);
    [reflexivity..|].
  split; [done|]. split; [|by split].
  apply H2. apply list_elem_of_here.
Defined.

(** ** First in, first out *)

Lemma NoDup_bind_inv {A B} (f : A → list B) (l : list A) :
  (∀ x, x ∈ l → f x ≠ []) → NoDup (l ≫= f) → NoDup l.
Proof.
  induction l as [|x l IH]; intros Hne Hnd; [constructor|].
  rewrite bind_cons in Hnd. apply NoDup_app in Hnd as (_ & Hd & Hnd).
  apply NoDup_cons. split.
  - intros Hx. destruct (f x) as [|b bs] eqn:Hf.
    + by apply (Hne x); [apply list_elem_of_here|].
    + apply (Hd b); [apply list_elem_of_here|].
      apply list_elem_of_bind. exists x. rewrite Hf. split; [apply list_elem_of_here|done].
  - apply IH; [|done]. intros y Hy. apply Hne. by apply list_elem_of_further.
Qed.

Lemma NoDup_enq_log s : inv s → NoDup (enq_log s).
Proof.
  intros I. eapply (NoDup_bind_inv task_handles), (ip_nodup _ (inv_p _ I)).
  by intros [] _.
Qed.

Lemma before_prefix {A} (l l1 l2 : list A) x y :
  NoDup l → l = l1 ++ l2 → before l x y → y ∈ l1 → before l1 x y.
Proof.
  intros Hnd -> (i & j & Hij & Hi & Hj) Hy.
  apply list_elem_of_lookup in Hy as [j' Hj'].
  assert (j' = j) as ->.
  { eapply NoDup_lookup; [done| |done]. by apply lookup_app_l_Some. }
  exists i, j. split_and!; [done| |done].
  rewrite lookup_app_l in Hi; [done|]. apply lookup_lt_Some in Hj'. lia.
Qed.

Lemma resume_step_queue c pc s s' :
  resume_step c pc s = Some s' → inv_threads s → callbacks_ s' = callbacks_ s.
Proof.
  intros H I. destruct pc; cbn in H; repeat case_match; simplify_eq; cbn; try done.
  symmetry. by apply I.
Qed.

Lemma step_queue l s s' :
  inv s → step l s = Some s' →
  (callbacks_ s' = callbacks_ s ∧ enq_log s' = enq_log s ∧ deq_log s' = deq_log s) ∨
  (∃ t, callbacks_ s' = callbacks_ s ++ [t] ∧ enq_log s' = enq_log s ++ [t] ∧
        deq_log s' = deq_log s) ∨
  (∃ t, callbacks_ s = t :: callbacks_ s' ∧ deq_log s' = deq_log s ++ [t] ∧
        enq_log s' = enq_log s).
Proof.
  intros [_ _ T _] H.
  assert (Ha : life s = Alive) by (by eapply step_alive).
  assert (I : inv_threads s) by (apply T; congruence).
  assert (Hil : ∀ w,
    (callbacks_ (inner_loop w s) = callbacks_ s ∧
     enq_log (inner_loop w s) = enq_log s ∧ deq_log (inner_loop w s) = deq_log s) ∨
    (∃ t, callbacks_ (inner_loop w s) = callbacks_ s ++ [t] ∧
          enq_log (inner_loop w s) = enq_log s ++ [t] ∧
          deq_log (inner_loop w s) = deq_log s) ∨
    (∃ t, callbacks_ s = t :: callbacks_ (inner_loop w s) ∧
          deq_log (inner_loop w s) = deq_log s ++ [t] ∧
          enq_log (inner_loop w s) = enq_log s)).
  { intros w. unfold inner_loop.
    destruct (callbacks_ s) as [|t q] eqn:Hq; cbn; rewrite ?Hq; [by left|].
    right. right. by exists t. }
  unfold step in H. rewrite Ha in H.
  destruct l as [w|c f|c]; simplify_option_eq.
  - rename H into Hw. rename H0 into pc.
    destruct pc; cbn in Hw; repeat case_match; simplify_eq; cbn; auto.
  - destruct (callers s !! c) as [[]|]; simplify_eq.
    destruct (start_if_stopped_fields (make_promise s)) as (_ & F2 & _ & F4 & _).
    destruct (start_if_stopped_logs_eq (make_promise s)) as [_ F6].
    destruct f; cbn; unfold Stop_locked, Post_locked, PostT_locked; auto.
    + left. destruct (StartUnlocked_fields s) as (_ & -> & _ & -> & _).
      split_and!; try done.
      unfold StartUnlocked. destruct (running_ s); [done|].
      cbn. by destruct (worker_thread_ s).
    + left. by destruct (running_ s).
    + destruct (life (start_if_stopped _)); cbn; rewrite ?F2, ?F4, ?F6; cbn; auto.
      right. left. eauto.
    + destruct (life (start_if_stopped _)); cbn; rewrite ?F2, ?F4, ?F6; cbn; auto.
      right. left. eauto.
    + left. by destruct (running_ s).
  - left. rename H into Hr. rename H0 into pc.
    split; [by eapply resume_step_queue|].
    destruct pc; cbn in Hr; repeat case_match; by simplify_eq.
Qed.

(** C3. Tasks leave the queue in the order in which they entered it, and
    the worker runs them in that order: [callbacks_] is what is left of
    the log of pushes after the log of pops, the log of completed runs is
    the log of pops without the task that is being run, and a step either
    leaves the queue alone, appends one task at its back or removes the
    task at its front. *)
Theorem FIFO_order n s :
  reachable n s →
  enq_log s = deq_log s ++ callbacks_ s ∧
  (∃ rest, deq_log s = ran_log s ++ rest ∧ length rest ≤ 1 ∧
     ∀ t, t ∈ rest → ∃ w, threads s !! w = Some (WExec t)) ∧
  NoDup (enq_log s) ∧
  (∀ ti tj, before (enq_log s) ti tj →
     (tj ∈ deq_log s → before (deq_log s) ti tj) ∧
     (tj ∈ ran_log s → before (ran_log s) ti tj)) ∧
  (∀ l s', step l s = Some s' →
     callbacks_ s' = callbacks_ s ∨
     (∃ t, callbacks_ s' = callbacks_ s ++ [t] ∧ enq_log s' = enq_log s ++ [t]) ∨
     (∃ t, callbacks_ s = t :: callbacks_ s' ∧ deq_log s' = deq_log s ++ [t])).
Proof.
  intros Hr. pose proof (reachable_inv _ _ Hr) as I.
  destruct (inv_l _ I) as [L1 L2]. pose proof (NoDup_enq_log _ I) as Hnd.
  split_and!; try done.
  - exists (executing s). split_and!; [done| |].
    + unfold executing. repeat case_match; cbn; lia.
    + unfold executing. intros t Ht.
      destruct (worker_thread_ s) as [w|]; [|by apply elem_of_nil in Ht].
      destruct (threads s !! w) as [[]|] eqn:Hw; try by apply elem_of_nil in Ht.
      apply list_elem_of_singleton in Ht as ->. eauto.
  - intros ti tj Hb.
    assert (Hd : tj ∈ deq_log s → before (deq_log s) ti tj).
    { intros Hj. by eapply before_prefix. }
    split; [done|]. intros Hj.
    eapply before_prefix; [|done| |done].
    + rewrite L1 in Hnd. by apply NoDup_app in Hnd as (? & _).
    + apply Hd. rewrite L2. apply elem_of_app. by left.
  - intros l s' Hs. destruct (step_queue _ _ _ I Hs) as [(?&?&?)|[(t&?&?&?)|(t&?&?&?)]];
      eauto.
Qed.

Lemma FIFO_order_witness :
  before (ran_log st_stopped) (Untyped ok_task 0) (Untyped bad_task 1).
Proof.
  destruct (FIFO_order 1 st_stopped) as (_ & _ & _ & H & _).
  - exists (two_posts ++ Call 0 Stop :: stop_schedule). reflexivity.
  - apply (H (Untyped ok_task 0) (Untyped bad_task 1)).
    + exists 0, 1. split_and!; [lia|reflexivity|reflexivity].
    + apply list_elem_of_further, list_elem_of_here.
Defined.

(** ** Promises are set once *)

Lemma ops_on_unique h o (log : list (handle * promise_op)) :
  NoDup log.*1 → (h, o) ∈ log → ops_on h log = [(h, o)].
Proof.
  unfold ops_on. induction log as [|[h' o'] log IH]; intros Hnd Hin.
  - by apply elem_of_nil in Hin.
  - cbn in Hnd. apply NoDup_cons in Hnd as [Hn Hnd]. rewrite filter_cons. cbn.
    apply elem_of_cons in Hin as [Heq|Hin].
    + injection Heq as <- <-. rewrite decide_True by done. f_equal.
      apply filter_none. intros [h1 o1] H1 Heq. cbn in Heq. subst.
      apply Hn. apply list_elem_of_fmap. by exists (h, o1).
    + rewrite decide_False; [by apply IH|]. intros ->.
      apply Hn. apply list_elem_of_fmap. by exists (h, o).
Qed.

Lemma ops_on_none h (log : list (handle * promise_op)) :
  h ∉ log.*1 → ops_on h log = [].
Proof.
  intros Hn. apply filter_none. intros [h1 o1] H1 Heq. cbn in Heq. subst.
  apply Hn. apply list_elem_of_fmap. by exists (h, o1).
Qed.

Lemma task_ops_handles t : (task_ops t).*1 = task_handles t.
Proof. unfold task_ops. rewrite <-list_fmap_compose. apply list_fmap_id. Qed.

Lemma bind_task_ops_handles (l : list task) :
  (l ≫= task_ops).*1 = l ≫= task_handles.
Proof.
  induction l as [|t l IH]; [done|].
  by rewrite !bind_cons, fmap_app, IH, task_ops_handles.
Qed.

Lemma NoDup_sub_log s :
  inv s →
  NoDup (ran_log s ≫= task_handles) ∧ NoDup (deq_log s) ∧ NoDup (ran_log s) ∧
  ∀ t h, t ∈ executing s ++ callbacks_ s → h ∈ task_handles t →
         h ∉ ran_log s ≫= task_handles.
Proof.
  intros I. destruct (inv_l _ I) as [L1 L2].
  pose proof (ip_nodup _ (inv_p _ I)) as Hnd.
  pose proof (NoDup_enq_log _ I) as Hne.
  rewrite L1, L2 in Hne. rewrite L1, L2, <-(assoc (++)), bind_app in Hnd.
  apply NoDup_app in Hnd as (Hr & Hd & _).
  apply NoDup_app in Hne as (Hq & _ & _). rewrite <-L2 in Hq.
  split_and!; try done.
  - rewrite L2 in Hq. by apply NoDup_app in Hq as (? & _).
  - intros t h Ht Hh Hin. apply (Hd h Hin). apply list_elem_of_bind. eauto.
Qed.

(** ** Typed submission *)


Lemma future_of_settled st t :
  task_settled st t →
  future_ready st (registered t) = true ∧
  match t with
  | Untyped _ _ => True
  | Typed cb p vp => future_get st p = Some (result_of cb)
  end.
Proof.
  unfold future_ready, future_get. destruct t as [cb p|cb p vp]; cbn.
  - intros ->. by destruct cb.
  - intros [-> ->]. by destruct cb.
Qed.

Lemma future_of_pending st t :
  task_pending st t →
  future_ready st (registered t) = false ∧
  match t with
  | Untyped _ _ => True
  | Typed cb p vp => future_get st p = None
  end.
Proof.
  unfold future_ready, future_get. intros Hp. destruct t as [cb p|cb p vp]; cbn.
  - rewrite (Hp p); [done|]. apply list_elem_of_here.
  - rewrite (Hp p), (Hp vp); [done| |apply list_elem_of_here].
    apply list_elem_of_further, list_elem_of_here.
Qed.

Lemma task_ran_or_pending s t :
  inv s → t ∈ enq_log s →
  (t ∈ ran_log s ∧ task_settled (shared_states s) t) ∨
  ((t ∉ ran_log s) ∧ task_pending (shared_states s) t).
Proof.
  intros I Ht. destruct (inv_l _ I) as [L1 L2].
  pose proof (NoDup_enq_log _ I) as Hnd.
  rewrite L1, L2, <-(assoc (++)) in Ht, Hnd.
  apply NoDup_app in Hnd as (_ & Hd & _).
  apply elem_of_app in Ht as [Ht|Ht].
  - left. split; [done|]. by apply I.
  - right. split; [|by apply I]. intros Hr. by apply (Hd t).
Qed.



(** ** A task that throws *)

Lemma store_after_throws t e st :
  task_callback t = Throws e → task_pending st t → NoDup (task_handles t) →
  ∀ h, h ∈ task_handles t → store_after t st !! h = Some (Failed e).
Proof.
  intros Hcb Hp Hnd h Hh. pose proof (store_after_settled _ _ Hp Hnd) as Hs.
  destruct t as [cb p|cb p vp]; cbn in *; subst cb.
  - by apply list_elem_of_singleton in Hh as ->.
  - destruct Hs as [H1 H2]. by apply elem_of_two in Hh as [-> | ->].
Qed.

(** C2. When the worker runs a wrapper whose callback throws, the step
    succeeds and nothing is terminated: the thread is at the point after
    [callback()] (line 165), the promises of that task are failed with the
    exception that was thrown, no other promise and no other field of the
    executor has changed, and the next step of the worker is the test of
    the inner loop, which pops the next queued task if there is one.
    Whatever has failed, every task that has run has its own outcome in
    its promises. *)
Theorem failing_task_is_isolated n s w t e :
  reachable n s → life s = Alive →
  threads s !! w = Some (WExec t) → task_callback t = Throws e →
  ∃ s', step (Worker w) s = Some s' ∧
    life s' = Alive ∧
    threads s' = <[w := WRelock]> (threads s) ∧
    (∀ h, h ∈ task_handles t → shared_states s' !! h = Some (Failed e)) ∧
    (∀ h, h ∉ task_handles t → shared_states s' !! h = shared_states s !! h) ∧
    (callbacks_ s' = callbacks_ s ∧ pending_futures_ s' = pending_futures_ s ∧
     running_ s' = running_ s ∧ worker_thread_ s' = worker_thread_ s ∧
     callers s' = callers s) ∧
    step (Worker w) s' = Some (inner_loop w s') ∧
    (∀ t' q, callbacks_ s = t' :: q →
       threads (inner_loop w s') !! w = Some (WExec t') ∧
       callbacks_ (inner_loop w s') = q) ∧
    (∀ t', t' ∈ ran_log s' → task_settled (shared_states s') t').
Proof.
  intros Hr Ha Hw Hcb. pose proof (reachable_inv _ _ Hr) as I.
  assert (It : inv_threads s) by (apply I; congruence).
  destruct (exec_promises w t s Hw It (inv_l _ I) (inv_p _ I)) as (Hp & Hnd & P').
  assert (Hlt : w < length (threads s)) by (by eapply lookup_lt_Some).
  eexists. split.
  { unfold step. rewrite Ha, Hw. cbn. by rewrite run_task_pending. }
  cbn. split_and!; try done.
  - by apply store_after_throws.
  - intros h Hh. by apply store_after_other.
  - unfold step. cbn. rewrite Ha. by rewrite list_lookup_insert_eq.
  - intros t' q Hq. unfold inner_loop. cbn. rewrite Hq. cbn.
    split; [|done]. apply list_lookup_insert_eq. by rewrite length_insert.
  - apply (ip_ran _ P').
Qed.

Lemma failing_task_is_isolated_witness :
  step (Worker 0) st_failing = Some st_failed ∧
  life st_failed = Alive ∧
  shared_states st_failed !! 0 = Some (Failed (runtime_error "boom")) ∧
  threads (inner_loop 0 st_failed) !! 0 = Some (WExec (Untyped ok_task 1)).
Proof.
  destruct (failing_task_is_isolated 1 st_failing 0 (Untyped bad_task 0)
              (runtime_error "boom"))
    as (s' & Hs & Hl & _ & Hf & _ & _ & _ & Hn & _).
  - exists failing_run. reflexivity.
  - reflexivity.
  - reflexivity.
  - reflexivity.
  - assert (Hc : step (Worker 0) st_failing = Some st_failed) by reflexivity.
    rewrite Hc in Hs. injection Hs as <-.
    split_and!; [reflexivity|done| |].
    + apply Hf. apply list_elem_of_here.
    + by apply (Hn (Untyped ok_task 1) []).
Defined.

(** ** WaitAll() *)

(** C4. Two threads use the object. Thread 0 posts a task and calls
    [WaitAll()], which takes the future of the task out of the registry
    and waits for it. Thread 1 then calls [WaitAll()]: it finds the
    registry empty and returns while the task is still in the queue and
    its future is pending. *)
Theorem WaitAll_skips_taken_handle :
  run first_waits (init 2) = Some st_first_waits ∧
  callbacks_ st_first_waits = [Untyped ok_task 0] ∧
  shared_states st_first_waits !! 0 = Some Pending ∧
  step (Call 1 WaitAll) st_first_waits = Some st_second_called ∧
  run second_returns st_second_called = Some st_second_returned ∧
  callers st_second_returned !! 1 = Some Idle ∧
  callbacks_ st_second_returned = [Untyped ok_task 0] ∧
  ran_log st_second_returned = [] ∧
  future_ready (shared_states st_second_returned) 0 = false ∧
  ¬ waits_for_all_pending.
Proof.
  split_and!; try reflexivity.
  intros H.
  specialize (H 2 first_waits st_first_waits 1 st_second_called second_returns
                st_second_returned (Untyped ok_task 0)).
  assert (Hf : future_ready (shared_states st_second_returned) 0 = true).
  { apply H; try reflexivity. apply list_elem_of_here. }
  vm_compute in Hf. discriminate.
Qed.

Lemma future_ready_step l s s' h :
  step l s = Some s' →
  future_ready (shared_states s) h = true → future_ready (shared_states s') h = true.
Proof.
  intros Hs. unfold future_ready.
  destruct (shared_states s !! h) as [c|] eqn:Hh; [|done]. intros Hc.
  destruct (step_grow _ _ _ Hs) as (_ & _ & _ & Hst). by rewrite (Hst h c).
Qed.

(** While the caller is in the loop of [WaitAll()], every future of the
    copy is ready or still to be waited for. *)
Lemma WaitAll_step l s s' c (R : list handle) :
  step l s = Some s' →
  (∀ h, h ∈ R → future_ready (shared_states s) h = true ∨
                 ∃ fs, callers s !! c = Some (WaitAllLoop fs) ∧ h ∈ fs) →
  (∀ h, h ∈ R → future_ready (shared_states s') h = true ∨
                 ∃ fs, callers s' !! c = Some (WaitAllLoop fs) ∧ h ∈ fs).
Proof.
  intros Hs HR h Hh. destruct (HR h Hh) as [Hrd|(fs & Hc & Hin)].
  { left. by eapply future_ready_step. }
  destruct (decide (label_caller l = Some c)) as [Hl|Hl].
  - pose proof Hs as Hs'. unfold step in Hs'. destruct (life s); [|done..].
    destruct l as [w|c0 f|c0]; cbn in Hl; simplify_eq.
    + by rewrite Hc in Hs'.
    + rewrite Hc in Hs'. cbn in Hs'.
      assert (Hlt : c < length (callers s)) by (by eapply lookup_lt_Some).
      destruct fs as [|f rest]; [by apply elem_of_nil in Hin|].
      destruct (future_ready (shared_states s) f) eqn:Hf; simplify_eq.
      apply elem_of_cons in Hin as [->|Hin]; [by left|].
      right. exists rest. split; [|done]. cbn. by apply list_lookup_insert_eq.
  - right. exists fs. split; [|done]. by rewrite (step_callers _ _ _ _ Hs Hl).
Qed.

Lemma WaitAll_run sched s s' c (R : list handle) :
  run sched s = Some s' →
  (∀ h, h ∈ R → future_ready (shared_states s) h = true ∨
                 ∃ fs, callers s !! c = Some (WaitAllLoop fs) ∧ h ∈ fs) →
  (∀ h, h ∈ R → future_ready (shared_states s') h = true ∨
                 ∃ fs, callers s' !! c = Some (WaitAllLoop fs) ∧ h ∈ fs).
Proof.
  revert s. induction sched as [|l sched IH]; intros s H HR.
  - by simplify_eq/=.
  - cbn in H. destruct (step l s) as [s1|] eqn:Hs; [|done]. cbn in H.
    eapply IH; [done|]. by eapply WaitAll_step.
Qed.

Lemma NoDup_bind_inj {A B} (f : A → list B) (l : list A) x y b :
  NoDup (l ≫= f) → x ∈ l → y ∈ l → b ∈ f x → b ∈ f y → x = y.
Proof.
  induction l as [|z l IH]; intros Hnd Hx Hy Hbx Hby; [by apply elem_of_nil in Hx|].
  rewrite bind_cons in Hnd. apply NoDup_app in Hnd as (_ & Hd & Hnd).
  apply elem_of_cons in Hx as [->|Hx]; apply elem_of_cons in Hy as [->|Hy]; try done.
  - destruct (Hd b Hbx). apply list_elem_of_bind. eauto.
  - destruct (Hd b Hby). apply list_elem_of_bind. eauto.
  - by apply IH.
Qed.

Lemma registered_handle t : registered t ∈ task_handles t.
Proof.
  destruct t; cbn; [apply list_elem_of_here|].
  apply list_elem_of_further, list_elem_of_here.
Qed.

(** * Further properties *)

(** ** The window of Stop() *)

Lemma inv_stop_frame s s' :
  running_ s' = running_ s → worker_thread_ s' = worker_thread_ s →
  callers s' = callers s → inv_stop s → inv_stop s'.
Proof. intros E1 E2 E3 []. split; rewrite ?E1, ?E2, ?E3; done. Qed.

Lemma inv_stop_set_caller s s' c pc0 pc :
  callers s !! c = Some pc0 → in_stop pc0 = false → in_stop pc = false →
  (∀ e, pc ≠ Raised e) →
  running_ s' = running_ s → worker_thread_ s' = worker_thread_ s →
  callers s' = <[c := pc]> (callers s) →
  inv_stop s → inv_stop s'.
Proof.
  intros Hc H0 H1 Hnr E1 E2 E3 [W U O R].
  assert (Hlt : c < length (callers s)) by (by eapply lookup_lt_Some).
  assert (Hold : ∀ c1 pc1, <[c := pc]> (callers s) !! c1 = Some pc1 →
    in_stop pc1 = true → c1 ≠ c ∧ callers s !! c1 = Some pc1).
  { intros c1 pc1 Hl Hin. destruct (decide (c1 = c)) as [->|Hne].
    - rewrite list_lookup_insert_eq in Hl by done. congruence.
    - by rewrite list_lookup_insert_ne in Hl. }
  split; rewrite ?E1, ?E2, ?E3.
  - intros c1 pc1 Hl Hin. destruct (Hold _ _ Hl Hin) as [_ Hl']. eauto.
  - intros c1 c2 pc1 pc2 Hl1 Hl2 Hin1 Hin2.
    destruct (Hold _ _ Hl1 Hin1) as [_ Hl1'].
    destruct (Hold _ _ Hl2 Hin2) as [_ Hl2']. eauto.
  - intros Hr Hw. destruct (O Hr Hw) as (c1 & pc1 & Hl & Hin).
    exists c1, pc1. split; [|done]. rewrite list_lookup_insert_ne; [done|].
    intros ->. congruence.
  - intros c1 e Hl. destruct (decide (c1 = c)) as [->|Hne].
    + rewrite list_lookup_insert_eq in Hl by done. simplify_eq. by eapply Hnr.
    + rewrite list_lookup_insert_ne in Hl by done. by eapply R.
Qed.

Lemma StartUnlocked_stop s :
  inv_stop s → life (StartUnlocked s) ≠ Terminated → inv_stop (StartUnlocked s).
Proof.
  intros K. unfold StartUnlocked. destruct (running_ s) eqn:Hr; [done|]. cbn.
  destruct (worker_thread_ s) as [w|] eqn:Hw; cbn; [done|]. intros _.
  assert (Hno : ∀ c pc, callers s !! c = Some pc → in_stop pc = true → False).
  { intros c pc Hc Hin. destruct (is_window _ K _ _ Hc Hin) as [_ [? ?]]. congruence. }
  split; cbn.
  - intros c pc Hc Hin. by destruct (Hno c pc).
  - intros c c' pc pc' Hc _ Hin _. by destruct (Hno c pc).
  - done.
  - apply K.
Qed.

Lemma start_if_stopped_stop s :
  inv_stop s →
  life (start_if_stopped (make_promise s)) ≠ Terminated →
  inv_stop (start_if_stopped (make_promise s)).
Proof.
  intros K. unfold start_if_stopped.
  assert (K0 : inv_stop (make_promise s)) by (by eapply inv_stop_frame, K).
  destruct (running_ (make_promise s)); [done|]. by apply StartUnlocked_stop.
Qed.

Lemma Stop_locked_stop c d s :
  callers s !! c = Some Idle → inv_threads s → inv_stop s →
  inv_stop (Stop_locked c d s).
Proof.
  intros Hc I K. unfold Stop_locked.
  assert (Hlt : c < length (callers s)) by (by eapply lookup_lt_Some).
  destruct (running_ s) eqn:Hr; cbn.
  - assert (Hno : ∀ c1 pc1, callers s !! c1 = Some pc1 → in_stop pc1 = true → False).
    { intros c1 pc1 Hc1 Hin. destruct (is_window _ K _ _ Hc1 Hin) as [? _]. congruence. }
    assert (Hold : ∀ c1 pc1, <[c := StopNotify d]> (callers s) !! c1 = Some pc1 →
      in_stop pc1 = true → c1 = c).
    { intros c1 pc1 Hl Hin. destruct (decide (c1 = c)) as [|Hne]; [done|].
      rewrite list_lookup_insert_ne in Hl by done. by destruct (Hno c1 pc1). }
    destruct (it_running _ I Hr) as (w & pcw & Hw & _).
    split; cbn.
    + intros _ _ _ _. by rewrite Hw.
    + intros c1 c2 pc1 pc2 Hl1 Hl2 Hin1 Hin2.
      rewrite (Hold _ _ Hl1 Hin1), (Hold _ _ Hl2 Hin2). done.
    + intros _ _. exists c, (StopNotify d). by rewrite list_lookup_insert_eq.
    + intros c1 e Hl. destruct (decide (c1 = c)) as [->|Hne].
      * by rewrite list_lookup_insert_eq in Hl.
      * rewrite list_lookup_insert_ne in Hl by done. by eapply K.
  - eapply (inv_stop_set_caller s _ c Idle (if d then DtorMembers else Idle)), K;
      try done; by destruct d.
Qed.

Lemma Post_locked_stop c cb s :
  life s = Alive → callers s !! c = Some Idle → inv_threads s → inv_stop s →
  life (Post_locked c cb s) ≠ Terminated → inv_stop (Post_locked c cb s).
Proof.
  intros Ha Hc I K. unfold Post_locked.
  destruct (start_if_stopped_fields (make_promise s)) as (_ & _ & _ & _ & F5).
  destruct (life (start_if_stopped (make_promise s))) eqn:Hl; [|done|].
  - intros _.
    eapply (inv_stop_set_caller (start_if_stopped (make_promise s)) _ c Idle
              (PostNotify None));
      [rewrite F5; exact Hc|done..|].
    apply start_if_stopped_stop; [done|congruence].
  - intros _. apply start_if_stopped_stop; [done|congruence].
Qed.

Lemma PostT_locked_stop c cb s :
  life s = Alive → callers s !! c = Some Idle → inv_threads s → inv_stop s →
  life (PostT_locked c cb s) ≠ Terminated → inv_stop (PostT_locked c cb s).
Proof.
  intros Ha Hc I K. unfold PostT_locked.
  destruct (start_if_stopped_fields (make_promise s)) as (_ & _ & _ & _ & F5).
  destruct (life (start_if_stopped (make_promise s))) eqn:Hl; [|done|].
  - intros _.
    eapply (inv_stop_set_caller (start_if_stopped (make_promise s)) _ c Idle
              (PostNotify (Some (length (shared_states s)))));
      [rewrite F5; exact Hc|done..|].
    apply start_if_stopped_stop; [done|congruence].
  - intros _. apply start_if_stopped_stop; [done|congruence].
Qed.

Lemma call_step_stop c f s :
  life s = Alive → callers s !! c = Some Idle → inv_threads s → inv_stop s →
  life (call_step c f s) ≠ Terminated → inv_stop (call_step c f s).
Proof.
  intros Ha Hc I K. destruct f; cbn.
  - by apply StartUnlocked_stop.
  - intros _. by apply Stop_locked_stop.
  - by apply Post_locked_stop.
  - by apply PostT_locked_stop.
  - intros _.
    by eapply (inv_stop_set_caller s _ c Idle (WaitAllLoop (pending_futures_ s))), K.
  - done.
  - intros _. by apply Stop_locked_stop.
Qed.

Lemma resume_step_stop c pc s s' :
  callers s !! c = Some pc → resume_step c pc s = Some s' →
  inv_stop s → life s' ≠ Terminated → inv_stop s'.
Proof.
  intros Hc H K.
  assert (Hlt : c < length (callers s)) by (by eapply lookup_lt_Some).
  assert (Hleave : ∀ d s0,
    in_stop pc = true → running_ s0 = false → worker_thread_ s0 = None →
    callers s0 = callers s →
    inv_stop (set_caller c (if d : bool then DtorMembers else Idle) s0)).
  { intros d s0 Hin Hr Hw Hcs.
    assert (Hold : ∀ c1 pc1,
      <[c := if d then DtorMembers else Idle]> (callers s) !! c1 = Some pc1 →
      in_stop pc1 = true → False).
    { intros c1 pc1 Hl Hin1. destruct (decide (c1 = c)) as [->|Hne].
      - rewrite list_lookup_insert_eq in Hl by done. simplify_eq. by destruct d.
      - rewrite list_lookup_insert_ne in Hl by done.
        by pose proof (is_unique _ K _ _ _ _ Hl Hc Hin1 Hin). }
    split; cbn; rewrite ?Hcs, ?Hr, ?Hw.
    - intros c1 pc1 Hl Hin1. by destruct (Hold c1 pc1).
    - intros c1 c2 pc1 pc2 Hl1 _ Hin1 _. by destruct (Hold c1 pc1).
    - by intros _ [? ?].
    - intros c1 e Hl. destruct (decide (c1 = c)) as [->|Hne].
      + rewrite list_lookup_insert_eq in Hl by done. by destruct d.
      + rewrite list_lookup_insert_ne in Hl by done. by eapply K. }
  destruct pc; cbn in H; simplify_eq.
  - intros _. by eapply (inv_stop_set_caller s _ c (PostNotify fut) Idle), K.
  - destruct (is_window _ K _ _ Hc eq_refl) as [Hr [w Hw]]. rewrite Hw in H.
    simplify_eq. intros _.
    assert (Hold : ∀ c1 pc1, <[c := StopJoin dtor]> (callers s) !! c1 = Some pc1 →
      in_stop pc1 = true → c1 = c).
    { intros c1 pc1 Hl Hin. destruct (decide (c1 = c)) as [|Hne]; [done|].
      rewrite list_lookup_insert_ne in Hl by done.
      by eapply (is_unique _ K c1 c). }
    split; cbn.
    + intros _ _ _ _. by rewrite Hw.
    + intros c1 c2 pc1 pc2 Hl1 Hl2 Hin1 Hin2.
      rewrite (Hold _ _ Hl1 Hin1), (Hold _ _ Hl2 Hin2). done.
    + intros _ _. exists c, (StopJoin dtor). by rewrite list_lookup_insert_eq.
    + intros c1 e Hl. destruct (decide (c1 = c)) as [->|Hne].
      * by rewrite list_lookup_insert_eq in Hl.
      * rewrite list_lookup_insert_ne in Hl by done. by eapply K.
  - destruct (is_window _ K _ _ Hc eq_refl) as [Hr [w Hw]]. rewrite Hw in H.
    destruct (threads s !! w) as [[]|]; simplify_eq. intros _.
    by apply (Hleave dtor (set_worker_thread None s)).
  - destruct futures as [|f rest]; [|destruct (future_ready _ _)]; simplify_eq;
      intros _.
    + by eapply (inv_stop_set_caller s _ c (WaitAllLoop []) Idle), K.
    + by eapply (inv_stop_set_caller s _ c (WaitAllLoop (f :: rest))
                   (WaitAllLoop rest)), K.
  - destruct (worker_thread_ s) as [w|] eqn:Hw; simplify_eq; [done|]. intros _.
    eapply (inv_stop_set_caller s _ c DtorMembers Idle), K; done.
Qed.

Lemma step_stop l s s' :
  step l s = Some s' → inv_threads s → inv_stop s →
  life s' ≠ Terminated → inv_stop s'.
Proof.
  unfold step. intros H I K. destruct (life s) eqn:Ha; [|done..].
  destruct l as [w|c f|c]; simplify_option_eq.
  - intros _. rename H into Hw.
    assert (Hc : callers s' = callers s) by (by eapply WorkerLoop_step_callers).
    eapply inv_stop_frame, K; [| |done].
    + destruct H0; cbn in Hw; repeat case_match; simplify_eq; cbn; try done.
      all: unfold inner_loop; by destruct (callbacks_ s).
    + destruct H0; cbn in Hw; repeat case_match; simplify_eq; cbn; try done.
      all: unfold inner_loop; by destruct (callbacks_ s).
  - destruct (callers s !! c) as [[]|] eqn:Hc; simplify_eq. by apply call_step_stop.
  - by eapply resume_step_stop.
Qed.

Lemma inv_stop_init n : inv_stop (init n).
Proof.
  assert (Hi : ∀ c pc, callers (init n) !! c = Some pc → pc = Idle).
  { intros c pc Hl. cbn in Hl. by apply lookup_replicate in Hl as [-> _]. }
  split; cbn.
  - intros c pc Hl Hin. by rewrite (Hi _ _ Hl) in Hin.
  - intros c c' pc pc' Hl _ Hin _. by rewrite (Hi _ _ Hl) in Hin.
  - by intros _ [? ?].
  - intros c e Hl. by apply Hi in Hl.
Qed.

Lemma run_stop sched s s' :
  run sched s = Some s' → inv s → inv_stop s →
  life s' ≠ Terminated → inv_stop s'.
Proof.
  revert s. induction sched as [|l sched IH]; intros s H I K Hl.
  - by simplify_eq/=.
  - cbn in H. destruct (step l s) as [s1|] eqn:Hs; [|done]. cbn in H.
    assert (Ha1 : life s1 ≠ Terminated).
    { intros Ht. destruct sched; cbn in H; [by simplify_eq|].
      unfold step in H. by rewrite Ht in H. }
    eapply IH; [done|by eapply step_inv| |done].
    eapply step_stop; [done| |done..].
    apply I. by rewrite (step_alive _ _ _ Hs).
Qed.

Lemma reachable_stop n s : reachable n s → life s ≠ Terminated → inv_stop s.
Proof.
  intros [sched H]. eapply run_stop; [done|apply inv_init|apply inv_stop_init].
Qed.

(** X1. For an executor that is called by the threads that use it and by
    no task from the worker: at most one thread is between the critical
    section of [Stop()] and the end of its [join()]; while it is there
    [running_] stays clear and [worker_thread_] stays joinable, so these
    threads never call [join()] on a thread that is not joinable and no
    call of theirs is left by the exception of [join()]. *)
Theorem Stop_is_exclusive n s :
  reachable n s → life s ≠ Terminated →
  (∀ c c' pc pc',
     callers s !! c = Some pc → callers s !! c' = Some pc' →
     in_stop pc = true → in_stop pc' = true → c = c') ∧
  (∀ c pc, callers s !! c = Some pc → in_stop pc = true →
     running_ s = false ∧ is_Some (worker_thread_ s)) ∧
  (∀ c e, callers s !! c ≠ Some (Raised e)).
Proof.
  intros Hr Hl. destruct (reachable_stop _ _ Hr Hl) as [W U O R]. done.
Qed.

Lemma Stop_is_exclusive_witness :
  running_ st_joining = false ∧ is_Some (worker_thread_ st_joining).
Proof.
  destruct (Stop_is_exclusive 1 st_joining) as (_ & H & _).
  - exists (two_posts ++ Call 0 Stop :: take 7 stop_schedule). reflexivity.
  - discriminate.
  - apply (H 0 (StopJoin false)); reflexivity.
Defined.

(** ** When std::terminate is called *)

Lemma StartUnlocked_terminated s :
  life s = Alive → life (StartUnlocked s) = Terminated →
  running_ s = false ∧ is_Some (worker_thread_ s).
Proof.
  intros Ha. unfold StartUnlocked. destruct (running_ s); [congruence|]. cbn.
  destruct (worker_thread_ s); cbn; [eauto|congruence].
Qed.

Lemma start_if_stopped_terminated s :
  life s = Alive → life (start_if_stopped (make_promise s)) = Terminated →
  running_ s = false ∧ is_Some (worker_thread_ s).
Proof.
  intros Ha. unfold start_if_stopped.
  destruct (running_ (make_promise s)) eqn:Hr; cbn; [congruence|].
  intros Ht. by apply (StartUnlocked_terminated (make_promise s)).
Qed.

Lemma call_step_terminated c f s :
  life s = Alive → life (call_step c f s) = Terminated →
  starts_worker f = true ∧ running_ s = false ∧ is_Some (worker_thread_ s).
Proof.
  intros Ha. destruct f; cbn; unfold Stop_locked, Post_locked, PostT_locked,
    WaitAll_locked.
  - intros Ht. by destruct (StartUnlocked_terminated s).
  - destruct (running_ s); cbn; congruence.
  - destruct (life (start_if_stopped _)) eqn:Hl; cbn; try congruence.
    intros _. by destruct (start_if_stopped_terminated s).
  - destruct (life (start_if_stopped _)) eqn:Hl; cbn; try congruence.
    intros _. by destruct (start_if_stopped_terminated s).
  - cbn. congruence.
  - congruence.
  - destruct (running_ s); cbn; congruence.
Qed.

Lemma WorkerLoop_step_alive w pc s s' :
  inv s → life s = Alive → threads s !! w = Some pc →
  WorkerLoop_step w pc s = Some s' → life s' = Alive.
Proof.
  intros I Ha Hw H.
  assert (It : inv_threads s) by (apply I; congruence).
  destruct pc; cbn in H.
  - repeat case_match; simplify_eq; cbn; try done.
    unfold inner_loop. by destruct (callbacks_ s).
  - destruct (exec_promises w t s Hw It (inv_l _ I) (inv_p _ I)) as (Hp & Hnd & _).
    rewrite run_task_pending in H by done. by simplify_eq.
  - simplify_eq. unfold inner_loop. by destruct (callbacks_ s).
  - done.
Qed.

Lemma step_terminated l s s' :
  inv s → inv_stop s → step l s = Some s' → life s' = Terminated →
  is_Some (worker_thread_ s) ∧
  ((∃ c f c' pc', l = Call c f ∧ starts_worker f = true ∧ running_ s = false ∧
      c' ≠ c ∧ callers s !! c' = Some pc' ∧ in_stop pc' = true) ∨
   (∃ c, l = Resume c ∧ callers s !! c = Some DtorMembers)).
Proof.
  intros I K H Ht. pose proof (step_alive _ _ _ H) as Ha.
  unfold step in H. rewrite Ha in H.
  destruct l as [w|c f|c]; simplify_option_eq.
  - rename H0 into pc. pose proof (WorkerLoop_step_alive _ _ _ _ I Ha Heqo H).
    congruence.
  - destruct (callers s !! c) as [[]|] eqn:Hc; simplify_eq.
    destruct (call_step_terminated c f s Ha Ht) as (Hf & Hr & Hw).
    split; [done|]. left.
    destruct (is_owner _ K Hr Hw) as (c' & pc' & Hc' & Hin).
    exists c, f, c', pc'. split_and!; try done. intros ->. by simplify_eq.
  - rename H0 into pc. rename Heqo into Hc.
    destruct pc; cbn in H; simplify_eq.
    + cbn in Ht. congruence.
    + destruct (is_window _ K _ _ Hc eq_refl) as [_ [w Hw]].
      rewrite Hw in H. simplify_eq. cbn in Ht. congruence.
    + destruct (is_window _ K _ _ Hc eq_refl) as [_ [w Hw]].
      rewrite Hw in H. destruct (threads s !! w) as [[]|]; simplify_eq.
      cbn in Ht. congruence.
    + destruct futures; [|destruct (future_ready _ _)]; simplify_eq;
        cbn in Ht; congruence.
    + destruct (worker_thread_ s) eqn:Hw; simplify_eq. eauto.
Qed.

(** X2. For an executor whose tasks return or throw without calling the
    executor themselves, [std::terminate] is reached in two ways only,
    both with a joinable [worker_thread_]: a [Start()], [Post()] or
    [Post<T>()] of a thread that takes the lock while another thread is
    inside [Stop()] after its critical section, and the destruction of
    the members while a worker thread has not been joined. The run of
    such a task, a [Stop()] and a [WaitAll()] never terminate the
    process. *)
Theorem terminate_only_with_joinable_worker n s l s' :
  reachable n s → step l s = Some s' → life s' = Terminated →
  is_Some (worker_thread_ s) ∧
  ((∃ c f c' pc', l = Call c f ∧ starts_worker f = true ∧ running_ s = false ∧
      c' ≠ c ∧ callers s !! c' = Some pc' ∧ in_stop pc' = true) ∨
   (∃ c, l = Resume c ∧ callers s !! c = Some DtorMembers)).
Proof.
  intros Hr Hs Ht. apply (step_terminated l s s'); try done.
  - by eapply reachable_inv.
  - eapply reachable_stop; [done|]. rewrite (step_alive _ _ _ Hs). done.
Qed.

Lemma terminate_only_with_joinable_worker_witness :
  is_Some (worker_thread_ st_race_window) ∧
  ((∃ c f c' pc', Call 1 (Post ok_task) = Call c f ∧ starts_worker f = true ∧
      running_ st_race_window = false ∧
      c' ≠ c ∧ callers st_race_window !! c' = Some pc' ∧ in_stop pc' = true) ∨
   (∃ c, Call 1 (Post ok_task) = Resume c ∧
      callers st_race_window !! c = Some DtorMembers)).
Proof.
  apply (terminate_only_with_joinable_worker 2 st_race_window
           (Call 1 (Post ok_task)) st_race).
  - exists (take 3 racing_post). reflexivity.
  - reflexivity.
  - reflexivity.
Defined.

(** ** One user thread *)

(** A caller that is about to destroy the members finds the worker
    joined, unless its [Stop()] returned early because another thread
    was already stopping the executor or the executor was started again. *)
Lemma step_DtorMembers l s s' c :
  inv s → inv_stop s → step l s = Some s' → life s' = Alive →
  callers s' !! c = Some DtorMembers →
  worker_thread_ s' = None ∨
  (callers s !! c = Some DtorMembers ∧ label_caller l ≠ Some c) ∨
  (∃ c' pc', c' ≠ c ∧ callers s !! c' = Some pc' ∧ in_stop pc' = true).
Proof.
  intros I K H Ha' Hc'. pose proof (step_alive _ _ _ H) as Ha.
  assert (It : inv_threads s) by (apply I; congruence).
  destruct (decide (label_caller l = Some c)) as [Hl|Hl].
  - unfold step in H. rewrite Ha in H.
    destruct l as [w|c0 f|c0]; cbn in Hl; simplify_eq.
    + destruct (callers s !! c) as [[]|] eqn:Hc; simplify_eq.
      assert (Hlt : c < length (callers s)) by (by eapply lookup_lt_Some).
      destruct (start_if_stopped_fields (make_promise s)) as (_ & _ & _ & _ & F5).
      cbn in F5.
      destruct f; cbn in Hc'; unfold Stop_locked, Post_locked, PostT_locked in *.
      * destruct (StartUnlocked_fields s) as (_ & _ & _ & _ & F). congruence.
      * destruct (running_ s); cbn in Hc';
          rewrite list_lookup_insert_eq in Hc' by done; congruence.
      * destruct (life (start_if_stopped _)); cbn in Hc'; rewrite ?F5 in Hc';
          rewrite ?list_lookup_insert_eq in Hc' by done; congruence.
      * destruct (life (start_if_stopped _)); cbn in Hc'; rewrite ?F5 in Hc';
          rewrite ?list_lookup_insert_eq in Hc' by done; congruence.
      * rewrite list_lookup_insert_eq in Hc' by done. congruence.
      * congruence.
      * destruct (running_ s) eqn:Hr; cbn in Hc';
          rewrite list_lookup_insert_eq in Hc' by done; [congruence|].
        destruct (worker_thread_ s) as [w|] eqn:Hw.
        2: { left. cbn. unfold Stop_locked. by rewrite Hr. }
        right. right. destruct (is_owner _ K Hr) as (c' & pc' & Hl' & Hin); [by eauto|].
        exists c', pc'. split_and!; try done. intros ->. by simplify_eq.
    + destruct (callers s !! c) as [pc|] eqn:Hc; simplify_eq. cbn in H.
      assert (Hlt : c < length (callers s)) by (by eapply lookup_lt_Some).
      destruct pc; cbn in H; simplify_eq.
      * cbn in Hc'. rewrite list_lookup_insert_eq in Hc' by done. congruence.
      * destruct (worker_thread_ s) eqn:Hw; simplify_eq; cbn in *; [|by left].
        rewrite list_lookup_insert_eq in Hc' by done. congruence.
      * destruct (worker_thread_ s) as [w|] eqn:Hw.
        -- destruct (threads s !! w) as [[]|]; simplify_eq. by left.
        -- destruct dtor; simplify_eq; cbn in *; try congruence; by left.
      * destruct futures; [|destruct (future_ready _ _)]; simplify_eq; cbn in Hc';
          rewrite list_lookup_insert_eq in Hc' by done; congruence.
      * destruct (worker_thread_ s) eqn:Hw; simplify_eq; cbn in *; congruence.
  - right. left. by rewrite (step_callers _ _ _ _ H Hl) in Hc'.
Qed.

Lemma step_worker_thread_other l s s' :
  step l s = Some s' → label_caller l = None →
  worker_thread_ s' = worker_thread_ s ∧ running_ s' = running_ s.
Proof.
  unfold step. intros H Hl. destruct (life s); [|done..].
  destruct l as [w|c f|c]; simplify_option_eq.
  rename H0 into pc. destruct pc; cbn in H; repeat case_match; simplify_eq; cbn;
    try done.
  all: unfold inner_loop; by destruct (callbacks_ s).
Qed.

Lemma single_user_step l s s' :
  inv s → inv_stop s → length (callers s) = 1 →
  (callers s !! 0 = Some DtorMembers → worker_thread_ s = None) →
  step l s = Some s' →
  life s' ≠ Terminated ∧
  (callers s' !! 0 = Some DtorMembers → worker_thread_ s' = None).
Proof.
  intros I K Hn Hd H.
  assert (H0 : ∀ c pc, callers s !! c = Some pc → c = 0).
  { intros c pc Hl. apply lookup_lt_Some in Hl. lia. }
  assert (Hnt : life s' ≠ Terminated).
  { intros Ht. destruct (step_terminated _ _ _ I K H Ht) as [Hw [Hc|[c [-> Hc]]]].
    - destruct Hc as (c & f & c' & pc' & -> & _ & _ & Hne & Hc' & _).
      unfold step in H. destruct (life s); [|done..].
      destruct (callers s !! c) eqn:Hc; [|done].
      apply H0 in Hc, Hc'. congruence.
    - pose proof (H0 _ _ Hc) as ->. apply Hd in Hc. rewrite Hc in Hw.
      by destruct Hw. }
  split; [done|]. intros Hc'.
  destruct (life s') eqn:Ha'; [|done|].
  - destruct (step_DtorMembers _ _ _ 0 I K H Ha' Hc') as [?|[[Hc Hl]|Hx]]; [done| |].
    + destruct l as [w|c f|c]; cbn in Hl.
      * destruct (step_worker_thread_other _ _ _ H eq_refl) as [-> _]. by apply Hd.
      * pose proof H as H'. unfold step in H'. destruct (life s); [|done..].
        destruct (callers s !! c) eqn:Hcc; [|done]. apply H0 in Hcc. congruence.
      * pose proof H as H'. unfold step in H'. destruct (life s); [|done..].
        destruct (callers s !! c) eqn:Hcc; [|done]. apply H0 in Hcc. congruence.
    + destruct Hx as (c' & pc' & Hne & Hl' & _). apply H0 in Hl'. congruence.
  - by eapply step_destroyed.
Qed.

Lemma single_user_run sched s s' :
  inv s → inv_stop s → length (callers s) = 1 →
  (callers s !! 0 = Some DtorMembers → worker_thread_ s = None) →
  run sched s = Some s' → life s ≠ Terminated → life s' ≠ Terminated.
Proof.
  revert s. induction sched as [|l sched IH]; intros s I K Hn Hd H Hl.
  - by simplify_eq/=.
  - cbn in H. destruct (step l s) as [s1|] eqn:Hs; [|done]. cbn in H.
    destruct (single_user_step _ _ _ I K Hn Hd Hs) as [Hl1 Hd1].
    eapply (IH s1); try done.
    + by eapply step_inv.
    + eapply step_stop; [done| |done..]. apply I. by rewrite (step_alive _ _ _ Hs).
    + by rewrite (step_callers_length _ _ _ Hs).
Qed.

(** X3. With a single thread that uses the executor, and tasks that
    return or throw without calling the executor themselves, whatever the
    thread calls and however its calls interleave with the worker,
    [std::terminate] is never called. *)
Theorem single_user_never_terminates sched s :
  run sched (init 1) = Some s → life s ≠ Terminated.
Proof.
  intros H. eapply (single_user_run sched (init 1) s); try done.
  - apply inv_init.
  - apply inv_stop_init.
Qed.

Lemma single_user_never_terminates_witness : life st_destroyed ≠ Terminated.
Proof.
  apply (single_user_never_terminates (two_posts ++ Call 0 Destroy :: dtor_schedule)).
  reflexivity.
Defined.

(** ** The worker gets to every task *)

Lemma inner_loop_progress w pc s :
  w < length (threads s) →
  (pc = WWait ∧ callbacks_ s ≠ [] ∨ pc = WRelock) →
  ∃ pc1, threads (inner_loop w s) !! w = Some pc1 ∧ pc1 ≠ WDone ∧
    worker_measure pc1 (callbacks_ (inner_loop w s)) < worker_measure pc (callbacks_ s) ∧
    life (inner_loop w s) = life s ∧ callers (inner_loop w s) = callers s ∧
    worker_thread_ (inner_loop w s) = worker_thread_ s ∧
    running_ (inner_loop w s) = running_ s ∧
    pending_futures_ (inner_loop w s) = pending_futures_ s ∧
    enq_log (inner_loop w s) = enq_log s.
Proof.
  intros Hlt Hpc. unfold inner_loop.
  destruct (callbacks_ s) as [|t q] eqn:Hq; cbn; rewrite ?Hq.
  - exists WWait. rewrite list_lookup_insert_eq by done.
    destruct Hpc as [[_ ?]| ->]; [done|]. cbn. split_and!; try done. lia.
  - exists (WExec t). rewrite list_lookup_insert_eq by done.
    split_and!; try done. destruct Hpc as [[-> _]| ->]; cbn; lia.
Qed.

Lemma worker_progress_queue s w pc :
  inv s → life s = Alive → threads s !! w = Some pc → pc ≠ WDone →
  (pc = WWait → callbacks_ s ≠ []) →
  ∃ s1 pc1, step (Worker w) s = Some s1 ∧ life s1 = Alive ∧
    threads s1 !! w = Some pc1 ∧ pc1 ≠ WDone ∧
    worker_measure pc1 (callbacks_ s1) < worker_measure pc (callbacks_ s) ∧
    callers s1 = callers s ∧ worker_thread_ s1 = worker_thread_ s ∧
    running_ s1 = running_ s ∧ pending_futures_ s1 = pending_futures_ s ∧
    enq_log s1 = enq_log s.
Proof.
  intros I Ha Hw Hl Hq.
  assert (Hlt : w < length (threads s)) by (by eapply lookup_lt_Some).
  assert (It : inv_threads s) by (apply I; congruence).
  unfold step. rewrite Ha, Hw. cbn. destruct pc; [| | |done]; cbn.
  - specialize (Hq eq_refl).
    destruct (inner_loop_progress w WWait s Hlt)
      as (pc1 & H1 & H2 & H3 & H4 & H5 & H6 & H7 & H8 & H9); [by left|].
    destruct (callbacks_ s) as [|t q] eqn:Hcb; [done|]. cbn.
    rewrite andb_false_r. eexists _, pc1. split; [done|].
    split_and!; try done. congruence.
  - destruct (exec_promises w t s Hw It (inv_l _ I) (inv_p _ I)) as (Hp & Hnd & _).
    rewrite run_task_pending by done.
    eexists _, WRelock. split; [done|]. cbn.
    rewrite list_lookup_insert_eq by done. split_and!; try done. lia.
  - destruct (inner_loop_progress w WRelock s Hlt)
      as (pc1 & H1 & H2 & H3 & H4 & H5 & H6 & H7 & H8 & H9); [by right|].
    eexists _, pc1. split; [done|]. split_and!; try done. congruence.
Qed.

Lemma worker_settles_aux m s w pc :
  inv s → life s = Alive → worker_thread_ s = Some w → threads s !! w = Some pc →
  worker_measure pc (callbacks_ s) ≤ m →
  ∃ k s', run (replicate k (Worker w)) s = Some s' ∧
    life s' = Alive ∧ inv s' ∧ ran_log s' = enq_log s ∧ callbacks_ s' = [] ∧
    callers s' = callers s ∧ worker_thread_ s' = worker_thread_ s ∧
    running_ s' = running_ s ∧ pending_futures_ s' = pending_futures_ s ∧
    enq_log s' = enq_log s.
Proof.
  revert s pc. induction m as [|m IH]; intros s pc I Ha Hwt Hw Hm.
  { destruct pc; cbn in Hm; try lia.
    assert (It : inv_threads s) by (apply I; congruence).
    exists 0, s. split_and!; try done.
    - symmetry. by eapply drained_joined; [|apply I|..].
    - by eapply It. }
  assert (It : inv_threads s) by (apply I; congruence).
  destruct (decide (pc = WDone)) as [->|Hl].
  { exists 0, s. split_and!; try done.
    - symmetry. by eapply drained_joined; [|apply I|..].
    - by eapply It. }
  destruct (decide (pc = WWait ∧ callbacks_ s = [])) as [[-> Hq]|Hgo].
  { exists 0, s. split_and!; try done.
    destruct (inv_l _ I) as [L1 L2].
    rewrite (executing_eq s w WWait) in L2 by done.
    rewrite L1, L2, Hq. by rewrite !(right_id_L [] (++)). }
  destruct (worker_progress_queue s w pc I Ha Hw Hl)
    as (s1 & pc1 & Hs & Ha1 & Hw1 & Hl1 & Hlt & Hc1 & Ht1 & Hr1 & Hp1 & He1).
  { intros ->. intros Hq. by apply Hgo. }
  destruct (IH s1 pc1) as (k & s' & Hrun & ? & ? & ? & ? & ? & ? & ? & ? & ?);
    try done.
  { by eapply step_inv. }
  { congruence. }
  { lia. }
  exists (S k), s'. cbn. rewrite Hs. cbn. split_and!; try done; congruence.
Qed.

Lemma worker_settles s :
  inv s → life s = Alive →
  ∃ k w s', run (replicate k (Worker w)) s = Some s' ∧
    life s' = Alive ∧ inv s' ∧ ran_log s' = enq_log s ∧ callbacks_ s' = [] ∧
    callers s' = callers s ∧ worker_thread_ s' = worker_thread_ s ∧
    running_ s' = running_ s ∧ pending_futures_ s' = pending_futures_ s ∧
    enq_log s' = enq_log s.
Proof.
  intros I Ha. assert (It : inv_threads s) by (apply I; congruence).
  destruct (worker_thread_ s) as [w|] eqn:Hwt.
  - destruct (lookup_lt_is_Some_2 (threads s) w) as [pc Hw]; [by apply It|].
    destruct (worker_settles_aux _ s w pc I Ha Hwt Hw (le_n _))
      as (k & s' & ? & ? & ? & ? & ? & ? & ? & ? & ? & ?).
    exists k, w, s'. split_and!; try done. congruence.
  - exists 0, 0, s. split_and!; try done.
    + symmetry. by eapply drained_not_joinable; [|apply I|].
    + by apply It.
Qed.

(** ** One-shot completion *)

(** C6. In every reachable state a task that the worker has run was
    submitted, has every promise settled with the outcome of its callback
    (fulfilled if the callback returned, failed if it threw) and has had
    exactly one operation invoked on each promise: [set_value] in the first
    case, [set_exception] in the second. A submitted task that has not
    been run has its promises pending and untouched. The log of promise
    operations is that of the tasks run, one run each; no task is popped
    or run twice; a promise that has left [Pending] never changes again;
    and while the executor is alive the worker comes to run every task
    that was submitted. *)
Theorem one_shot_completion n s :
  reachable n s →
  (∀ t h, t ∈ enq_log s → h ∈ task_handles t →
     match shared_states s !! h with
     | Some Pending => ops_on h (op_log s) = []
     | Some (Ready _) => ops_on h (op_log s) = [(h, SetValue)]
     | Some (Failed _) => ops_on h (op_log s) = [(h, SetException)]
     | None => False
     end) ∧
  (∀ t, t ∈ ran_log s →
     t ∈ enq_log s ∧ task_settled (shared_states s) t ∧
     ∀ h, h ∈ task_handles t →
       ops_on h (op_log s) = [(h, outcome_op (task_callback t))]) ∧
  (∀ t, t ∈ enq_log s → t ∉ ran_log s →
     task_pending (shared_states s) t ∧
     ∀ h, h ∈ task_handles t → ops_on h (op_log s) = []) ∧
  op_log s = ran_log s ≫= task_ops ∧
  NoDup (deq_log s) ∧ NoDup (ran_log s) ∧
  (∀ l s' h c,
     step l s = Some s' → shared_states s !! h = Some c → settled c = true →
     shared_states s' !! h = Some c) ∧
  (life s = Alive →
   ∃ k w s', run (replicate k (Worker w)) s = Some s' ∧ ran_log s' = enq_log s).
Proof.
  intros Hr. pose proof (reachable_inv _ _ Hr) as I.
  destruct (inv_l _ I) as [L1 L2]. destruct (inv_p _ I) as [_ _ Pr Pp Po _].
  destruct (NoDup_sub_log _ I) as (Hnr & Hnd & Hnn & Hfresh).
  assert (Hran : ∀ t, t ∈ ran_log s →
    t ∈ enq_log s ∧ task_settled (shared_states s) t ∧
    ∀ h, h ∈ task_handles t →
      ops_on h (op_log s) = [(h, outcome_op (task_callback t))]).
  { intros t Ht. split_and!.
    - rewrite L1, L2, <-(assoc (++)). apply elem_of_app. by left.
    - by apply Pr.
    - intros h Hh. apply ops_on_unique; [by rewrite Po, bind_task_ops_handles|].
      rewrite Po. apply list_elem_of_bind. exists t. split; [|done].
      unfold task_ops. apply list_elem_of_fmap. by exists h. }
  assert (Hnot : ∀ t, t ∈ enq_log s → t ∉ ran_log s →
    task_pending (shared_states s) t ∧
    ∀ h, h ∈ task_handles t → ops_on h (op_log s) = []).
  { intros t Ht Hn. rewrite L1, L2, <-(assoc (++)) in Ht.
    apply elem_of_app in Ht as [Ht|Ht]; [done|]. split; [by apply Pp|].
    intros h Hh. apply ops_on_none. rewrite Po, bind_task_ops_handles.
    by eapply Hfresh. }
  split_and!; try done.
  - intros t h Ht Hh. destruct (decide (t ∈ ran_log s)) as [Hin|Hin].
    + destruct (Hran t Hin) as (_ & Hs & Hu). rewrite (Hu h Hh).
      destruct t as [cb p|cb p vp]; cbn in *.
      * apply list_elem_of_singleton in Hh as ->. rewrite Hs. by destruct cb.
      * destruct Hs as [Hs1 Hs2].
        apply elem_of_two in Hh as [-> | ->]; rewrite ?Hs1, ?Hs2; by destruct cb.
    + destruct (Hnot t Ht Hin) as [Hp Hu]. by rewrite (Hp h Hh), (Hu h Hh).
  - intros l s' h c Hs. by apply (step_grow _ _ _ Hs).
  - intros Ha. destruct (worker_settles s I Ha) as (k & w & s' & Hrun & _ & _ & Hran' & _).
    by exists k, w, s'.
Qed.

Lemma one_shot_completion_witness :
  Untyped bad_task 1 ∈ enq_log st_stopped ∧
  task_settled (shared_states st_stopped) (Untyped bad_task 1) ∧
  ∀ h, h ∈ task_handles (Untyped bad_task 1) →
    ops_on h (op_log st_stopped) =
      [(h, outcome_op (task_callback (Untyped bad_task 1)))].
Proof.
  destruct (one_shot_completion 1 st_stopped) as (_ & H & _).
  - exists (two_posts ++ Call 0 Stop :: stop_schedule). reflexivity.
  - apply (H (Untyped bad_task 1)).
    apply list_elem_of_further, list_elem_of_here.
Defined.

(** X4. From every reachable state of a live executor the worker thread
    alone, with no further call by anybody, runs every task that has
    been submitted and empties the queue: a submitted task is never left
    without a worker to run it. *)
Theorem no_task_is_stranded n s :
  reachable n s → life s = Alive →
  ∃ k w s', run (replicate k (Worker w)) s = Some s' ∧
    life s' = Alive ∧ ran_log s' = enq_log s ∧ callbacks_ s' = [] ∧
    (∀ t, t ∈ enq_log s → executed s' t).
Proof.
  intros Hr Ha.
  destruct (worker_settles s (reachable_inv _ _ Hr) Ha)
    as (k & w & s' & Hrun & Ha' & I' & Hran & Hq & _).
  exists k, w, s'. split_and!; try done.
  intros t Ht. rewrite <-Hran in Ht. split; [done|]. by apply I'.
Qed.

Lemma no_task_is_stranded_witness :
  ∃ k w s', run (replicate k (Worker w)) st_two_posts = Some s' ∧
    life s' = Alive ∧ ran_log s' = enq_log st_two_posts ∧ callbacks_ s' = [] ∧
    (∀ t, t ∈ enq_log st_two_posts → executed s' t).
Proof.
  apply (no_task_is_stranded 1 st_two_posts).
  - exists two_posts. reflexivity.
  - reflexivity.
Defined.

(** ** WaitAll() comes back *)

Lemma WaitAllLoop_finishes c fs s :
  life s = Alive → callers s !! c = Some (WaitAllLoop fs) →
  (∀ h, h ∈ fs → future_ready (shared_states s) h = true) →
  ∃ s', run (replicate (S (length fs)) (Resume c)) s = Some s' ∧
    callers s' !! c = Some Idle ∧ life s' = Alive.
Proof.
  revert s. induction fs as [|f fs IH]; intros s Ha Hc Hrd.
  - assert (Hlt : c < length (callers s)) by (by eapply lookup_lt_Some).
    eexists. split.
    + cbn. unfold step. rewrite Ha, Hc. cbn. done.
    + split; [|done]. cbn. by apply list_lookup_insert_eq.
  - assert (Hlt : c < length (callers s)) by (by eapply lookup_lt_Some).
    destruct (IH (set_caller c (WaitAllLoop fs) s)) as (s' & Hrun & Hc' & Ha'); try done.
    + cbn. by apply list_lookup_insert_eq.
    + intros h Hh. cbn. apply Hrd. by apply list_elem_of_further.
    + exists s'. split; [|done].
      change (replicate (S (length (f :: fs))) (Resume c))
        with (Resume c :: replicate (S (length fs)) (Resume c)).
      cbn [run]. unfold step at 1. rewrite Ha, Hc. cbn [mbind option_bind resume_step].
      rewrite (Hrd f) by apply list_elem_of_here. exact Hrun.
Qed.

Lemma settled_ready st t : task_settled st t → future_ready st (registered t) = true.
Proof.
  unfold future_ready. destruct t as [cb p|cb p vp]; cbn.
  - intros ->. by destruct cb.
  - intros [_ ->]. by destruct cb.
Qed.

Lemma registry_ready s :
  inv s → ran_log s = enq_log s →
  ∀ h, h ∈ pending_futures_ s → future_ready (shared_states s) h = true.
Proof.
  intros I Hran h Hh.
  destruct (ip_registry _ (inv_p _ I) _ Hh) as (t & Ht & <-).
  apply settled_ready. apply I. by rewrite Hran.
Qed.

(** X5. With tasks that return or throw without calling the executor
    themselves, [WaitAll()] cannot block for ever: from every reachable
    state of a live executor in which a thread is free to call it, the
    call returns on a schedule on which only the worker and that thread
    move, with no further call by anybody. *)
Theorem WaitAll_can_return n s c :
  reachable n s → life s = Alive → callers s !! c = Some Idle →
  ∃ k w s',
    run (Call c WaitAll :: replicate k (Worker w) ++
         replicate (S (length (pending_futures_ s))) (Resume c)) s = Some s' ∧
    callers s' !! c = Some Idle ∧ life s' = Alive.
Proof.
  intros Hr Ha Hc. pose proof (reachable_inv _ _ Hr) as I.
  assert (Hlt : c < length (callers s)) by (by eapply lookup_lt_Some).
  set (s1 := WaitAll_locked c s).
  assert (Hs1 : step (Call c WaitAll) s = Some s1).
  { unfold step. by rewrite Ha, Hc. }
  assert (I1 : inv s1) by (by eapply step_inv).
  destruct (worker_settles s1 I1 Ha)
    as (k & w & s2 & Hrun & Ha2 & I2 & Hran & Hq & Hc2 & _ & _ & _ & He2).
  destruct (WaitAllLoop_finishes c (pending_futures_ s) s2) as (s3 & Hrun3 & Hc3 & Ha3);
    try done.
  - rewrite Hc2. cbn. by apply list_lookup_insert_eq.
  - intros h Hh. destruct (ip_registry _ (inv_p _ I) _ Hh) as (t & Ht & <-).
    apply settled_ready. apply I2. by rewrite Hran.
  - exists k, w, s3. split; [|done].
    cbn [run]. rewrite Hs1. cbn [mbind option_bind].
    by rewrite run_app, Hrun.
Qed.

Lemma WaitAll_can_return_witness :
  ∃ k w s',
    run (Call 0 WaitAll :: replicate k (Worker w) ++
         replicate (S (length (pending_futures_ st_two_posts))) (Resume 0))
      st_two_posts = Some s' ∧
    callers s' !! 0 = Some Idle ∧ life s' = Alive.
Proof.
  apply (WaitAll_can_return 1 st_two_posts 0).
  - exists two_posts. reflexivity.
  - reflexivity.
  - reflexivity.
Defined.

(** ** A stopped executor, and GetPendingCount() *)

(** X6. While the executor is stopped (as constructed, or as a [Stop()]
    that joined the worker leaves it) no thread is inside [WorkerLoop],
    nobody is inside [Stop()], the queue is empty, every task that was
    ever submitted has run and every future in the registry is ready, so
    that a [WaitAll()] has nothing to wait for. *)
Theorem stopped_executor_is_idle n s :
  reachable n s → life s ≠ Terminated → Stopped s →
  GetPendingCount_locked s = 0 ∧
  ran_log s = enq_log s ∧
  (∀ w pc, threads s !! w = Some pc → pc = WDone) ∧
  (∀ c pc, callers s !! c = Some pc → in_stop pc = false) ∧
  (∀ h, h ∈ pending_futures_ s → future_ready (shared_states s) h = true).
Proof.
  intros Hr Hl [Hrun Hw]. pose proof (reachable_inv _ _ Hr) as I.
  assert (It : inv_threads s) by (by apply I).
  pose proof (reachable_stop _ _ Hr Hl) as K.
  assert (Hran : ran_log s = enq_log s).
  { symmetry. by eapply drained_not_joinable; [|apply I|]. }
  split_and!; try done.
  - unfold GetPendingCount_locked. by rewrite (it_none _ It Hw).
  - intros w pc Hpc. destruct (decide (pc = WDone)) as [|Hne]; [done|].
    pose proof (it_unique _ It _ _ Hpc Hne). congruence.
  - intros c pc Hc. destruct (in_stop pc) eqn:Hin; [|done].
    destruct (is_window _ K _ _ Hc Hin) as [_ [w Hw']]. congruence.
  - by apply registry_ready.
Qed.

Lemma stopped_executor_is_idle_witness :
  GetPendingCount_locked st_stopped = 0 ∧ ran_log st_stopped = enq_log st_stopped.
Proof.
  destruct (stopped_executor_is_idle 1 st_stopped) as (H1 & H2 & _).
  - exists (two_posts ++ Call 0 Stop :: stop_schedule). reflexivity.
  - discriminate.
  - split; reflexivity.
  - by split.
Defined.

(** X7. [GetPendingCount()] is the number of tasks that were submitted
    and that the worker has not yet taken out of the queue. The task
    that the worker is executing is not counted: the number of tasks
    that have not finished is [GetPendingCount()] or one more. *)
Theorem GetPendingCount_counts_queued n s :
  reachable n s →
  GetPendingCount_locked s + length (deq_log s) = length (enq_log s) ∧
  length (ran_log s) + length (executing s) + GetPendingCount_locked s
    = length (enq_log s) ∧
  length (executing s) ≤ 1.
Proof.
  intros Hr. destruct (inv_l _ (reachable_inv _ _ Hr)) as [L1 L2].
  unfold GetPendingCount_locked. split_and!.
  - rewrite L1, length_app. lia.
  - rewrite L1, L2, !length_app. lia.
  - unfold executing. repeat case_match; cbn; lia.
Qed.

Lemma GetPendingCount_counts_queued_witness :
  GetPendingCount_locked st_failing + length (deq_log st_failing)
    = length (enq_log st_failing) ∧
  length (ran_log st_failing) + length (executing st_failing)
    + GetPendingCount_locked st_failing = length (enq_log st_failing) ∧
  length (executing st_failing) ≤ 1.
Proof.
  apply (GetPendingCount_counts_queued 1 st_failing).
  exists failing_run. reflexivity.
Defined.

(** ** No completion signal is lost *)

Lemma step_registry l s s' :
  step l s = Some s' →
  pending_futures_ s ⊆ pending_futures_ s' ∨
  (∃ c, callers s' !! c = Some (WaitAllLoop (pending_futures_ s))) ∨
  life s' = Destroyed.
Proof.
  intros H. pose proof (step_alive _ _ _ H) as Ha.
  unfold step in H. rewrite Ha in H.
  destruct l as [w|c f|c]; simplify_option_eq.
  - left. rename H0 into pc.
    destruct pc; cbn in H; repeat case_match; simplify_eq; cbn; try done.
    all: unfold inner_loop; by destruct (callbacks_ s).
  - destruct (callers s !! c) as [[]|] eqn:Hc; simplify_eq.
    assert (Hlt : c < length (callers s)) by (by eapply lookup_lt_Some).
    destruct (start_if_stopped_fields (make_promise s)) as (_ & _ & F3 & _ & _).
    cbn in F3.
    destruct f; cbn; unfold Stop_locked, Post_locked, PostT_locked.
    + left. by destruct (StartUnlocked_fields s) as (_ & _ & -> & _).
    + left. by destruct (running_ s).
    + left. destruct (life (start_if_stopped _)); cbn; rewrite F3; try done.
      intros h Hh. apply elem_of_app. by left.
    + left. destruct (life (start_if_stopped _)); cbn; rewrite F3; try done.
      intros h Hh. apply elem_of_app. by left.
    + right. left. exists c. by apply list_lookup_insert_eq.
    + by left.
    + left. by destruct (running_ s).
  - rename H0 into pc.
    destruct pc; cbn in H; repeat case_match; simplify_eq; cbn; auto.
Qed.

Lemma step_enq_registered l s s' t :
  step l s = Some s' → t ∈ enq_log s' →
  t ∈ enq_log s ∨ registered t ∈ pending_futures_ s'.
Proof.
  intros H Ht. pose proof (step_alive _ _ _ H) as Ha.
  unfold step in H. rewrite Ha in H.
  destruct l as [w|c f|c]; simplify_option_eq.
  - left. by destruct (WorkerLoop_step_grow _ _ _ _ H) as (<- & _).
  - destruct (callers s !! c) as [[]|] eqn:Hc; simplify_eq.
    destruct (start_if_stopped_fields (make_promise s)) as (_ & F2 & F3 & _ & _).
    cbn in F2, F3.
    destruct f; cbn in Ht |- *; unfold Stop_locked, Post_locked, PostT_locked in *.
    + left. by destruct (StartUnlocked_fields s) as (_ & <- & _).
    + left. by destruct (running_ s).
    + destruct (life (start_if_stopped _)); cbn in Ht |- *; rewrite ?F2, ?F3 in *;
        try by left.
      apply elem_of_app in Ht as [?| ->%list_elem_of_singleton]; [by left|].
      right. apply elem_of_app. right. apply list_elem_of_here.
    + destruct (life (start_if_stopped _)); cbn in Ht |- *; rewrite ?F2, ?F3 in *;
        try by left.
      apply elem_of_app in Ht as [?| ->%list_elem_of_singleton]; [by left|].
      right. apply elem_of_app. right. apply list_elem_of_here.
    + by left.
    + by left.
    + left. by destruct (running_ s).
  - left. by destruct (resume_step_grow _ _ _ _ H) as (<- & _).
Qed.

Lemma awaited_step l s s' h :
  inv s → step l s = Some s' → awaited s h → awaited s' h.
Proof.
  intros I H [Hreg|[(c0 & fs & Hc0 & Hin)|Hrd]].
  - destruct (step_registry _ _ _ H) as [Hsub|[[c Hc]|Hd]].
    + left. by apply Hsub.
    + right. left. eauto.
    + right. right.
      destruct (ip_registry _ (inv_p _ I) _ Hreg) as (t & Ht & <-).
      assert (I' : inv s') by (by eapply step_inv).
      destruct (destroyed_drained _ I' Hd) as (He & _).
      destruct (step_grow _ _ _ H) as (E1 & _).
      apply settled_ready. apply I'. rewrite <-He. by eapply elem_of_prefix.
  - destruct (decide (label_caller l = Some c0)) as [Hl|Hl].
    + pose proof (step_alive _ _ _ H) as Ha. pose proof H as H'.
      unfold step in H'. rewrite Ha in H'.
      destruct l as [w|c f|c]; cbn in Hl; simplify_eq.
      * by rewrite Hc0 in H'.
      * rewrite Hc0 in H'. cbn in H'.
        assert (Hlt : c0 < length (callers s)) by (by eapply lookup_lt_Some).
        destruct fs as [|f rest]; [by apply elem_of_nil in Hin|].
        destruct (future_ready (shared_states s) f) eqn:Hf; simplify_eq.
        apply elem_of_cons in Hin as [->|Hin]; [by right; right|].
        right. left. exists c0, rest. split; [|done]. cbn.
        by apply list_lookup_insert_eq.
    + right. left. exists c0, fs. split; [|done].
      by rewrite (step_callers _ _ _ _ H Hl).
  - right. right. by eapply future_ready_step.
Qed.

Lemma step_registry_inv l s s' :
  inv s → step l s = Some s' → inv_registry s → inv_registry s'.
Proof.
  intros I H J t Ht. destruct (step_enq_registered _ _ _ _ H Ht) as [Ht0|Hreg].
  - eapply awaited_step; [done..|]. by apply J.
  - by left.
Qed.

Lemma run_registry_inv sched s s' :
  inv s → run sched s = Some s' → inv_registry s → inv_registry s'.
Proof.
  revert s. induction sched as [|l sched IH]; intros s I H J.
  - by simplify_eq/=.
  - cbn in H. destruct (step l s) as [s1|] eqn:Hs; [|done]. cbn in H.
    eapply (IH s1); [by eapply step_inv|done|]. by eapply step_registry_inv.
Qed.

Lemma reachable_registry n s : reachable n s → inv_registry s.
Proof.
  intros [sched H]. eapply run_registry_inv; [apply inv_init|done|].
  intros t Ht. by apply elem_of_nil in Ht.
Qed.

(** X8. The completion signal of a submitted task is never lost: in every
    reachable state the future registered for it is in the registry, or
    in the copy that some thread inside [WaitAll()] still has to wait
    for, or it is already ready. *)
Theorem completion_signal_is_kept n s t :
  reachable n s → t ∈ enq_log s →
  registered t ∈ pending_futures_ s ∨
  (∃ c fs, callers s !! c = Some (WaitAllLoop fs) ∧ registered t ∈ fs) ∨
  future_ready (shared_states s) (registered t) = true.
Proof. intros Hr Ht. by apply (reachable_registry n s Hr t Ht). Qed.

Lemma completion_signal_is_kept_witness :
  registered (Untyped ok_task 0) ∈ pending_futures_ st_second_returned ∨
  (∃ c fs, callers st_second_returned !! c = Some (WaitAllLoop fs) ∧
           registered (Untyped ok_task 0) ∈ fs) ∨
  future_ready (shared_states st_second_returned) (registered (Untyped ok_task 0)) = true.
Proof.
  apply (completion_signal_is_kept 2 st_second_returned).
  - exists (first_waits ++ Call 1 WaitAll :: second_returns). reflexivity.
  - apply list_elem_of_here.
Defined.

(** X9. A [WaitAll()] that is called while no other thread is inside
    [WaitAll()] is a barrier for everything submitted so far: when it has
    returned, every task that had been submitted before the call has run. *)
Theorem WaitAll_alone_is_a_barrier n sched0 s c s1 sched s2 :
  run sched0 (init n) = Some s →
  no_WaitAll s →
  step (Call c WaitAll) s = Some s1 →
  run sched s1 = Some s2 →
  callers s2 !! c = Some Idle →
  ∀ t, t ∈ enq_log s → executed s2 t.
Proof.
  intros Hreach Hno Hcall Hrun Hc t Ht.
  assert (Hr : reachable n s) by (by exists sched0).
  pose proof (reachable_inv _ _ Hr) as I.
  assert (I1 : inv s1) by (by eapply step_inv).
  assert (I2 : inv s2) by (by eapply run_inv).
  assert (Hc1 : callers s1 !! c = Some (WaitAllLoop (pending_futures_ s))).
  { unfold step in Hcall. destruct (life s); [|done..].
    destruct (callers s !! c) as [[]|] eqn:Hcs; simplify_eq. cbn.
    apply list_lookup_insert_eq. by eapply lookup_lt_Some. }
  assert (Hrd : future_ready (shared_states s2) (registered t) = true).
  { destruct (reachable_registry _ _ Hr t Ht) as [Hreg|[(c0 & fs & Hc0 & _)|Hrd]].
    - destruct (WaitAll_run sched s1 s2 c (pending_futures_ s) Hrun)
        with (h := registered t) as [?|(fs & Hc' & _)]; [|done|done|congruence].
      intros h' Hh'. right. eauto.
    - by destruct (Hno c0 fs).
    - destruct (step_grow _ _ _ Hcall) as (_ & _ & _ & S1).
      destruct (run_grow _ _ _ Hrun) as (_ & _ & _ & S2).
      unfold future_ready in *.
      destruct (shared_states s !! registered t) as [k|] eqn:Hk; [|done].
      by rewrite (S2 _ k (S1 _ k Hk Hrd) Hrd). }
  assert (Ht2 : t ∈ enq_log s2).
  { destruct (step_grow _ _ _ Hcall) as (E1 & _).
    destruct (run_grow _ _ _ Hrun) as (E2 & _).
    eapply elem_of_prefix; [|done]. by eapply elem_of_prefix. }
  destruct (task_ran_or_pending _ _ I2 Ht2) as [[Hran Hs]|[_ Hp]]; [done|].
  destruct (future_of_pending _ _ Hp) as [Hf _]. congruence.
Qed.

Lemma WaitAll_alone_is_a_barrier_witness :
  executed st_wait_returned (Untyped ok_task 0).
Proof.
  apply (WaitAll_alone_is_a_barrier 2 post_then_wait st_posted_one 0 st_wait_called
           late_post st_wait_returned).
  - reflexivity.
  - intros c fs. destruct c as [|[|c]]; discriminate.
  - reflexivity.
  - reflexivity.
  - reflexivity.
  - apply list_elem_of_here.
Defined.

(** ** What a WaitAll() takes and waits for *)

Lemma inv_recent_push s s' t :
  enq_log s' = enq_log s ++ [t] →
  pending_futures_ s' = pending_futures_ s ++ [registered t] →
  inv_recent s → inv_recent s'.
Proof.
  intros He Hp (k & Hk & E). exists k. rewrite He, Hp, E, length_app. split; [lia|].
  by rewrite drop_app_le, fmap_app by done.
Qed.

Lemma inv_recent_clear s s' :
  enq_log s' = enq_log s → pending_futures_ s' = [] → inv_recent s'.
Proof.
  intros He Hp. exists (length (enq_log s')). split; [done|].
  by rewrite Hp, drop_all.
Qed.

Lemma inv_recent_frame s s' :
  enq_log s' = enq_log s → pending_futures_ s' = pending_futures_ s →
  inv_recent s → inv_recent s'.
Proof. intros He Hp (k & Hk & E). exists k. by rewrite He, Hp. Qed.

Lemma step_recent l s s' : step l s = Some s' → inv_recent s → inv_recent s'.
Proof.
  intros H J. pose proof (step_alive _ _ _ H) as Ha.
  unfold step in H. rewrite Ha in H.
  destruct l as [w|c f|c].
  - destruct (threads s !! w) as [pc|]; [|done]. cbn in H.
    eapply inv_recent_frame; [| |done].
    + by destruct (WorkerLoop_step_grow _ _ _ _ H) as (-> & _).
    + destruct pc; cbn in H; repeat case_match; simplify_eq; cbn; try done.
      all: unfold inner_loop; by destruct (callbacks_ s).
  - destruct (callers s !! c) as [[]|] eqn:Hc; simplify_eq.
    destruct (start_if_stopped_fields (make_promise s)) as (_ & F2 & F3 & _ & _).
    cbn in F2, F3.
    destruct f; cbn; unfold Stop_locked, Post_locked, PostT_locked.
    + destruct (StartUnlocked_fields s) as (_ & E2 & E3 & _). by eapply inv_recent_frame.
    + eapply inv_recent_frame; [| |done]; by destruct (running_ s).
    + destruct (life (start_if_stopped _)) eqn:Hl.
      * eapply (inv_recent_push s _ (Untyped callback (length (shared_states s))));
          [| |done]; cbn; by rewrite ?F2, ?F3.
      * by eapply inv_recent_frame.
      * by eapply inv_recent_frame.
    + destruct (life (start_if_stopped _)) eqn:Hl.
      * eapply (inv_recent_push s _ (Typed callback (length (shared_states s)) _));
          [| |done]; cbn; by rewrite ?F2, ?F3.
      * by eapply inv_recent_frame.
      * by eapply inv_recent_frame.
    + by eapply (inv_recent_clear s).
    + done.
    + eapply inv_recent_frame; [| |done]; by destruct (running_ s).
  - destruct (callers s !! c) as [pc|]; [|done]. cbn in H.
    destruct pc; cbn in H; repeat case_match; simplify_eq;
      try (by eapply inv_recent_frame).
    by eapply (inv_recent_clear s).
Qed.

Lemma run_recent sched s s' : run sched s = Some s' → inv_recent s → inv_recent s'.
Proof.
  revert s. induction sched as [|l sched IH]; intros s H J; [by simplify_eq/=|].
  cbn in H. destruct (step l s) as [s1|] eqn:Hs; [|done]. cbn in H.
  eapply IH; [done|]. by eapply step_recent.
Qed.

Lemma inv_recent_init n : inv_recent (init n).
Proof. by exists 0. Qed.

(** X15. A call of [WaitAll()] takes the whole registry and leaves it
    empty, and when it has returned every future that it took is ready,
    with any number of threads inside [WaitAll()]. The registry it took
    held the completion futures of the tasks submitted last (those
    submitted since the registry was emptied), and each of these tasks
    has been run. *)
Theorem WaitAll_waits_for_its_copy n sched0 s c s1 sched s2 :
  run sched0 (init n) = Some s →
  step (Call c WaitAll) s = Some s1 →
  run sched s1 = Some s2 →
  callers s2 !! c = Some Idle →
  callers s1 !! c = Some (WaitAllLoop (pending_futures_ s)) ∧
  pending_futures_ s1 = [] ∧
  (∀ h, h ∈ pending_futures_ s → future_ready (shared_states s2) h = true) ∧
  ∃ k, k ≤ length (enq_log s) ∧
    pending_futures_ s = registered <$> drop k (enq_log s) ∧
    ∀ t, t ∈ drop k (enq_log s) → executed s2 t.
Proof.
  intros Hreach Hcall Hrun Hc.
  assert (I : inv s) by (apply (reachable_inv n); by exists sched0).
  assert (I2 : inv s2) by (eapply run_inv; [done|]; by eapply step_inv).
  assert (H1 : callers s1 !! c = Some (WaitAllLoop (pending_futures_ s)) ∧
               pending_futures_ s1 = []).
  { unfold step in Hcall. destruct (life s); [|done..].
    destruct (callers s !! c) as [[]|] eqn:Hcs; simplify_eq. cbn.
    split; [|done]. apply list_lookup_insert_eq. by eapply lookup_lt_Some. }
  assert (H2 : ∀ h, h ∈ pending_futures_ s → future_ready (shared_states s2) h = true).
  { intros h Hh.
    destruct (WaitAll_run sched s1 s2 c (pending_futures_ s) Hrun) with (h := h)
      as [Hrd|(fs & Hc' & _)]; [|done|done|congruence].
    intros h' Hh'. right. exists (pending_futures_ s). by destruct H1. }
  split_and!; [apply H1..|done|].
  destruct (run_recent _ _ _ Hreach (inv_recent_init n)) as (k & Hk & E).
  exists k. split_and!; [done..|]. intros t Ht.
  assert (Hin : t ∈ enq_log s2).
  { destruct (step_grow _ _ _ Hcall) as (E1 & _).
    destruct (run_grow _ _ _ Hrun) as (E2 & _).
    eapply elem_of_prefix; [|done]. eapply elem_of_prefix; [|done].
    rewrite <-(take_drop k (enq_log s)). apply elem_of_app. by right. }
  assert (Hrd : future_ready (shared_states s2) (registered t) = true).
  { apply H2. rewrite E. apply list_elem_of_fmap. by exists t. }
  destruct (task_ran_or_pending _ _ I2 Hin) as [?|[_ Hp]]; [done|].
  destruct (future_of_pending _ _ Hp) as [Hf _]. congruence.
Qed.

Lemma WaitAll_waits_for_its_copy_witness :
  callers st_wait_called !! 0 = Some (WaitAllLoop (pending_futures_ st_posted_one)) ∧
  pending_futures_ st_wait_called = [] ∧
  (∀ h, h ∈ pending_futures_ st_posted_one →
     future_ready (shared_states st_wait_returned) h = true) ∧
  ∃ k, k ≤ length (enq_log st_posted_one) ∧
    pending_futures_ st_posted_one = registered <$> drop k (enq_log st_posted_one) ∧
    ∀ t, t ∈ drop k (enq_log st_posted_one) → executed st_wait_returned t.
Proof.
  apply (WaitAll_waits_for_its_copy 2 post_then_wait st_posted_one 0 st_wait_called
           late_post st_wait_returned); reflexivity.
Defined.

(** ** A wrapper that finds a promise satisfied *)

Lemma set_value_result p v st log σ r :
  set_value p v (st, log) = (σ, r) →
  match r with
  | inl _ => st !! p = Some Pending ∧ σ.1 = <[p := Ready v]> st
  | inr e => st !! p ≠ Some Pending ∧ σ.1 = st ∧
             (e = promise_already_satisfied ∨ e = no_state)
  end.
Proof.
  unfold set_value. destruct (st !! p) as [[]|]; intros; simplify_eq; cbn; eauto.
Qed.

Lemma set_exception_result p e0 st log σ r :
  set_exception p e0 (st, log) = (σ, r) →
  match r with
  | inl _ => st !! p = Some Pending ∧ σ.1 = <[p := Failed e0]> st
  | inr e => st !! p ≠ Some Pending ∧ σ.1 = st ∧
             (e = promise_already_satisfied ∨ e = no_state)
  end.
Proof.
  unfold set_exception. destruct (st !! p) as [[]|]; intros; simplify_eq; cbn; eauto.
Qed.

Lemma insert_not_pending p c (st : list shared_state) :
  c ≠ Pending → <[p := c]> st !! p ≠ Some Pending.
Proof.
  intros Hc H. apply list_lookup_insert_Some in H as [(_ & ? & _)|[? _]]; done.
Qed.

(** X14. The lambda that wraps a callback returns normally exactly when
    every promise it holds is still pending. Otherwise the handler of its
    [catch (...)] throws itself, and what leaves the lambda is the
    [future_error] of the promise, never the exception of the callback. *)
Theorem wrapper_returns_iff_pending t st log :
  NoDup (task_handles t) →
  ((∃ σ, run_task t (st, log) = (σ, inl ())) ↔ task_pending st t) ∧
  (∀ σ e, run_task t (st, log) = (σ, inr e) →
     e = promise_already_satisfied ∨ e = no_state).
Proof.
  intros Hnd. split; [split|].
  - intros [σ H]. destruct t as [cb p|cb p vp]; destruct cb as [v|e];
      unfold run_task, try_catch, mbind, Exc_bind, invoke, mret, Exc_ret, throw in H.
    + destruct (set_value p VVoid (st, log)) as [[st1 log1] [[]|e1]] eqn:H1.
      * apply set_value_result in H1 as [H1 _].
        intros h ->%list_elem_of_singleton. done.
      * apply set_value_result in H1 as (H1 & E1 & _). cbn in E1. subst st1.
        apply set_exception_result in H as [H _]. done.
    + apply set_exception_result in H as [H _].
      intros h ->%list_elem_of_singleton. done.
    + destruct (set_value p v (st, log)) as [[st1 log1] [[]|e1]] eqn:H1.
      * apply set_value_result in H1 as [H1 E1]. cbn in E1. subst st1.
        destruct (set_value vp VVoid _) as [[st2 log2] [[]|e2]] eqn:H2.
        -- apply set_value_result in H2 as [H2 _].
           intros h [-> | ->]%elem_of_two; [done|].
           apply list_lookup_insert_Some in H2 as [(_ & ? & _)|[_ H2]]; done.
        -- apply set_value_result in H2 as (_ & E2 & _). cbn in E2. subst st2.
           destruct (set_exception p e2 _) as [[st3 log3] [[]|e3]] eqn:H3.
           ++ apply set_exception_result in H3 as [H3 _].
              by apply insert_not_pending in H3.
           ++ done.
      * apply set_value_result in H1 as (H1 & E1 & _). cbn in E1. subst st1.
        destruct (set_exception p e1 _) as [[st3 log3] [[]|e3]] eqn:H3.
        -- by apply set_exception_result in H3 as [H3 _].
        -- done.
    + destruct (set_exception p e (st, log)) as [[st1 log1] [[]|e1]] eqn:H1.
      * apply set_exception_result in H1 as [H1 E1]. cbn in E1. subst st1.
        apply set_exception_result in H as [H2 _].
        intros h [-> | ->]%elem_of_two; [done|].
        apply list_lookup_insert_Some in H2 as [(_ & ? & _)|[_ H2]]; done.
      * done.
  - intros Hp. rewrite (run_task_pending _ _ _ Hp Hnd). eauto.
  - intros σ e0 H. destruct t as [cb p|cb p vp]; destruct cb as [v|e];
      unfold run_task, try_catch, mbind, Exc_bind, invoke, mret, Exc_ret, throw in H.
    + destruct (set_value p VVoid (st, log)) as [[st1 log1] [[]|e1]] eqn:H1; [done|].
      by apply set_exception_result in H as (_ & _ & H).
    + by apply set_exception_result in H as (_ & _ & H).
    + destruct (set_value p v (st, log)) as [[st1 log1] [[]|e1]] eqn:H1.
      * destruct (set_value vp VVoid _) as [[st2 log2] [[]|e2]] eqn:H2; [done|].
        destruct (set_exception p e2 _) as [[st3 log3] [[]|e3]] eqn:H3.
        -- by apply set_exception_result in H as (_ & _ & H).
        -- apply set_exception_result in H3 as (_ & _ & H3). by simplify_eq.
      * destruct (set_exception p e1 _) as [[st3 log3] [[]|e3]] eqn:H3.
        -- by apply set_exception_result in H as (_ & _ & H).
        -- apply set_exception_result in H3 as (_ & _ & H3). by simplify_eq.
    + destruct (set_exception p e (st, log)) as [[st1 log1] [[]|e1]] eqn:H1.
      * by apply set_exception_result in H as (_ & _ & H).
      * apply set_exception_result in H1 as (_ & _ & H1). by simplify_eq.
Qed.

Lemma wrapper_returns_iff_pending_witness :
  ((∃ σ, run_task (Untyped ok_task 0) ([Pending], []) = (σ, inl ())) ↔
   task_pending [Pending] (Untyped ok_task 0)) ∧
  (∀ σ e, run_task (Untyped ok_task 0) ([Pending], []) = (σ, inr e) →
     e = promise_already_satisfied ∨ e = no_state).
Proof.
  apply (wrapper_returns_iff_pending (Untyped ok_task 0) [Pending] []).
  cbn. apply NoDup_singleton.
Defined.

(** ** The test programs *)

Lemma expect_unwind r fs : expect (unwind r) fs = [].
Proof.
  induction r as [|st r IH]; [done|]. destruct st as [[]| |]; cbn; done.
Qed.

Lemma future_matches_mono s s' fs afs :
  enq_log s `prefix_of` enq_log s' →
  Forall2 (future_matches s) fs afs → Forall2 (future_matches s') fs afs.
Proof.
  intros Hp HF. eapply Forall2_impl; [done|]. intros [p|] [cb|]; cbn; try done.
  intros [vp H]. exists vp. by eapply elem_of_prefix.
Qed.

Lemma reachable_step n l s s' : reachable n s → step l s = Some s' → reachable n s'.
Proof.
  intros [sched H] Hs. exists (sched ++ [l]). rewrite run_app, H. cbn. by rewrite Hs.
Qed.

Lemma single_user_alive s : reachable 1 s → life s ≠ Terminated.
Proof.
  intros [sched H]. eapply (single_user_run sched (init 1) s); try done.
  - apply inv_init.
  - apply inv_stop_init.
Qed.

Lemma call_step_not_destroyed c f s :
  life s = Alive → life (call_step c f s) ≠ Destroyed.
Proof.
  intros Ha.
  assert (H1 : ∀ s0, life s0 = Alive → life (StartUnlocked s0) ≠ Destroyed).
  { intros s0 Ha0. unfold StartUnlocked. destruct (running_ s0); [congruence|].
    cbn. destruct (worker_thread_ s0); cbn; congruence. }
  assert (H2 : life (start_if_stopped (make_promise s)) ≠ Destroyed).
  { unfold start_if_stopped. destruct (running_ _); [cbn; congruence|]. by apply H1. }
  destruct f; cbn; unfold Stop_locked, Post_locked, PostT_locked, WaitAll_locked.
  - by apply H1.
  - destruct (running_ s); cbn; by rewrite Ha.
  - destruct (life (start_if_stopped _)) eqn:Hl; cbn; rewrite ?Hl; congruence.
  - destruct (life (start_if_stopped _)) eqn:Hl; cbn; rewrite ?Hl; congruence.
  - cbn. by rewrite Ha.
  - by rewrite Ha.
  - destruct (running_ s); cbn; by rewrite Ha.
Qed.

Lemma Post_locked_given c cb s :
  c < length (callers s) → life (Post_locked c cb s) = Alive →
  callers (Post_locked c cb s) !! c = Some (PostNotify None).
Proof.
  intros Hc. unfold Post_locked.
  destruct (start_if_stopped_fields (make_promise s)) as (_ & _ & _ & _ & F5).
  destruct (life (start_if_stopped _)) eqn:Hl; cbn; rewrite ?Hl; try done.
  intros _. rewrite F5. by apply list_lookup_insert_eq.
Qed.

Lemma PostT_locked_given c cb s :
  c < length (callers s) → life (PostT_locked c cb s) = Alive →
  callers (PostT_locked c cb s) !! c = Some (PostNotify (Some (length (shared_states s)))) ∧
  ∃ vp, Typed cb (length (shared_states s)) vp ∈ enq_log (PostT_locked c cb s).
Proof.
  intros Hc. unfold PostT_locked.
  destruct (start_if_stopped_fields (make_promise s)) as (_ & _ & _ & _ & F5).
  destruct (life (start_if_stopped _)) eqn:Hl; cbn; rewrite ?Hl; try done.
  intros _. rewrite F5. split; [by apply list_lookup_insert_eq|].
  eexists. apply elem_of_app. right. apply list_elem_of_here.
Qed.

Lemma call_step_not_given c f s fut :
  (∀ cb, f ≠ Post cb) → (∀ cb, f ≠ PostT cb) →
  callers s !! c = Some Idle →
  callers (call_step c f s) !! c ≠ Some (PostNotify fut).
Proof.
  intros H1 H2 Hc.
  assert (Hlt : c < length (callers s)) by (by eapply lookup_lt_Some).
  destruct f; cbn; unfold Stop_locked, WaitAll_locked.
  - destruct (StartUnlocked_fields s) as (_ & _ & _ & _ & ->). congruence.
  - destruct (running_ s); cbn; rewrite list_lookup_insert_eq by done; congruence.
  - by destruct (H1 callback).
  - by destruct (H2 callback).
  - cbn. rewrite list_lookup_insert_eq by done. congruence.
  - congruence.
  - destruct (running_ s); cbn; rewrite list_lookup_insert_eq by done; congruence.
Qed.

Lemma resume_step_not_given c pc s s' :
  resume_step c pc s = Some s' → callers s !! c = Some pc →
  callers s' !! c = Some Idle ∨ callers s' !! c = Some pc ∨
  ∃ pc', callers s' !! c = Some pc' ∧ ∀ fut, pc' ≠ PostNotify fut.
Proof.
  intros H Hc. assert (Hlt : c < length (callers s)) by (by eapply lookup_lt_Some).
  destruct pc; cbn in H; repeat case_match; simplify_eq; cbn;
    rewrite ?list_lookup_insert_eq by done; eauto.
  all: right; right; eexists; split; [done|]; congruence.
Qed.

Lemma inv_test_start prog : inv_test prog (start prog).
Proof.
  split; [by exists []|]. exists []. split; [done|]. cbn. constructor.
Qed.

Lemma get_matches s f a g :
  inv s → future_matches s f a → get (shared_states s) f = Some g →
  match a with
  | None => g = GotNoState
  | Some (Returns v) => g = GotValue v
  | Some (Throws e) => g = GotException e
  end.
Proof.
  intros I. destruct f as [p|], a as [cb|]; cbn; try done.
  - intros [vp Ht]. destruct (task_ran_or_pending _ _ I Ht) as [[_ Hs]|[_ Hp]].
    + destruct (future_of_settled _ _ Hs) as [_ ->]. destruct cb; cbn; congruence.
    + by destruct (future_of_pending _ _ Hp) as [_ ->].
  - congruence.
Qed.

Lemma futures_given_other s r h g pc :
  callers s !! 0 = Some pc → (∀ fut, pc ≠ PostNotify fut) →
  futures_given (Test s r h g) = h.
Proof. unfold futures_given. cbn. intros -> Hpc. destruct pc; try done. by destruct (Hpc fut). Qed.

Lemma worker_step_test prog w t s' :
  inv_test prog t → step (Worker w) (sys t) = Some s' →
  inv_test prog (Test s' (todo t) (held t) (gots t)).
Proof.
  intros [R (fs & E & F)] H. split; [by eapply reachable_step|].
  exists fs. cbn. split; [done|].
  unfold futures_given in *. cbn.
  rewrite (step_callers _ _ _ 0 H) by done.
  eapply future_matches_mono; [|done]. by destruct (step_grow _ _ _ H) as [? _].
Qed.

Lemma main_step_test prog t t' :
  inv_test prog t → main_step t = Some t' → inv_test prog t'.
Proof.
  intros [R (fs & E & F)] H. pose proof (reachable_inv _ _ R) as I.
  unfold main_step in H.
  destruct (callers (sys t) !! 0) as [pc|] eqn:Hc; [|done].
  assert (Hlt : 0 < length (callers (sys t))) by (by eapply lookup_lt_Some).
  unfold futures_given in F. rewrite Hc in F.
  destruct (decide (pc = Idle)) as [->|Hni].
  - destruct (todo t) as [|st r] eqn:Htodo; [done|].
    destruct st as [f|i|i].
    + destruct (step (Call 0 f) (sys t)) as [s'|] eqn:Hs; [|done].
      cbn in H. simplify_eq. cbn [sys todo held gots].
      pose proof (reachable_step _ _ _ _ R Hs) as R'.
      pose proof (single_user_alive _ R') as Hnt.
      pose proof (step_alive _ _ _ Hs) as Ha.
      assert (Hs' : s' = call_step 0 f (sys t)).
      { unfold step in Hs. rewrite Ha, Hc in Hs. by simplify_eq. }
      pose proof (call_step_not_destroyed 0 f (sys t) Ha) as Hnd. rewrite <-Hs' in Hnd.
      assert (Ha' : life s' = Alive) by (by destruct (life s')).
      destruct (step_grow _ _ _ Hs) as [Hp _].
      split; [done|].
      assert (Hother : (∀ cb, f ≠ Post cb) → (∀ cb, f ≠ PostT cb) →
        expect (SCall f :: r) fs = expect r fs →
        ∃ fs', expect prog [] = gots t ++ expect r fs' ∧
          Forall2 (future_matches s') (futures_given (Test s' r (held t) (gots t))) fs').
      { intros H1 H2 He. exists fs. rewrite E, He. split; [done|].
        destruct (callers s' !! 0) as [pc'|] eqn:Hc'.
        - rewrite (futures_given_other _ _ _ _ pc') by
            (try done; intros fut ->; subst s';
             by eapply (call_step_not_given 0 f (sys t))).
          by eapply future_matches_mono.
        - unfold futures_given. cbn. rewrite Hc'. by eapply future_matches_mono. }
      destruct f as [| |cb|cb| | |]; try (by apply Hother).
      * exists (fs ++ [None]). rewrite E. split; [done|].
        change (call_step 0 (Post cb) (sys t)) with (Post_locked 0 cb (sys t)) in Hs'.
        unfold futures_given. cbn [sys held]. subst s'.
        rewrite Post_locked_given by done.
        apply Forall2_app; [by eapply future_matches_mono|]. by constructor.
      * exists (fs ++ [Some cb]). rewrite E. split; [done|].
        change (call_step 0 (PostT cb) (sys t)) with (PostT_locked 0 cb (sys t)) in Hs'.
        unfold futures_given. cbn [sys held]. subst s'.
        destruct (PostT_locked_given 0 cb (sys t) Hlt Ha') as [-> Ht].
        apply Forall2_app; [by eapply future_matches_mono|]. by constructor.
    + destruct (held t !! i) as [f|] eqn:Hf; [|done]. cbn in H.
      destruct (get _ f) as [g|] eqn:Hg; [|done].
      cbn in H. simplify_eq. cbn [sys todo held gots].
      destruct (Forall2_lookup_l _ _ _ _ _ F Hf) as (a & Ha & Hm).
      pose proof (get_matches _ _ _ _ I Hm Hg) as Hgm.
      split; [done|]. exists (<[i := None]> fs). split.
      * rewrite E. cbn. rewrite Ha, <-(assoc (++)).
        destruct a as [[v|e]|]; subst g; cbn; by rewrite ?expect_unwind.
      * rewrite (futures_given_other _ _ _ _ Idle) by done.
        by apply Forall2_insert.
    + destruct (held t !! i) as [f|] eqn:Hf; [|done]. cbn in H.
      destruct (get _ f) as [g|] eqn:Hg; [|done].
      cbn in H. simplify_eq. cbn [sys todo held gots].
      destruct (Forall2_lookup_l _ _ _ _ _ F Hf) as (a & Ha & Hm).
      pose proof (get_matches _ _ _ _ I Hm Hg) as Hgm.
      split; [done|]. exists (<[i := None]> fs). split.
      * rewrite E. cbn. rewrite Ha, <-(assoc (++)).
        destruct a as [[v|e]|]; subst g; cbn; try done.
        by rewrite (list_insert_id fs i None).
      * rewrite (futures_given_other _ _ _ _ Idle) by done.
        by apply Forall2_insert.
  - assert (∃ s' h, step (Resume 0) (sys t) = Some s' ∧
      t' = Test s' (todo t) h (gots t) ∧
      h = match pc with PostNotify fut => held t ++ [fut] | _ => held t end)
      as (s' & h & Hs & -> & ->).
    { destruct pc; try done; destruct (step (Resume 0) (sys t)) as [s'|];
        simplify_eq/=; eauto. }
    split; [by eapply reachable_step|]. cbn.
    exists fs. split; [done|].
    destruct (step_grow _ _ _ Hs) as [Hp _].
    pose proof (step_alive _ _ _ Hs) as Hal.
    unfold step in Hs. rewrite Hal, Hc in Hs. cbn in Hs.
    destruct (resume_step_not_given _ _ _ _ Hs Hc) as [Hc'|[Hc'|(pc' & Hc' & Hn)]].
    + rewrite (futures_given_other _ _ _ _ Idle) by done.
      eapply future_matches_mono; [done|]. by destruct pc.
    + destruct pc; try done.
      * cbn in Hs. simplify_eq. cbn in Hc'.
        rewrite list_lookup_insert_eq in Hc' by done. done.
      * rewrite (futures_given_other _ _ _ _ (StopNotify dtor)) by done.
        by eapply future_matches_mono.
      * rewrite (futures_given_other _ _ _ _ (StopJoin dtor)) by done.
        by eapply future_matches_mono.
      * rewrite (futures_given_other _ _ _ _ (WaitAllLoop futures)) by done.
        by eapply future_matches_mono.
      * rewrite (futures_given_other _ _ _ _ DtorMembers) by done.
        by eapply future_matches_mono.
    + rewrite (futures_given_other _ _ _ _ pc') by done.
      eapply future_matches_mono; [done|].
      by destruct pc.
Qed.

Lemma tstep_test prog l t t' : inv_test prog t → tstep l t = Some t' → inv_test prog t'.
Proof.
  intros J H. destruct l as [w|]; cbn in H.
  - destruct (step (Worker w) (sys t)) as [s'|] eqn:Hs; [|done].
    cbn in H. simplify_eq. by apply (worker_step_test prog w).
  - by eapply main_step_test.
Qed.

Lemma trun_test prog sched t t' : inv_test prog t → trun sched t = Some t' → inv_test prog t'.
Proof.
  revert t. induction sched as [|l sched IH]; intros t J H; [by simplify_eq/=|].
  cbn in H. destruct (tstep l t) as [t1|] eqn:Hs; [|done].
  eapply IH; [|done]. by eapply tstep_test.
Qed.

(** X10. In a program of one thread the results of [get()] do not depend
    on how the worker is scheduled: they are the ones of [expect], where
    every task is run as soon as it is submitted. A future of [Post<T>]
    gives what the callback returned or threw, once; the future returned
    by [Post] without a type, and a future that was read before, have no
    state. *)
Theorem get_results_are_sequential prog sched t :
  trun sched (start prog) = Some t →
  gots t `prefix_of` expect prog [] ∧
  (todo t = [] → gots t = expect prog []).
Proof.
  intros H. destruct (trun_test prog _ _ _ (inv_test_start prog) H) as [R (fs & E & _)].
  split.
  - rewrite E. by apply prefix_app_r.
  - intros Ht. rewrite E, Ht. cbn. by rewrite (right_id_L [] (++)).
Qed.

Lemma get_results_are_sequential_witness :
  gots tst_with_return_done `prefix_of` expect TestAsyncCallbackWithReturn [] ∧
  (todo tst_with_return_done = [] →
   gots tst_with_return_done = expect TestAsyncCallbackWithReturn []).
Proof.
  apply (get_results_are_sequential TestAsyncCallbackWithReturn with_return_schedule).
  reflexivity.
Defined.

Lemma elem_of_insert_None {A} (fs : list (option A)) i x :
  Some x ∈ <[i := None]> fs → Some x ∈ fs.
Proof.
  intros [j Hj]%list_elem_of_lookup.
  apply list_lookup_insert_Some in Hj as [(_ & ? & _)|[_ Hj]]; [done|].
  by eapply list_elem_of_lookup_2.
Qed.

Lemma submitted_weaken prog prog' fs fs' g :
  (∀ cb, Some cb ∈ fs → Some cb ∈ fs' ∨ SCall (PostT cb) ∈ prog') →
  (∀ cb, SCall (PostT cb) ∈ prog → SCall (PostT cb) ∈ prog') →
  submitted prog fs g → submitted prog' fs' g.
Proof.
  intros H1 H2. destruct g as [v|e|]; cbn; [| |done].
  - intros [H|H]; [by apply H1|right; by apply H2].
  - intros [H|H]; [by apply H1|right; by apply H2].
Qed.

Lemma expect_submitted prog fs g : g ∈ expect prog fs → submitted prog fs g.
Proof.
  revert fs. induction prog as [|st r IH]; intros fs; cbn; [by intros []%elem_of_nil|].
  assert (Hins : ∀ i, g ∈ expect r (<[i := None]> fs) → submitted (SGet i :: r) fs g).
  { intros i Hg. eapply submitted_weaken, IH, Hg.
    - intros cb Hcb. left. by eapply elem_of_insert_None.
    - intros cb Hcb. by apply list_elem_of_further. }
  assert (Hins' : ∀ i, g ∈ expect r (<[i := None]> fs) → submitted (STryGet i :: r) fs g).
  { intros i Hg. eapply submitted_weaken, IH, Hg.
    - intros cb Hcb. left. by eapply elem_of_insert_None.
    - intros cb Hcb. by apply list_elem_of_further. }
  assert (Hsame : ∀ st, g ∈ expect r fs → submitted (st :: r) fs g).
  { intros st' Hg. eapply submitted_weaken, IH, Hg.
    - by left.
    - intros cb Hcb. by apply list_elem_of_further. }
  assert (Hhere : ∀ st cb, fs !! st = Some (Some cb) →
    ∀ prog', submitted prog' fs
      match cb with Returns v => GotValue v | Throws e => GotException e end).
  { intros i cb Hi prog'. apply list_elem_of_lookup_2 in Hi. destruct cb; by left. }
  destruct st as [f|i|i].
  - destruct f; try (by apply Hsame).
    + intros Hg. eapply submitted_weaken, IH, Hg.
      * intros cb [Hcb|Hcb]%elem_of_app; [by left|].
        by apply list_elem_of_singleton in Hcb.
      * intros cb Hcb. by apply list_elem_of_further.
    + intros Hg. eapply submitted_weaken, IH, Hg.
      * intros cb [Hcb|Hcb]%elem_of_app; [by left|].
        apply list_elem_of_singleton in Hcb. simplify_eq. right. apply list_elem_of_here.
      * intros cb Hcb. by apply list_elem_of_further.
  - destruct (fs !! i) as [[[v|e]|]|] eqn:Hi.
    + intros [->|Hg]%elem_of_cons; [|by apply Hins]. by apply (Hhere i (Returns v)).
    + intros ->%list_elem_of_singleton. by apply (Hhere i (Throws e)).
    + by intros ->%list_elem_of_singleton.
    + by intros []%elem_of_nil.
  - destruct (fs !! i) as [[[v|e]|]|] eqn:Hi.
    + intros [->|Hg]%elem_of_cons; [|by apply Hins']. by apply (Hhere i (Returns v)).
    + intros [->|Hg]%elem_of_cons; [|by apply Hins']. by apply (Hhere i (Throws e)).
    + intros [->|Hg]%elem_of_cons; [done|by apply Hsame].
    + by intros []%elem_of_nil.
Qed.

(** X11. Whatever [get()] delivers was produced by a [Post<T>] of the
    program: a value is the one its callback returns, an exception the one
    it throws. Nothing comes back through the future that [Post] without a
    type returns: a program that only uses that [Post] finds no state in
    every future, also when the task throws, as in
    [TestAsyncCallbackException]. *)
Theorem get_delivers_only_typed_results prog sched t g :
  trun sched (start prog) = Some t → g ∈ gots t →
  match g with
  | GotValue v => SCall (PostT (Returns v)) ∈ prog
  | GotException e => SCall (PostT (Throws e)) ∈ prog
  | GotNoState => True
  end ∧
  ((∀ cb, SCall (PostT cb) ∉ prog) → g = GotNoState).
Proof.
  intros H Hg. destruct (trun_test prog _ _ _ (inv_test_start prog) H) as [R (fs & E & _)].
  assert (Hs : submitted prog [] g).
  { apply expect_submitted. rewrite E. apply elem_of_app. by left. }
  destruct g as [v|e|]; cbn in Hs; [| |done].
  - destruct Hs as [[]%elem_of_nil|Hs]. split; [done|]. intros Hn. by destruct (Hn (Returns v)).
  - destruct Hs as [[]%elem_of_nil|Hs]. split; [done|]. intros Hn. by destruct (Hn (Throws e)).
Qed.

Lemma get_delivers_only_typed_results_witness :
  SCall (PostT (Returns (VInt 42))) ∈ TestAsyncCallbackWithReturn ∧
  ((∀ cb, SCall (PostT cb) ∉ TestAsyncCallbackWithReturn) →
   GotValue (VInt 42) = GotNoState).
Proof.
  apply (get_delivers_only_typed_results TestAsyncCallbackWithReturn
           with_return_schedule tst_with_return_done (GotValue (VInt 42))).
  - reflexivity.
  - apply list_elem_of_here.
Defined.

Lemma run_callers_length sched s s' :
  run sched s = Some s' → length (callers s') = length (callers s).
Proof.
  revert s. induction sched as [|l sched IH]; intros s H; [by simplify_eq/=|].
  cbn in H. destruct (step l s) as [s1|] eqn:Hs; [|done]. cbn in H.
  rewrite (IH _ H). by eapply step_callers_length.
Qed.

Lemma all_ran s : inv s → (∀ t, t ∈ enq_log s → t ∈ ran_log s) → ran_log s = enq_log s.
Proof.
  intros I Hall. destruct (inv_l _ I) as [L1 L2].
  pose proof (NoDup_enq_log _ I) as Hnd.
  rewrite L1, L2, <-(assoc (++)) in Hnd, Hall |- *.
  destruct (executing s ++ callbacks_ s) as [|x l]; [by rewrite (right_id_L [] (++))|].
  apply NoDup_app in Hnd as (_ & Hd & _). destruct (Hd x).
  - apply Hall, elem_of_app. right. apply list_elem_of_here.
  - apply list_elem_of_here.
Qed.

Lemma empty_registry_all_ran n s :
  reachable n s → no_WaitAll s → pending_futures_ s = [] → ran_log s = enq_log s.
Proof.
  intros R Hw Hp. pose proof (reachable_inv _ _ R) as I.
  apply all_ran; [done|]. intros t Ht.
  destruct (reachable_registry _ _ R t Ht) as [Hin|[(c & fs & Hc & _)|Hrd]].
  - rewrite Hp in Hin. by apply elem_of_nil in Hin.
  - by destruct (Hw c fs).
  - destruct (task_ran_or_pending _ _ I Ht) as [[? _]|[_ Hpe]]; [done|].
    destruct (future_of_pending _ _ Hpe) as [Hf _]. congruence.
Qed.

Lemma single_user_no_WaitAll s pc :
  reachable 1 s → callers s !! 0 = Some pc → (∀ fs, pc ≠ WaitAllLoop fs) → no_WaitAll s.
Proof.
  intros [sched R] Hc Hpc c fs Hcf.
  assert (c = 0) as ->.
  { apply lookup_lt_Some in Hcf. rewrite (run_callers_length _ _ _ R) in Hcf.
    cbn in Hcf. rewrite ?length_replicate in Hcf. lia. }
  rewrite Hc in Hcf. simplify_eq. by destruct (Hpc fs).
Qed.

Lemma all_ran_step l s s' :
  inv s' → step l s = Some s' → enq_log s' = enq_log s →
  ran_log s = enq_log s → ran_log s' = enq_log s'.
Proof.
  intros I H He Hr. destruct (step_grow _ _ _ H) as (_ & [k Hk] & _).
  destruct (inv_l _ I) as [L1 L2].
  assert (Hlen : length (executing s' ++ callbacks_ s') = 0).
  { pose proof (f_equal length He) as H1. rewrite <-Hr, L1, L2, Hk in H1.
    rewrite !length_app in H1. rewrite length_app. lia. }
  apply nil_length_inv in Hlen. rewrite L1, L2, <-(assoc (++)), Hlen.
  by rewrite (right_id_L [] (++)).
Qed.

Lemma worker_step_fields w s s' :
  step (Worker w) s = Some s' →
  enq_log s' = enq_log s ∧ pending_futures_ s' = pending_futures_ s ∧
  callers s' = callers s.
Proof.
  intros H. pose proof (step_alive _ _ _ H) as Ha.
  unfold step in H. rewrite Ha in H.
  destruct (threads s !! w) as [pc|]; [|done]. cbn in H.
  destruct pc; cbn in H; repeat case_match; simplify_eq; cbn; try done.
  all: unfold inner_loop; by destruct (callbacks_ s).
Qed.

Lemma Post_locked_enq c cb s :
  life (Post_locked c cb s) = Alive →
  ∃ p, enq_log (Post_locked c cb s) = enq_log s ++ [Untyped cb p].
Proof.
  unfold Post_locked.
  destruct (start_if_stopped_fields (make_promise s)) as (_ & F2 & _).
  destruct (life (start_if_stopped _)) eqn:Hl; cbn; rewrite ?Hl; try done.
  intros _. rewrite F2. eauto.
Qed.

Lemma inv_posts_start cbs : inv_posts cbs (start (posts_then_wait cbs)).
Proof. split. left. exists cbs. split_and!; try done. by left. Qed.

Lemma tstep_posts cbs l t t' :
  reachable 1 (sys t) → inv_posts cbs t → tstep l t = Some t' → inv_posts cbs t'.
Proof.
  intros R [J] H. pose proof (reachable_inv _ _ R) as I.
  destruct l as [w|]; cbn in H.
  - destruct (step (Worker w) (sys t)) as [s'|] eqn:Hs; [|done].
    cbn in H. simplify_eq.
    destruct (worker_step_fields _ _ _ Hs) as (He & Hp & Hc).
    split. cbn. rewrite He, Hp, Hc.
    destruct J as [J|[J|(Ht & Hcb & Hr)]]; [by left|by right; left|].
    right; right. split_and!; try done. rewrite <-He.
    eapply all_ran_step; [|done..]. eapply reachable_inv, reachable_step; done.
  - unfold main_step in H.
    destruct J as [(rem & Ht & Hcb & [Hc|[fut Hc]])|
                   [(Ht & Hcb & Hp & [Hc|[fs Hc]])|(Ht & Hcb & Hr)]];
      rewrite ?Hc, ?Ht in H.
    + assert (Hlt : 0 < length (callers (sys t))) by (by eapply lookup_lt_Some).
      destruct rem as [|cb rem]; cbn in H.
      * destruct (step (Call 0 WaitAll) (sys t)) as [s'|] eqn:Hs; [|done].
        cbn in H. simplify_eq. split. cbn. right; left.
        pose proof (step_alive _ _ _ Hs) as Ha.
        unfold step in Hs. rewrite Ha, Hc in Hs. simplify_eq. cbn.
        rewrite (right_id_L [] (++)). split_and!; try done.
        right. eexists. by apply list_lookup_insert_eq.
      * destruct (step (Call 0 (Post cb)) (sys t)) as [s'|] eqn:Hs; [|done].
        cbn in H. simplify_eq. split. cbn. left. exists rem.
        pose proof (reachable_step _ _ _ _ R Hs) as R'.
        pose proof (single_user_alive _ R') as Hnt.
        pose proof (step_alive _ _ _ Hs) as Ha.
        pose proof (call_step_not_destroyed 0 (Post cb) (sys t) Ha) as Hnd.
        unfold step in Hs. rewrite Ha, Hc in Hs. simplify_eq. cbn in Hnt, Hnd |- *.
        assert (Ha' : life (Post_locked 0 cb (sys t)) = Alive)
          by (by destruct (life (Post_locked 0 cb (sys t)))).
        destruct (Post_locked_enq 0 cb (sys t) Ha') as [p ->].
        split_and!; [done| |].
        -- by rewrite fmap_app, <-(assoc (++)).
        -- right. eexists. by apply Post_locked_given.
    + destruct (step (Resume 0) (sys t)) as [s'|] eqn:Hs; [|done].
      cbn in H. simplify_eq. split. cbn. left. exists rem.
      pose proof (step_alive _ _ _ Hs) as Ha.
      unfold step in Hs. rewrite Ha, Hc in Hs. cbn in Hs. simplify_eq. cbn.
      split_and!; try done. left. apply list_lookup_insert_eq. by eapply lookup_lt_Some.
    + destruct (step (Call 0 Destroy) (sys t)) as [s'|] eqn:Hs; [|done].
      cbn in H. simplify_eq. split. cbn. right; right.
      assert (Hran : ran_log (sys t) = enq_log (sys t)).
      { eapply empty_registry_all_ran; [done| |done].
        by eapply (single_user_no_WaitAll _ Idle). }
      pose proof (step_alive _ _ _ Hs) as Ha.
      unfold step in Hs. rewrite Ha, Hc in Hs. simplify_eq.
      unfold call_step, Stop_locked. by destruct (running_ (sys t)).
    + destruct (step (Resume 0) (sys t)) as [s'|] eqn:Hs; [|done].
      cbn in H. simplify_eq. split. cbn. right; left.
      assert (Hlt : 0 < length (callers (sys t))) by (by eapply lookup_lt_Some).
      pose proof (step_alive _ _ _ Hs) as Ha.
      unfold step in Hs. rewrite Ha, Hc in Hs. cbn in Hs.
      destruct fs as [|f fs]; [|destruct (future_ready _ f)]; simplify_eq; cbn.
      * split_and!; try done. left. by apply list_lookup_insert_eq.
      * split_and!; try done. right. eexists. by apply list_lookup_insert_eq.
    + assert (∃ s', step (Resume 0) (sys t) = Some s' ∧ todo t' = [] ∧ sys t' = s')
        as (s' & Hs & Ht' & Hs').
      { destruct (callers (sys t) !! 0) as [pc|]; [|done].
        destruct pc; try done; destruct (step (Resume 0) (sys t)) as [s'|];
          simplify_eq/=; eauto. }
      split. right; right. rewrite Hs'.
      assert (He : enq_log s' = enq_log (sys t)).
      { pose proof (step_alive _ _ _ Hs) as Ha. pose proof Hs as Hs2.
        unfold step in Hs2. rewrite Ha in Hs2.
        destruct (callers (sys t) !! 0) as [pc|]; [|done]. cbn in Hs2.
        by destruct (resume_step_grow _ _ _ _ Hs2) as (-> & _). }
      split_and!; [done|by rewrite He|].
      eapply all_ran_step; [|done..]. eapply reachable_inv, reachable_step; done.
Qed.

Lemma trun_posts cbs sched t t' :
  inv_test (posts_then_wait cbs) t → inv_posts cbs t → trun sched t = Some t' →
  inv_posts cbs t'.
Proof.
  revert t. induction sched as [|l sched IH]; intros t J P H; [by simplify_eq/=|].
  cbn in H. destruct (tstep l t) as [t1|] eqn:Hs; [|done].
  eapply (IH t1); [by eapply tstep_test| |done].
  eapply tstep_posts; [|done..]. by destruct J.
Qed.

(** X12. In a program of the shape of [TestBasicAsyncCallback], which
    submits tasks with [Post] and then calls [WaitAll()], once [WaitAll()]
    has returned every task has been run, each once, in the order of
    submission, on every schedule; this still holds when the destructor
    runs. *)
Theorem WaitAll_then_all_have_run cbs sched t :
  trun sched (start (posts_then_wait cbs)) = Some t →
  (todo t = [SCall Destroy] ∧ callers (sys t) !! 0 = Some Idle) ∨ todo t = [] →
  task_callback <$> ran_log (sys t) = cbs.
Proof.
  intros H Hdone.
  pose proof (trun_test _ _ _ _ (inv_test_start _) H) as [R _].
  destruct (trun_posts cbs _ _ _ (inv_test_start _) (inv_posts_start cbs) H) as [J].
  destruct J as [(rem & Ht & _)|[(Ht & Hcb & Hp & _)|(Ht & Hcb & Hr)]].
  - unfold posts_then_wait in Ht.
    destruct Hdone as [[Hd _]|Hd]; rewrite Hd in Ht; destruct rem as [|? [|? ?]]; done.
  - destruct Hdone as [[_ Hc]|Hd]; [|by rewrite Hd in Ht].
    rewrite (empty_registry_all_ran 1 (sys t)); try done.
    by eapply (single_user_no_WaitAll _ Idle).
  - by rewrite Hr.
Qed.

Lemma WaitAll_then_all_have_run_witness :
  task_callback <$> ran_log (sys tst_basic_waited) = replicate 10 (Returns VVoid).
Proof.
  apply (WaitAll_then_all_have_run (replicate 10 (Returns VVoid)) basic_schedule).
  - reflexivity.
  - left. split; reflexivity.
Defined.

Lemma trun_app a b t : trun (a ++ b) t = trun a t ≫= trun b.
Proof.
  revert t. induction a as [|l a IH]; intros t; [done|].
  cbn. destruct (tstep l t); [|done]. cbn. apply IH.
Qed.

Lemma main_resume t s' :
  step (Resume 0) (sys t) = Some s' →
  ∃ h, main_step t = Some (Test s' (todo t) h (gots t)).
Proof.
  intros Hs. pose proof (step_alive _ _ _ Hs) as Ha. pose proof Hs as Hs2.
  unfold step in Hs2. rewrite Ha in Hs2. unfold main_step.
  destruct (callers (sys t) !! 0) as [pc|]; [|done]. cbn in Hs2.
  destruct pc; try done; rewrite Hs; cbn; eauto.
Qed.

Lemma trun_lift sched t s' :
  Forall own sched → run sched (sys t) = Some s' →
  ∃ h, trun (lift <$> sched) t = Some (Test s' (todo t) h (gots t)).
Proof.
  revert t. induction sched as [|l sched IH]; intros t Ho H.
  - simplify_eq/=. exists (held t). by destruct t.
  - apply Forall_cons in Ho as [Hl Ho]. cbn in H.
    destruct (step l (sys t)) as [s1|] eqn:Hs; [|done]. cbn in H.
    destruct l as [w|c f|[|c]]; try done; cbn.
    + rewrite Hs. cbn. apply (IH (Test s1 (todo t) (held t) (gots t)) Ho H).
    + destruct (main_resume _ _ Hs) as [h ->]. cbn.
      apply (IH (Test s1 (todo t) h (gots t)) Ho H).
Qed.

Lemma Stop_completes s c d :
  inv s → life s = Alive → running_ s = true → callers s !! c = Some Idle →
  ∃ k w s',
    run (Resume c :: replicate k (Worker w) ++ [Resume c]) (Stop_locked c d s) = Some s' ∧
    callers s' !! c = Some (if d then DtorMembers else Idle) ∧
    Stopped s' ∧ life s' = Alive.
Proof.
  intros I Ha Hr Hc.
  assert (It : inv_threads s) by (apply I; congruence).
  assert (Hlt : c < length (callers s)) by (by eapply lookup_lt_Some).
  destruct (it_running _ It Hr) as (w & pc & Hw & Hpc & Hl).
  set (s1 := Stop_locked c d s).
  assert (Hs1 : step (Call c (if d then Destroy else Stop)) s = Some s1).
  { unfold step. rewrite Ha, Hc. by destruct d. }
  assert (I1 : inv s1) by (by eapply step_inv).
  assert (E1 : s1 = set_caller c (StopNotify d) (set_running false s)).
  { unfold s1, Stop_locked. by rewrite Hr. }
  set (s2 := set_caller c (StopJoin d) s1).
  assert (Hs2 : step (Resume c) s1 = Some s2).
  { unfold step, s2. rewrite E1. cbn. rewrite Ha, list_lookup_insert_eq by done.
    cbn. by rewrite Hw. }
  assert (I2 : inv s2) by (by eapply step_inv).
  destruct (worker_drains (worker_measure pc (callbacks_ s2)) s2 w pc)
    as (k & s3 & Hrun & Hd & Ha3 & I3 & Hc3 & Hw3); try done.
  { unfold s2. by rewrite E1. }
  { unfold s2. by rewrite E1. }
  { unfold s2. by rewrite E1. }
  assert (Hw3' : worker_thread_ s3 = Some w) by (rewrite Hw3; unfold s2; by rewrite E1).
  assert (Hc3' : callers s3 !! c = Some (StopJoin d)).
  { rewrite Hc3. unfold s2. cbn. apply list_lookup_insert_eq.
    rewrite E1. cbn. by rewrite length_insert. }
  set (s4 := set_caller c (if d then DtorMembers else Idle) (set_worker_thread None s3)).
  assert (Hs4 : step (Resume c) s3 = Some s4).
  { unfold step. rewrite Ha3, Hc3'. cbn. by rewrite Hw3', Hd. }
  exists k, w, s4. split_and!.
  - cbn. rewrite Hs2. cbn. rewrite run_app, Hrun. cbn. by rewrite Hs4.
  - cbn. apply list_lookup_insert_eq. by eapply lookup_lt_Some.
  - apply (stopped_joined s3 w); [|done..]. apply I3. congruence.
  - done.
Qed.

Lemma main_call t f r :
  life (sys t) = Alive → callers (sys t) !! 0 = Some Idle → todo t = SCall f :: r →
  main_step t = Some (Test (call_step 0 f (sys t)) r (held t) (gots t)).
Proof.
  intros Ha Hc Ht. unfold main_step, step. by rewrite Hc, Ht, Ha.
Qed.

Lemma single_user_idle_stopped s :
  reachable 1 s → life s = Alive → callers s !! 0 = Some Idle →
  running_ s = false → worker_thread_ s = None.
Proof.
  intros R Ha Hc Hr.
  assert (K : inv_stop s) by (eapply reachable_stop; [done|congruence]).
  destruct (worker_thread_ s) as [w|] eqn:Hw; [|done].
  destruct (is_owner _ K Hr) as (c & pc & Hcc & Hin); [by rewrite Hw|].
  assert (c = 0) as ->.
  { destruct R as [sched R]. apply lookup_lt_Some in Hcc.
    rewrite (run_callers_length _ _ _ R) in Hcc. cbn in Hcc.
    rewrite ?length_replicate in Hcc. lia. }
  rewrite Hc in Hcc. by simplify_eq.
Qed.

Lemma call_returns t f r :
  reachable 1 (sys t) → life (sys t) = Alive →
  callers (sys t) !! 0 = Some Idle → todo t = SCall f :: r →
  ∃ sched t', trun sched t = Some t' ∧
    callers (sys t') !! 0 = Some Idle ∧ todo t' = r ∧ gots t' = gots t ∧
    life (sys t') = match f with Destroy => Destroyed | _ => Alive end.
Proof.
  intros R Ha Hc Ht. pose proof (reachable_inv _ _ R) as I.
  assert (Hlt : 0 < length (callers (sys t))) by (by eapply lookup_lt_Some).
  pose proof (main_call t f r Ha Hc Ht) as Hm.
  set (s1 := call_step 0 f (sys t)) in *.
  set (t1 := Test s1 r (held t) (gots t)) in *.
  assert (Hs1 : step (Call 0 f) (sys t) = Some s1).
  { unfold step. by rewrite Ha, Hc. }
  pose proof (reachable_step _ _ _ _ R Hs1) as R1.
  pose proof (reachable_inv _ _ R1) as I1.
  assert (Ha1 : life s1 = Alive).
  { pose proof (single_user_alive _ R1). 
    pose proof (call_step_not_destroyed 0 f (sys t) Ha). fold s1 in H0.
    by destruct (life s1). }
  assert (Hfin : ∀ sched s',
    Forall own sched → run sched s1 = Some s' →
    callers s' !! 0 = Some Idle →
    life s' = match f with Destroy => Destroyed | _ => Alive end →
    ∃ sched t', trun sched t = Some t' ∧
      callers (sys t') !! 0 = Some Idle ∧ todo t' = r ∧ gots t' = gots t ∧
      life (sys t') = match f with Destroy => Destroyed | _ => Alive end).
  { intros sched s' Ho Hrun Hc' Hl'.
    destruct (trun_lift sched t1 s' Ho Hrun) as [h Hh].
    exists (TMain :: (lift <$> sched)), (Test s' r h (gots t)).
    split; [|done]. cbn. rewrite Hm. cbn. exact Hh. }
  assert (Hdtor : ∀ s0, life s0 = Alive → callers s0 !! 0 = Some DtorMembers →
    worker_thread_ s0 = None →
    ∃ s', step (Resume 0) s0 = Some s' ∧ life s' = Destroyed ∧
      callers s' !! 0 = Some Idle).
  { intros s0 Ha0 Hc0 Hw0. eexists. split_and!.
    - unfold step. rewrite Ha0, Hc0. cbn. by rewrite Hw0.
    - done.
    - cbn. apply list_lookup_insert_eq. by eapply lookup_lt_Some. }
  destruct f as [| |cb|cb| | |].
  - (* Start *)
    apply (Hfin [] s1); try done.
    unfold s1. cbn. by destruct (StartUnlocked_fields (sys t)) as (_ & _ & _ & _ & ->).
  - (* Stop *)
    destruct (running_ (sys t)) eqn:Hr.
    + destruct (Stop_completes (sys t) 0 false I Ha Hr Hc)
        as (k & w & s' & Hrun & Hc' & _ & Ha').
      apply (Hfin (Resume 0 :: replicate k (Worker w) ++ [Resume 0]) s'); try done.
      apply Forall_cons. split; [done|]. apply Forall_app. split.
      * by apply Forall_replicate.
      * by apply Forall_singleton.
    + apply (Hfin [] s1); try done.
      unfold s1. cbn. unfold Stop_locked. rewrite Hr. cbn.
      by apply list_lookup_insert_eq.
  - (* Post *)
    assert (Hc1 : callers s1 !! 0 = Some (PostNotify None))
      by (by apply Post_locked_given).
    apply (Hfin [Resume 0] (set_caller 0 Idle s1)); try done.
    + by apply Forall_singleton.
    + cbn [run]. unfold step. rewrite Ha1, Hc1. done.
    + cbn. apply list_lookup_insert_eq. by eapply lookup_lt_Some.
  - (* Post<T> *)
    assert (Hc1 : callers s1 !! 0 =
      Some (PostNotify (Some (length (shared_states (sys t))))))
      by (by destruct (PostT_locked_given 0 cb (sys t) Hlt Ha1)).
    apply (Hfin [Resume 0] (set_caller 0 Idle s1)); try done.
    + by apply Forall_singleton.
    + cbn [run]. unfold step. rewrite Ha1, Hc1. done.
    + cbn. apply list_lookup_insert_eq. by eapply lookup_lt_Some.
  - (* WaitAll *)
    destruct (worker_settles s1 I1 Ha1)
      as (k & w & s2 & Hrun & Ha2 & I2 & Hran & Hq & Hc2 & _ & _ & _ & He2).
    destruct (WaitAllLoop_finishes 0 (pending_futures_ (sys t)) s2)
      as (s3 & Hrun3 & Hc3 & Ha3); try done.
    { rewrite Hc2. cbn. by apply list_lookup_insert_eq. }
    { intros h Hh. destruct (ip_registry _ (inv_p _ I) _ Hh) as (t0 & Ht0 & <-).
      apply settled_ready. apply I2. by rewrite Hran. }
    apply (Hfin (replicate k (Worker w) ++
                 replicate (S (length (pending_futures_ (sys t)))) (Resume 0)) s3);
      try done.
    + apply Forall_app. split; by apply Forall_replicate.
    + by rewrite run_app, Hrun.
  - (* GetPendingCount *)
    by apply (Hfin [] s1).
  - (* the destructor *)
    destruct (running_ (sys t)) eqn:Hr.
    + destruct (Stop_completes (sys t) 0 true I Ha Hr Hc)
        as (k & w & s' & Hrun & Hc' & [_ Hw'] & Ha').
      destruct (Hdtor s' Ha' Hc' Hw') as (s'' & Hs'' & Hl'' & Hc'').
      apply (Hfin ((Resume 0 :: replicate k (Worker w) ++ [Resume 0]) ++ [Resume 0]) s'');
        try done.
      * apply Forall_app. split; [|by apply Forall_singleton].
        apply Forall_cons. split; [done|]. apply Forall_app. split.
        -- by apply Forall_replicate.
        -- by apply Forall_singleton.
      * rewrite run_app. fold s1. change (call_step 0 Destroy (sys t)) with
          (Stop_locked 0 true (sys t)) in s1. unfold s1. rewrite Hrun. cbn.
        by rewrite Hs''.
    + pose proof (single_user_idle_stopped _ R Ha Hc Hr) as Hw.
      destruct (Hdtor s1) as (s'' & Hs'' & Hl'' & Hc''); try done.
      * unfold s1. cbn. unfold Stop_locked. rewrite Hr. cbn.
        by apply list_lookup_insert_eq.
      * unfold s1. cbn. unfold Stop_locked. by rewrite Hr.
      * apply (Hfin [Resume 0] s''); try done.
        -- by apply Forall_singleton.
        -- cbn [run]. by rewrite Hs''.
Qed.

Lemma trun_workers k w t s' :
  run (replicate k (Worker w)) (sys t) = Some s' →
  trun (replicate k (TWorker w)) t = Some (Test s' (todo t) (held t) (gots t)).
Proof.
  revert t. induction k as [|k IH]; intros t H.
  - simplify_eq/=. by destruct t.
  - cbn in H. destruct (step (Worker w) (sys t)) as [s1|] eqn:Hs; [|done]. cbn in H.
    cbn. rewrite Hs. cbn. apply (IH (Test s1 (todo t) (held t) (gots t)) H).
Qed.

Lemma get_can_return prog t i f :
  inv_test prog t → life (sys t) = Alive → callers (sys t) !! 0 = Some Idle →
  held t !! i = Some f →
  ∃ k w s' g, run (replicate k (Worker w)) (sys t) = Some s' ∧
    life s' = Alive ∧ callers s' = callers (sys t) ∧
    get (shared_states s') f = Some g.
Proof.
  intros [R (fs & _ & F)] Ha Hc Hf. pose proof (reachable_inv _ _ R) as I.
  unfold futures_given in F. rewrite Hc in F.
  destruct (Forall2_lookup_l _ _ _ _ _ F Hf) as (a & _ & Hm).
  destruct (worker_settles (sys t) I Ha)
    as (k & w & s2 & Hrun & Ha2 & I2 & Hran & _ & Hc2 & _).
  destruct f as [h|].
  - destruct a as [cb|]; [|done]. destruct Hm as [vp Ht].
    assert (Hs : task_settled (shared_states s2) (Typed cb h vp)).
    { apply I2. by rewrite Hran. }
    destruct (future_of_settled _ _ Hs) as [_ Hg].
    exists k, w, s2. unfold get. rewrite Hg. destruct cb; cbn; eauto.
  - exists k, w, s2, GotNoState. done.
Qed.

(** X13. In a program of one thread whose tasks return or throw without
    calling the executor themselves, no call and no [get()] blocks for
    ever: from every state between two statements the next statement can
    be completed by letting the worker and the thread run. A call comes
    back with the executor alive (destroyed, for the destructor); a
    [get()] on a future that the thread holds comes back with a result,
    after the worker has run the task. *)
Theorem no_statement_blocks prog sched t st r :
  trun sched (start prog) = Some t →
  life (sys t) = Alive → callers (sys t) !! 0 = Some Idle → todo t = st :: r →
  match st with SGet i | STryGet i => i < length (held t) | SCall _ => True end →
  ∃ sched' t', trun sched' t = Some t' ∧ callers (sys t') !! 0 = Some Idle ∧
    match st with
    | SCall f =>
        todo t' = r ∧ gots t' = gots t ∧
        life (sys t') = match f with Destroy => Destroyed | _ => Alive end
    | SGet i =>
        ∃ g, gots t' = gots t ++ [g] ∧
          todo t' = (if is_value g then r else unwind r) ∧ life (sys t') = Alive
    | STryGet i =>
        ∃ g, gots t' = gots t ++ [g] ∧ todo t' = r ∧ life (sys t') = Alive
    end.
Proof.
  intros H Ha Hc Ht Hi.
  pose proof (trun_test prog _ _ _ (inv_test_start prog) H) as J.
  destruct st as [f|i|i].
  - destruct (call_returns t f r) as (sched' & t' & ? & ? & ? & ? & ?); try done.
    + by destruct J.
    + by exists sched', t'.
  - destruct (lookup_lt_is_Some_2 (held t) i Hi) as [f Hf].
    destruct (get_can_return prog t i f J Ha Hc Hf)
      as (k & w & s' & g & Hrun & Ha' & Hc' & Hg).
    eexists (replicate k (TWorker w) ++ [TMain]), _. split_and!.
    + rewrite trun_app, (trun_workers _ _ _ _ Hrun). cbn.
      unfold main_step. cbn. rewrite Hc', Hc, Ht, Hf. cbn. rewrite Hg. cbn. done.
    + cbn. by rewrite Hc', Hc.
    + by exists g.
  - destruct (lookup_lt_is_Some_2 (held t) i Hi) as [f Hf].
    destruct (get_can_return prog t i f J Ha Hc Hf)
      as (k & w & s' & g & Hrun & Ha' & Hc' & Hg).
    eexists (replicate k (TWorker w) ++ [TMain]), _. split_and!.
    + rewrite trun_app, (trun_workers _ _ _ _ Hrun). cbn.
      unfold main_step. cbn. rewrite Hc', Hc, Ht, Hf. cbn. rewrite Hg. cbn. done.
    + cbn. by rewrite Hc', Hc.
    + by exists g.
Qed.

Lemma no_statement_blocks_witness :
  ∃ sched' t', trun sched' tst_with_return_posted = Some t' ∧
    callers (sys t') !! 0 = Some Idle ∧
    ∃ g, gots t' = gots tst_with_return_posted ++ [g] ∧
      todo t' = (if is_value g then [SGet 1; SCall Destroy]
                 else unwind [SGet 1; SCall Destroy]) ∧
      life (sys t') = Alive.
Proof.
  apply (no_statement_blocks TestAsyncCallbackWithReturn (replicate 4 TMain)
           tst_with_return_posted (SGet 0) [SGet 1; SCall Destroy]).
  - reflexivity.
  - reflexivity.
  - reflexivity.
  - reflexivity.
  - cbn. lia.
Defined.
